(** * PlexPlaylistReorder: the reconciliation core of [app/main.py]

    A shallow embedding of the playlist importer: the text normaliser
    ([normalize_text]), the upload decoder and parser
    ([decode_uploaded_bytes], [parse_apple_playlist_text]), the matcher
    ([build_reorder_plan]), the move loop of the [reorder] handler and the
    two process-wide caches.

    Python values are modelled as follows.
    - [str] is a list of Unicode code points ([list N]); [bytes] is
      [list byte].
    - The Unicode Character Database consulted by [unicodedata] and
      [str.lower] is an interface ([UnicodeData]); [ucd_latin] gives its rows
      for Basic Latin, Latin-1 Supplement and the combining diacritical
      marks, which is what concrete evaluations below stay inside.
    - [dict] is stdpp's [gmap]; exceptions are the [Raise] branch of
      [result]. *)

From Stdlib Require Import NArith ZArith List String Ascii Bool Lia.
From Stdlib Require Strings.Byte.
From Stdlib Require Import Sorting.Sorted.
From stdpp Require Import base tactics option list numbers countable gmap.

Set Default Proof Using "Type".
Local Open Scope N_scope.

(** Case analysis on the first conditional of the goal. *)
Ltac case_if :=
  match goal with
  | |- context [if ?b then _ else _] => destruct b eqn:?
  end.

(** ** Python strings *)

Abbreviation pystr := (list N).

(** An ASCII literal as a Python string. *)
Definition py (s : string) : pystr :=
  List.map N_of_ascii (list_ascii_of_string s).

(** [Py_UNICODE_ISSPACE]: the code points [str.strip], [str.isspace] and the
    [\s] class of [re] (on [str] patterns) treat as whitespace. *)
Definition is_space (c : N) : bool :=
  ((0x9 <=? c) && (c <=? 0xD)) || ((0x1C <=? c) && (c <=? 0x20))
  || (c =? 0x85) || (c =? 0xA0) || (c =? 0x1680)
  || ((0x2000 <=? c) && (c <=? 0x200A))
  || (c =? 0x2028) || (c =? 0x2029) || (c =? 0x202F) || (c =? 0x205F)
  || (c =? 0x3000).

(** [Py_UNICODE_ISLINEBREAK]: the boundaries of [str.splitlines]. *)
Definition is_linebreak (c : N) : bool :=
  ((0xA <=? c) && (c <=? 0xD)) || ((0x1C <=? c) && (c <=? 0x1E))
  || (c =? 0x85) || (c =? 0x2028) || (c =? 0x2029).

Fixpoint lstrip (s : pystr) : pystr :=
  match s with
  | c :: rest => if is_space c then lstrip rest else s
  | [] => []
  end.

Definition rstrip (s : pystr) : pystr := reverse (lstrip (reverse s)).

(** [s.strip()] *)
Definition strip (s : pystr) : pystr := rstrip (lstrip s).

(** [s.splitlines()], line ends dropped; CR LF counts as one boundary and a
    final boundary opens no further line. [cur] is the current line,
    reversed. *)
Fixpoint splitlines_from (cur : pystr) (s : pystr) : list pystr :=
  match s with
  | [] => match cur with [] => [] | _ => [reverse cur] end
  | c :: rest =>
      if is_linebreak c then
        reverse cur ::
          match c, rest with
          | 0xD, 0xA :: rest' => splitlines_from [] rest'
          | _, _ => splitlines_from [] rest
          end
      else splitlines_from (c :: cur) rest
  end.

Definition splitlines (s : pystr) : list pystr := splitlines_from [] s.

(** ** The Unicode Character Database, as the interpreter consults it *)

Module Unicode.

(** The per-code-point properties behind [unicodedata.normalize],
    [unicodedata.combining] and [str.lower]. *)
Class UnicodeData := {
  (** full compatibility decomposition (the mapping of NFKD) *)
  compat_decomp : N -> pystr;
  (** full canonical decomposition (the mapping of NFD) *)
  canon_decomp : N -> pystr;
  (** canonical combining class, [unicodedata.combining] *)
  ccc : N -> N;
  (** full lower-case mapping, [_PyUnicode_ToLowerFull] *)
  to_lower_full : N -> pystr;
  is_cased : N -> bool;
  is_case_ignorable : N -> bool;
}.

Section Operations.
Context {U : UnicodeData}.

(** [unicodedata.combining(ch)] as a truth value. *)
Definition combining (ch : N) : bool := negb (ccc ch =? 0).

(** Canonical ordering: a mark moves left past every mark of a higher
    class, never past a starter (class 0) nor past an equal class. *)
Fixpoint ccc_insert (c : N) (done : pystr) : pystr :=
  match done with
  | d :: done' =>
      if (0 <? ccc c) && (ccc c <? ccc d) then d :: ccc_insert c done'
      else c :: done
  | [] => [c]
  end.

(** [done] holds the reordered prefix, last code point first. *)
Fixpoint canonical_order_from (done : pystr) (s : pystr) : pystr :=
  match s with
  | [] => reverse done
  | c :: rest => canonical_order_from (ccc_insert c done) rest
  end.

Definition canonical_order (s : pystr) : pystr := canonical_order_from [] s.

(** [unicodedata.normalize("NFKD", s)] *)
Definition nfkd (s : pystr) : pystr :=
  canonical_order (flat_map compat_decomp s).

(** The first code point of [s] that is not case-ignorable. *)
Fixpoint skip_case_ignorable (s : pystr) : option N :=
  match s with
  | [] => None
  | c :: rest => if is_case_ignorable c then skip_case_ignorable rest else Some c
  end.

(** [handle_capital_sigma]: U+03A3 lowers to the final form U+03C2 when a
    cased letter precedes it and none follows, case-ignorable code points
    skipped on both sides. [before] is the text before it, nearest first. *)
Definition handle_capital_sigma (before after : pystr) : N :=
  match skip_case_ignorable before with
  | Some c =>
      if is_cased c then
        match skip_case_ignorable after with
        | Some c' => if is_cased c' then 0x3C3 else 0x3C2
        | None => 0x3C2
        end
      else 0x3C3
  | None => 0x3C3
  end.

Fixpoint lower_from (before : pystr) (s : pystr) : pystr :=
  match s with
  | [] => []
  | c :: rest =>
      (if c =? 0x3A3 then [handle_capital_sigma before rest]
       else to_lower_full c) ++ lower_from (c :: before) rest
  end.

(** [s.lower()] *)
Definition lower (s : pystr) : pystr := lower_from [] s.

End Operations.
End Unicode.
Export Unicode.

(** [re.sub(r"\s+", " ", s)]: each maximal run of whitespace becomes one
    space. [in_run] tells that the run's space is already written. *)
Fixpoint sub_ws_from (in_run : bool) (s : pystr) : pystr :=
  match s with
  | [] => []
  | c :: rest =>
      if is_space c then
        if in_run then sub_ws_from true rest else 0x20 :: sub_ws_from true rest
      else c :: sub_ws_from false rest
  end.

Definition re_sub_ws (s : pystr) : pystr := sub_ws_from false s.

(** ** Text Normalizer *)

Section Normalizer.
Context {U : UnicodeData}.

Definition normalize_text (value : pystr) : pystr :=
  match value with
  | [] => []
  | _ =>
      let value := nfkd value in
      let value := List.filter (fun ch => negb (combining ch)) value in
      let value := strip (lower value) in
      re_sub_ws value
  end.

Definition normalize_key (title artist : pystr) : pystr * pystr :=
  (normalize_text title, normalize_text artist).

End Normalizer.

(** ** Rows of the Unicode Character Database (version 14)

    [ucd_latin] carries the database rows of U+0000..U+00FF, of the
    combining diacritical marks U+0300..U+036F and of U+03A3, U+03BC,
    U+03C2, U+03C3, U+2044 and U+FB01. Every other code point is given the
    row of an uncased starter without decomposition; evaluations under
    [ucd_latin] are about the program only on text inside the listed rows. *)

Module Latin.

Definition assoc {A} (tbl : list (N * A)) (c : N) : option A :=
  snd <$> List.find (fun e => fst e =? c) tbl.

Definition in_range (lo hi c : N) : bool := (lo <=? c) && (c <=? hi).

Definition compat_table : list (N * pystr) :=
  [(0xA0, [0x20]); (0xA8, [0x20; 0x308]); (0xAA, [0x61]);
   (0xAF, [0x20; 0x304]); (0xB2, [0x32]); (0xB3, [0x33]);
   (0xB4, [0x20; 0x301]); (0xB5, [0x3BC]); (0xB8, [0x20; 0x327]);
   (0xB9, [0x31]); (0xBA, [0x6F]); (0xBC, [0x31; 0x2044; 0x34]);
   (0xBD, [0x31; 0x2044; 0x32]); (0xBE, [0x33; 0x2044; 0x34]);
   (0xC0, [0x41; 0x300]); (0xC1, [0x41; 0x301]); (0xC2, [0x41; 0x302]);
   (0xC3, [0x41; 0x303]); (0xC4, [0x41; 0x308]); (0xC5, [0x41; 0x30A]);
   (0xC7, [0x43; 0x327]); (0xC8, [0x45; 0x300]); (0xC9, [0x45; 0x301]);
   (0xCA, [0x45; 0x302]); (0xCB, [0x45; 0x308]); (0xCC, [0x49; 0x300]);
   (0xCD, [0x49; 0x301]); (0xCE, [0x49; 0x302]); (0xCF, [0x49; 0x308]);
   (0xD1, [0x4E; 0x303]); (0xD2, [0x4F; 0x300]); (0xD3, [0x4F; 0x301]);
   (0xD4, [0x4F; 0x302]); (0xD5, [0x4F; 0x303]); (0xD6, [0x4F; 0x308]);
   (0xD9, [0x55; 0x300]); (0xDA, [0x55; 0x301]); (0xDB, [0x55; 0x302]);
   (0xDC, [0x55; 0x308]); (0xDD, [0x59; 0x301]); (0xE0, [0x61; 0x300]);
   (0xE1, [0x61; 0x301]); (0xE2, [0x61; 0x302]); (0xE3, [0x61; 0x303]);
   (0xE4, [0x61; 0x308]); (0xE5, [0x61; 0x30A]); (0xE7, [0x63; 0x327]);
   (0xE8, [0x65; 0x300]); (0xE9, [0x65; 0x301]); (0xEA, [0x65; 0x302]);
   (0xEB, [0x65; 0x308]); (0xEC, [0x69; 0x300]); (0xED, [0x69; 0x301]);
   (0xEE, [0x69; 0x302]); (0xEF, [0x69; 0x308]); (0xF1, [0x6E; 0x303]);
   (0xF2, [0x6F; 0x300]); (0xF3, [0x6F; 0x301]); (0xF4, [0x6F; 0x302]);
   (0xF5, [0x6F; 0x303]); (0xF6, [0x6F; 0x308]); (0xF9, [0x75; 0x300]);
   (0xFA, [0x75; 0x301]); (0xFB, [0x75; 0x302]); (0xFC, [0x75; 0x308]);
   (0xFD, [0x79; 0x301]); (0xFF, [0x79; 0x308]); (0xFB01, [0x66; 0x69])].

(** Of these rows the canonical ones are the accented letters
    U+00C0..U+00FF; the others are compatibility mappings only. *)
Definition canon_table : list (N * pystr) :=
  List.filter (fun e => in_range 0xC0 0xFF (fst e)) compat_table.

(** Combining classes of U+0300..U+036F: first, last, class. *)
Definition ccc_table : list (N * N * N) :=
  [(0x300, 0x314, 230); (0x315, 0x315, 232); (0x316, 0x319, 220);
   (0x31A, 0x31A, 232); (0x31B, 0x31B, 216); (0x31C, 0x320, 220);
   (0x321, 0x322, 202); (0x323, 0x326, 220); (0x327, 0x328, 202);
   (0x329, 0x333, 220); (0x334, 0x338, 1); (0x339, 0x33C, 220);
   (0x33D, 0x344, 230); (0x345, 0x345, 240); (0x346, 0x346, 230);
   (0x347, 0x349, 220); (0x34A, 0x34C, 230); (0x34D, 0x34E, 220);
   (0x34F, 0x34F, 0); (0x350, 0x352, 230); (0x353, 0x356, 220);
   (0x357, 0x357, 230); (0x358, 0x358, 232); (0x359, 0x35A, 220);
   (0x35B, 0x35B, 230); (0x35C, 0x35C, 233); (0x35D, 0x35E, 234);
   (0x35F, 0x35F, 233); (0x360, 0x361, 234); (0x362, 0x362, 233);
   (0x363, 0x36F, 230)].

Definition decomp_of (tbl : list (N * pystr)) (c : N) : pystr :=
  default [c] (assoc tbl c).

Definition ccc_of (c : N) : N :=
  match List.find (fun r => in_range (fst (fst r)) (snd (fst r)) c) ccc_table with
  | Some r => snd r
  | None => 0
  end.

Definition is_upper (c : N) : bool :=
  in_range 0x41 0x5A c || (in_range 0xC0 0xDE c && negb (c =? 0xD7)).

Definition lower_of (c : N) : pystr :=
  if is_upper c then [c + 32] else if c =? 0x3A3 then [0x3C3] else [c].

Definition cased_of (c : N) : bool :=
  in_range 0x41 0x5A c || in_range 0x61 0x7A c
  || (c =? 0xAA) || (c =? 0xB5) || (c =? 0xBA)
  || (in_range 0xC0 0xFF c && negb (c =? 0xD7) && negb (c =? 0xF7))
  || (c =? 0x3A3) || (c =? 0x3BC) || (c =? 0x3C2) || (c =? 0x3C3)
  || (c =? 0xFB01).

Definition case_ignorable_of (c : N) : bool :=
  (c =? 0x27) || (c =? 0x2E) || (c =? 0x3A) || (c =? 0x5E) || (c =? 0x60)
  || (c =? 0xA8) || (c =? 0xAD) || (c =? 0xAF) || (c =? 0xB4)
  || (c =? 0xB7) || (c =? 0xB8) || in_range 0x300 0x36F c.

(** The combining marks (general categories Mn, Mc and Me) of the listed
    rows: U+0300..U+036F, all of category Mn. One of them, the combining
    grapheme joiner U+034F, has combining class 0. *)
Definition mark_of (c : N) : bool := in_range 0x300 0x36F c.

End Latin.

Definition ucd_latin : UnicodeData := {|
  compat_decomp := Latin.decomp_of Latin.compat_table;
  canon_decomp := Latin.decomp_of Latin.canon_table;
  ccc := Latin.ccc_of;
  to_lower_full := Latin.lower_of;
  is_cased := Latin.cased_of;
  is_case_ignorable := Latin.case_ignorable_of;
|}.

(** ** Exceptions *)

Inductive exn : Type :=
  | UnicodeDecodeError
  (** [_csv.Error: field larger than field limit (131072)] *)
  | CsvFieldLimit
  (** [_csv.Error: new-line character seen in unquoted field] *)
  | CsvNewlineInField.

Inductive result (A : Type) : Type :=
  | Ok (a : A)
  | Raise (e : exn).
Arguments Ok {A} a.
Arguments Raise {A} e.

Definition result_bind {A B} (f : A -> result B) (m : result A) : result B :=
  match m with
  | Ok a => f a
  | Raise e => Raise e
  end.

Definition result_map {A B} (f : A -> B) (m : result A) : result B :=
  result_bind (fun a => Ok (f a)) m.

#[export] Instance result_mbind : MBind result := @result_bind.
#[export] Instance result_fmap : FMap result := @result_map.

(** ** Codecs: [bytes.decode] *)

Module Codecs.

Import Latin (in_range).

Inductive errors := Strict | Replace.

(** What the error handler does with one undecodable subsequence; [k] is
    the decoding of what follows it. *)
Definition handle (h : errors) (k : result pystr) : result pystr :=
  match h with
  | Strict => Raise UnicodeDecodeError
  | Replace => cons 0xFFFD <$> k
  end.

Definition is_cont (b : N) : bool := in_range 0x80 0xBF b.

(** The second byte of a three-byte sequence: no overlong form after E0,
    no surrogate after ED. *)
Definition second_of_3 (b0 b1 : N) : bool :=
  if b0 =? 0xE0 then in_range 0xA0 0xBF b1
  else if b0 =? 0xED then in_range 0x80 0x9F b1
  else is_cont b1.

(** The second byte of a four-byte sequence: no overlong form after F0,
    nothing above U+10FFFF after F4. *)
Definition second_of_4 (b0 b1 : N) : bool :=
  if b0 =? 0xF0 then in_range 0x90 0xBF b1
  else if b0 =? 0xF4 then in_range 0x80 0x8F b1
  else is_cont b1.

Definition low6 (b : N) : N := b - 0x80.

(** [raw.decode("utf-8", errors=h)]. An ill-formed sequence is handed to
    the error handler up to its last well-formed byte. *)
Fixpoint utf8_decode (h : errors) (raw : list N) : result pystr :=
  match raw with
  | [] => Ok []
  | b0 :: r1 =>
      if b0 <? 0x80 then cons b0 <$> utf8_decode h r1
      else if in_range 0xC2 0xDF b0 then
        match r1 with
        | b1 :: r2 =>
            if is_cont b1
            then cons ((b0 - 0xC0) * 0x40 + low6 b1) <$> utf8_decode h r2
            else handle h (utf8_decode h r1)
        | [] => handle h (Ok [])
        end
      else if in_range 0xE0 0xEF b0 then
        match r1 with
        | b1 :: r2 =>
            if second_of_3 b0 b1 then
              match r2 with
              | b2 :: r3 =>
                  if is_cont b2
                  then cons ((b0 - 0xE0) * 0x1000 + low6 b1 * 0x40 + low6 b2)
                         <$> utf8_decode h r3
                  else handle h (utf8_decode h r2)
              | [] => handle h (Ok [])
              end
            else handle h (utf8_decode h r1)
        | [] => handle h (Ok [])
        end
      else if in_range 0xF0 0xF4 b0 then
        match r1 with
        | b1 :: r2 =>
            if second_of_4 b0 b1 then
              match r2 with
              | b2 :: r3 =>
                  if is_cont b2 then
                    match r3 with
                    | b3 :: r4 =>
                        if is_cont b3
                        then cons ((b0 - 0xF0) * 0x40000 + low6 b1 * 0x1000
                                   + low6 b2 * 0x40 + low6 b3)
                               <$> utf8_decode h r4
                        else handle h (utf8_decode h r3)
                    | [] => handle h (Ok [])
                    end
                  else handle h (utf8_decode h r2)
              | [] => handle h (Ok [])
              end
            else handle h (utf8_decode h r1)
        | [] => handle h (Ok [])
        end
      else handle h (utf8_decode h r1)
  end.

(** [raw.decode("utf-8-sig")]: a leading byte-order mark EF BB BF is
    dropped. *)
Definition utf8_sig_decode (raw : list N) : result pystr :=
  match raw with
  | 0xEF :: 0xBB :: 0xBF :: rest => utf8_decode Strict rest
  | _ => utf8_decode Strict raw
  end.

(** The 16-bit code units of [raw]; a trailing odd byte is an error. *)
Fixpoint utf16_units (big_endian : bool) (raw : list N) : result (list N) :=
  match raw with
  | [] => Ok []
  | [_] => Raise UnicodeDecodeError
  | b0 :: b1 :: rest =>
      cons (if big_endian then b0 * 0x100 + b1 else b1 * 0x100 + b0)
        <$> utf16_units big_endian rest
  end.

(** Surrogate pairs are joined; a surrogate on its own is an error. *)
Fixpoint utf16_join (units : list N) : result pystr :=
  match units with
  | [] => Ok []
  | u :: rest =>
      if in_range 0xD800 0xDBFF u then
        match rest with
        | l :: rest' =>
            if in_range 0xDC00 0xDFFF l
            then cons (0x10000 + (u - 0xD800) * 0x400 + (l - 0xDC00))
                   <$> utf16_join rest'
            else Raise UnicodeDecodeError
        | [] => Raise UnicodeDecodeError
        end
      else if in_range 0xDC00 0xDFFF u then Raise UnicodeDecodeError
      else cons u <$> utf16_join rest
  end.

(** [raw.decode("utf-16")]: a byte-order mark selects the byte order and is
    dropped; without one the host's order is used, which is little-endian
    on the platforms the service runs on. *)
Definition utf16_decode (raw : list N) : result pystr :=
  match raw with
  | 0xFF :: 0xFE :: rest => utf16_units false rest ≫= utf16_join
  | 0xFE :: 0xFF :: rest => utf16_units true rest ≫= utf16_join
  | _ => utf16_units false raw ≫= utf16_join
  end.

(** [raw.decode("latin-1")] *)
Definition latin1_decode (raw : list N) : result pystr := Ok raw.

End Codecs.

(** ** Upload decoding *)

Inductive encoding := utf_16 | utf_8_sig | utf_8 | latin_1.

(** [raw.decode(enc)] *)
Definition bytes_decode (enc : encoding) (raw : list Byte.byte) : result pystr :=
  let raw := List.map Byte.to_N raw in
  match enc with
  | utf_16 => Codecs.utf16_decode raw
  | utf_8_sig => Codecs.utf8_sig_decode raw
  | utf_8 => Codecs.utf8_decode Codecs.Strict raw
  | latin_1 => Codecs.latin1_decode raw
  end.

(** The [for enc in encodings] loop: the first encoding that does not raise
    [UnicodeDecodeError] returns. *)
Fixpoint decode_first (encodings : list encoding) (raw : list Byte.byte)
  : option pystr :=
  match encodings with
  | [] => None
  | enc :: rest =>
      match bytes_decode enc raw with
      | Ok text => Some text
      | Raise _ => decode_first rest raw
      end
  end.

Definition decode_uploaded_bytes (raw : list Byte.byte) : result pystr :=
  let encodings := [utf_16; utf_8_sig; utf_8; latin_1] in
  match decode_first encodings raw with
  | Some text => Ok text
  | None => Codecs.utf8_decode Codecs.Replace (List.map Byte.to_N raw)
  end.

(** ** The [csv] reader

    The state machine of [_csv.reader] for the dialect the parser uses:
    [excel] with the sniffed delimiter, that is the double quote as quote
    character, doubled inside quoted fields, no escape character, no strict mode. The three
    escape states of the C source need an escape character and are left
    out. *)

Module Csv.

Inductive ParserState :=
  | START_RECORD | START_FIELD | IN_FIELD | IN_QUOTED_FIELD
  | QUOTE_IN_QUOTED_FIELD | EAT_CRNL.

#[export] Instance ParserState_eq_dec : EqDecision ParserState.
Proof. solve_decision. Defined.

Record Reader := {
  state : ParserState;
  (** the fields of the current record, last first *)
  fields : list pystr;
  (** the current field, last code point first, and its length *)
  field : pystr;
  field_len : N;
}.

(** [csv.field_size_limit()], never changed by the service. *)
Definition field_limit : N := 131072.

Definition quotechar : N := 0x22.

Definition parse_reset : Reader :=
  {| state := START_RECORD; fields := []; field := []; field_len := 0 |}.

Definition set_state (s : ParserState) (r : Reader) : Reader :=
  {| state := s; fields := fields r; field := field r;
     field_len := field_len r |}.

Definition parse_add_char (r : Reader) (c : N) : result Reader :=
  if field_limit <=? field_len r then Raise CsvFieldLimit
  else Ok {| state := state r; fields := fields r; field := c :: field r;
             field_len := field_len r + 1 |}.

Definition parse_save_field (r : Reader) : Reader :=
  {| state := state r; fields := reverse (field r) :: fields r; field := [];
     field_len := 0 |}.

Definition is_newline (c : N) : bool := (c =? 0xA) || (c =? 0xD).

(** [parse_process_char]; [None] is the end-of-line marker [EOL]. *)
Definition parse_process_char (delimiter : N) (r : Reader) (c : option N)
  : result Reader :=
  let end_of_field (r : Reader) : result Reader :=
    Ok (set_state (if c is None then START_RECORD else EAT_CRNL)
          (parse_save_field r)) in
  let start_field (r : Reader) : result Reader :=
    match c with
    | None => end_of_field r
    | Some ch =>
        if is_newline ch then end_of_field r
        else if ch =? quotechar then Ok (set_state IN_QUOTED_FIELD r)
        else if ch =? delimiter then Ok (parse_save_field r)
        else set_state IN_FIELD <$> parse_add_char r ch
    end in
  match state r with
  | START_RECORD =>
      match c with
      | None => Ok r
      | Some ch =>
          if is_newline ch then Ok (set_state EAT_CRNL r)
          else start_field (set_state START_FIELD r)
      end
  | START_FIELD => start_field r
  | IN_FIELD =>
      match c with
      | None => end_of_field r
      | Some ch =>
          if is_newline ch then end_of_field r
          else if ch =? delimiter
          then Ok (set_state START_FIELD (parse_save_field r))
          else parse_add_char r ch
      end
  | IN_QUOTED_FIELD =>
      match c with
      | None => Ok r
      | Some ch =>
          if ch =? quotechar then Ok (set_state QUOTE_IN_QUOTED_FIELD r)
          else parse_add_char r ch
      end
  | QUOTE_IN_QUOTED_FIELD =>
      match c with
      | None => end_of_field r
      | Some ch =>
          if ch =? quotechar
          then set_state IN_QUOTED_FIELD <$> parse_add_char r ch
          else if ch =? delimiter
          then Ok (set_state START_FIELD (parse_save_field r))
          else if is_newline ch then end_of_field r
          else set_state IN_FIELD <$> parse_add_char r ch
      end
  | EAT_CRNL =>
      match c with
      | None => Ok (set_state START_RECORD r)
      | Some ch => if is_newline ch then Ok r else Raise CsvNewlineInField
      end
  end.

(** One line of input, code point by code point, then [EOL]. *)
Fixpoint process_line (delimiter : N) (r : Reader) (line : pystr)
  : result Reader :=
  match line with
  | [] => parse_process_char delimiter r None
  | c :: rest =>
      r' ← parse_process_char delimiter r (Some c);
      process_line delimiter r' rest
  end.

(** The lines [io.StringIO(text, newline='')] yields: split after LF, CR LF
    or CR, the line end kept. [cur] is the current line, reversed. *)
Fixpoint stringio_lines_from (cur : pystr) (text : pystr) : list pystr :=
  match text with
  | [] => match cur with [] => [] | _ => [reverse cur] end
  | c :: rest =>
      if c =? 0xA then reverse (c :: cur) :: stringio_lines_from [] rest
      else if c =? 0xD then
        match rest with
        | c' :: rest' =>
            if c' =? 0xA
            then reverse (c' :: c :: cur) :: stringio_lines_from [] rest'
            else reverse (c :: cur) :: stringio_lines_from [] rest
        | [] => [reverse (c :: cur)]
        end
      else stringio_lines_from (c :: cur) rest
  end.

Definition stringio_lines (text : pystr) : list pystr :=
  stringio_lines_from [] text.

(** What iterating a reader to its end yields: the records, then either
    [StopIteration] ([None]) or the exception that ended it. [r] is the
    parser in the middle of [Reader_iternext]'s loop over lines; a record
    is complete when a line ends in [START_RECORD], and the end of input
    closes a record that is still open. *)
Fixpoint reader_from (delimiter : N) (r : Reader) (lines : list pystr)
  : list (list pystr) * option exn :=
  match lines with
  | [] =>
      if negb (field_len r =? 0) || bool_decide (state r = IN_QUOTED_FIELD)
      then ([reverse (fields (parse_save_field r))], None)
      else ([], None)
  | line :: rest =>
      match process_line delimiter r line with
      | Raise e => ([], Some e)
      | Ok r' =>
          if bool_decide (state r' = START_RECORD) then
            let '(rows, ending) := reader_from delimiter parse_reset rest in
            (reverse (fields r') :: rows, ending)
          else reader_from delimiter r' rest
      end
  end.

(** [csv.reader(io.StringIO(text, newline=''), delimiter=delimiter)] *)
Definition reader (text : pystr) (delimiter : N)
  : list (list pystr) * option exn :=
  reader_from delimiter parse_reset (stringio_lines text).

(** The shape of the lines the reader is fed. *)
Definition line_shape (line : pystr) : Prop :=
  exists body term,
    line = body ++ term
    /\ Forall (fun c => is_newline c = false) body
    /\ Forall (fun c => is_newline c = true) term.

End Csv.

(** ** The [csv] reader without the field limit

    The records the reader gives when no field is too long for it: the
    same state machine, stepped with the length counter at zero, so that
    [parse_add_char] never refuses a character. It serves to say which
    fields the reader comes to. *)

Module CsvUnlimited.
Import Csv.

Definition uncounted (r : Reader) : Reader :=
  {| state := state r; fields := fields r; field := field r; field_len := 0 |}.

Definition process_char (delimiter : N) (r : Reader) (c : option N)
  : result Reader :=
  parse_process_char delimiter (uncounted r) c.

Fixpoint process_line (delimiter : N) (r : Reader) (line : pystr)
  : result Reader :=
  match line with
  | [] => process_char delimiter r None
  | c :: rest =>
      r' ← process_char delimiter r (Some c);
      process_line delimiter r' rest
  end.

(** As [reader_from], with the current field itself in the place of its
    length counter. The step raises only on a character after a line end
    inside a line, which the lines of a text do not have. *)
Fixpoint records_from (delimiter : N) (r : Reader) (lines : list pystr)
  : list (list pystr) :=
  match lines with
  | [] =>
      if negb (bool_decide (field r = []))
         || bool_decide (state r = IN_QUOTED_FIELD)
      then [reverse (fields (parse_save_field r))]
      else []
  | line :: rest =>
      match process_line delimiter r line with
      | Raise _ => []
      | Ok r' =>
          if bool_decide (state r' = START_RECORD)
          then reverse (fields r') :: records_from delimiter parse_reset rest
          else records_from delimiter r' rest
      end
  end.

Definition records (text : pystr) (delimiter : N) : list (list pystr) :=
  records_from delimiter parse_reset (stringio_lines text).

(** A record with a field of more characters than the limit allows. *)
Definition too_long (record : list pystr) : bool :=
  existsb (fun f => field_limit <? N.of_nat (length f)) record.

(** Invariants of the two readers run side by side. A field is [long]
    when it has more characters than the limit allows; the reader with the
    limit is [within] it; the reader without it is [over] it once the
    record it is reading has a long field. *)
Definition long (f : pystr) : Prop := field_limit < N.of_nat (length f).

Definition within (r : Reader) : Prop :=
  field_len r = N.of_nat (length (field r))
  /\ field_len r <= field_limit
  /\ Forall (fun f => ~ long f) (fields r).

Definition over (u : Reader) : Prop :=
  Exists long (fields u)
  \/ (long (field u) /\ state u <> START_RECORD /\ state u <> EAT_CRNL).

End CsvUnlimited.

(** ** [csv.DictReader] *)

Module DictReader.

(** A row [dict]: header name to field, [None] being the [restval] of a
    row shorter than the header. The list of surplus fields stored under
    the key [None] is not a [str] key and is never looked up. *)
Abbreviation row := (gmap pystr (option pystr)).

(** The [fieldnames] property: the first record of the reader, [None] when
    the reader is exhausted at once. *)
Definition fieldnames (rd : list (list pystr) * option exn)
  : result (option (list pystr)) :=
  match rd with
  | (names :: _, _) => Ok (Some names)
  | ([], None) => Ok None
  | ([], Some e) => Raise e
  end.

(** [dict(zip(fieldnames, row))], then [restval] for the names the row does
    not reach. Later duplicates of a name overwrite earlier ones. *)
Definition row_dict (names : list pystr) (fields : list pystr) : row :=
  let d := fold_left (fun d kv => <[kv.1 := Some kv.2]> d)
             (zip names fields) (∅ : row) in
  fold_left (fun d key => <[key := None]> d) (drop (length fields) names) d.

(** The rows [for row in reader] sees after the header: empty records are
    skipped; the ending is the reader's. *)
Definition rows (rd : list (list pystr) * option exn)
  : list row * option exn :=
  match rd with
  | (names :: records, ending) =>
      (row_dict names <$> List.filter (fun r => negb (bool_decide (r = []))) records,
       ending)
  | ([], ending) => ([], ending)
  end.

End DictReader.

(** ** Import Parser *)

Record Track := { title : pystr; artist : pystr }.

(** [x or ''] for [x] a string or [None]. *)
Definition or_empty (x : option pystr) : pystr := default [] x.

(** The truth value of a string or [None]. *)
Definition truthy (x : option pystr) : bool :=
  match x with
  | Some (_ :: _) => true
  | _ => false
  end.

(** [c in s] for a single character [c]. *)
Definition char_in (c : N) (s : pystr) : bool := existsb (N.eqb c) s.

(** [Some rest] when [s] is [prefix] followed by [rest]. *)
Fixpoint strip_prefix (prefix s : pystr) : option pystr :=
  match prefix, s with
  | [], _ => Some s
  | p :: prefix', c :: s' => if p =? c then strip_prefix prefix' s' else None
  | _ :: _, [] => None
  end.

(** [sep in s] together with [s.split(sep, 1)]: the text before and after
    the first occurrence of [sep], [None] when [sep] does not occur. *)
Fixpoint split_once (sep s : pystr) : option (pystr * pystr) :=
  match strip_prefix sep s with
  | Some rest => Some ([], rest)
  | None =>
      match s with
      | [] => None
      | c :: s' => prod_map (cons c) id <$> split_once sep s'
      end
  end.

Section Parser.
Context {U : UnicodeData}.

(** The dict comprehension over [reader.fieldnames]: normalised header
    name, byte-order marks removed, to header name. *)
Definition normalized_fields (names : list pystr) : gmap pystr pystr :=
  fold_left
    (fun d name =>
       <[normalize_text
           (strip (List.filter (fun c => negb (c =? 0xFEFF)) name)) := name]> d)
    names ∅.

(** The local function [field]. *)
Fixpoint field (fields : gmap pystr pystr) (candidates : list pystr)
  : option pystr :=
  match candidates with
  | [] => None
  | c :: rest =>
      match fields !! normalize_text c with
      | Some name => Some name
      | None => field fields rest
      end
  end.

(** The body of [for row in reader]. *)
Definition row_track (title_field : pystr) (artist_field : option pystr)
    (row : DictReader.row) : option Track :=
  let title := strip (or_empty (mjoin (row !! title_field))) in
  let artist :=
    if truthy artist_field
    then strip (or_empty (artist_field ≫= fun f => mjoin (row !! f)))
    else [] in
  match title with
  | [] => None
  | _ => Some {| title := title; artist := artist |}
  end.

(** The body of the fallback loop over [lines]. *)
Definition line_track (line : pystr) : option Track :=
  let clean := strip line in
  match clean with
  | [] => None
  | _ =>
      match split_once (py " - ") clean with
      | Some (artist, title) =>
          Some {| title := strip title; artist := strip artist |}
      | None => Some {| title := clean; artist := [] |}
      end
  end.

Definition parse_apple_playlist_text (raw_text : pystr)
  : result (list Track) :=
  let lines :=
    List.filter (fun line => truthy (Some (strip line))) (splitlines raw_text) in
  match lines with
  | [] => Ok []
  | first_line :: _ =>
      let delimiter :=
        if char_in 0x9 first_line then 0x9
        else if char_in 0x3B first_line then 0x3B
        else 0x2C in
      let reader := Csv.reader raw_text delimiter in
      fieldnames ← DictReader.fieldnames reader;
      match fieldnames with
      | None | Some [] => Ok []
      | Some fieldnames =>
          let fields := normalized_fields fieldnames in
          let title_field :=
            field fields
              [py "name"; py "title"; py "track name"; py "nome"; py "titolo"] in
          let artist_field :=
            field fields [py "artist"; py "artist name"; py "artista"] in
          if negb (truthy title_field) then Ok []
          else
            let '(rows, ending) := DictReader.rows reader in
            match ending with
            | Some e => Raise e
            | None =>
                let parsed :=
                  omap (row_track (or_empty title_field) artist_field) rows in
                match parsed with
                | [] => Ok (omap line_track lines)
                | _ => Ok parsed
                end
            end
      end
  end.

End Parser.

(** The Import Parser of the specification: the first two steps of the
    [upload] handler, decoding followed by parsing. *)
Definition import_tracks {U : UnicodeData} (raw : list Byte.byte)
  : result (list Track) :=
  text ← decode_uploaded_bytes raw;
  parse_apple_playlist_text text.

(** Three values the parser computes on its way, named for the statements
    below: the list [lines], the [delimiter] it reads off the first line,
    and the candidates of [title_field]. *)
Definition nonblank_lines (raw_text : pystr) : list pystr :=
  List.filter (fun line => truthy (Some (strip line))) (splitlines raw_text).

Definition sniffed_delimiter (first_line : pystr) : N :=
  if char_in 0x9 first_line then 0x9
  else if char_in 0x3B first_line then 0x3B
  else 0x2C.

Definition title_candidates : list pystr :=
  [py "name"; py "title"; py "track name"; py "nome"; py "titolo"].

(** Whether the parser, reading [text], comes to a field that is too long
    for the csv reader: the text has a non-blank line, and such a field is
    in the header record, or in any record when the header has a title
    column (without one the parser stops after the header). The csv
    records are those of the reader without the limit. *)
Definition reads_too_long_field {U : UnicodeData} (text : pystr) : bool :=
  match nonblank_lines text with
  | [] => false
  | first_line :: _ =>
      match CsvUnlimited.records text (sniffed_delimiter first_line) with
      | [] => false
      | names :: rows =>
          CsvUnlimited.too_long names
          || (truthy (field (normalized_fields names) title_candidates)
              && existsb CsvUnlimited.too_long rows)
      end
  end.

(** ** The remote playlist *)

Module Plex.

(** A playlist item as [plexapi] presents it. The text attributes are
    [None] when the server did not send them. [ratingKey] names the track
    in the library, [playlistItemID] the slot in the playlist. *)
Record Item := {
  title : option pystr;
  grandparentTitle : option pystr;
  originalTitle : option pystr;
  ratingKey : Z;
  playlistItemID : Z;
}.

#[export] Instance Item_eq_dec : EqDecision Item.
Proof. solve_decision. Defined.

(** [getattr(item, 'grandparentTitle', '') or
     getattr(item, 'originalTitle', '') or ''] *)
Definition artist (item : Item) : pystr :=
  if truthy (grandparentTitle item) then or_empty (grandparentTitle item)
  else or_empty (originalTitle item).

End Plex.

(** ** Reconciliation Matcher *)

Record Plan := {
  matches : nat;
  missing_in_plex : list Track;
  new_order_ids : list Z;
  new_order_titles : list (option pystr * pystr);
  current_count : nat;
}.

(** [d.setdefault(key, []).append(item)] *)
Definition setdefault_append `{Countable K} (key : K) (item : Plex.Item)
    (d : gmap K (list Plex.Item)) : gmap K (list Plex.Item) :=
  <[key := default [] (d !! key) ++ [item]]> d.

(** The state of the loop over [imported_tracks]. *)
Record Matching := {
  used_rating_keys : gset Z;
  selected : list Plex.Item;
  missing : list Track;
}.

(** [for cand in bucket: if cand.ratingKey not in used: picked = cand; break] *)
Definition first_unused (used : gset Z) (bucket : list Plex.Item)
  : option Plex.Item :=
  List.find (fun cand => bool_decide (Plex.ratingKey cand ∉ used)) bucket.

Section Matcher.
Context {U : UnicodeData}.

Definition item_key (item : Plex.Item) : pystr * pystr :=
  normalize_key (or_empty (Plex.title item)) (Plex.artist item).

Definition index_by_title_artist (plex_items : list Plex.Item)
  : gmap (pystr * pystr) (list Plex.Item) :=
  fold_left (fun d item => setdefault_append (item_key item) item d)
    plex_items ∅.

Definition index_by_title (plex_items : list Plex.Item)
  : gmap pystr (list Plex.Item) :=
  fold_left
    (fun d item =>
       setdefault_append (normalize_text (or_empty (Plex.title item))) item d)
    plex_items ∅.

(** The candidate picked for one imported track: the exact bucket first,
    the title bucket when that gives nothing. *)
Definition pick (by_title_artist : gmap (pystr * pystr) (list Plex.Item))
    (by_title : gmap pystr (list Plex.Item)) (used : gset Z) (track : Track)
  : option Plex.Item :=
  let exact_bucket :=
    default [] (by_title_artist !! normalize_key (title track) (artist track)) in
  match first_unused used exact_bucket with
  | Some picked => Some picked
  | None =>
      let title_bucket := default [] (by_title !! normalize_text (title track)) in
      first_unused used title_bucket
  end.

(** One turn of [for track in imported_tracks]. *)
Definition match_track (by_title_artist : gmap (pystr * pystr) (list Plex.Item))
    (by_title : gmap pystr (list Plex.Item)) (m : Matching) (track : Track)
  : Matching :=
  match pick by_title_artist by_title (used_rating_keys m) track with
  | Some picked =>
      {| used_rating_keys := used_rating_keys m ∪ {[Plex.ratingKey picked]};
         selected := selected m ++ [picked];
         missing := missing m |}
  | None =>
      {| used_rating_keys := used_rating_keys m;
         selected := selected m;
         missing := missing m ++ [track] |}
  end.

Definition match_all (plex_items : list Plex.Item)
    (imported_tracks : list Track) : Matching :=
  fold_left
    (match_track (index_by_title_artist plex_items) (index_by_title plex_items))
    imported_tracks
    {| used_rating_keys := ∅; selected := []; missing := [] |}.

(** [playlist.items()] is the argument [plex_items]. *)
Definition build_reorder_plan (plex_items : list Plex.Item)
    (imported_tracks : list Track) : Plan :=
  match plex_items with
  | [] =>
      {| matches := 0; missing_in_plex := imported_tracks;
         new_order_ids := []; new_order_titles := []; current_count := 0 |}
  | _ =>
      let m := match_all plex_items imported_tracks in
      let trailing :=
        List.filter
          (fun item => bool_decide (Plex.ratingKey item ∉ used_rating_keys m))
          plex_items in
      let desired := selected m ++ trailing in
      {| matches := length (selected m);
         missing_in_plex := missing m;
         new_order_ids := Plex.playlistItemID <$> desired;
         new_order_titles :=
           (fun item => (Plex.title item, Plex.artist item)) <$> desired;
         current_count := length plex_items |}
  end.

(** An item and an imported record with the same normalised title. *)
Definition same_title (item : Plex.Item) (track : Track) : Prop :=
  normalize_text (or_empty (Plex.title item)) = normalize_text (title track).

(** The items of the plan's order, before their identifiers are taken. *)
Definition desired (items : list Plex.Item) (tracks : list Track)
  : list Plex.Item :=
  let m := match_all items tracks in
  selected m ++
    List.filter
      (fun item => bool_decide (Plex.ratingKey item ∉ used_rating_keys m)) items.

(** What the loop over the imported tracks maintains; [n] counts the
    tracks seen so far. *)
Record matching_inv (items : list Plex.Item) (n : nat) (m : Matching) : Prop := {
  inv_count : (length (selected m) + length (missing m) = n)%nat;
  inv_selected : Forall (fun i => i ∈ items) (selected m);
  inv_nodup : NoDup (Plex.ratingKey <$> selected m);
  inv_used : forall k, k ∈ used_rating_keys m <-> k ∈ Plex.ratingKey <$> selected m;
}.

End Matcher.

(** ** Reorder Applicator *)

(** The two calls the loop makes: [playlist.moveItem(item)], which moves
    [item] to the head of the playlist, and
    [playlist.moveItem(item, after=previous)]. *)
Inductive MoveCall :=
  | moveItem (item : Plex.Item)
  | moveItem_after (item : Plex.Item) (after : Plex.Item).

(** The dict comprehension [{item.playlistItemID: item for item in ...}]. *)
Definition items_by_id (plex_items : list Plex.Item) : gmap Z Plex.Item :=
  fold_left (fun d item => <[Plex.playlistItemID item := item]> d)
    plex_items ∅.

(** The state of the move loop: the cursor and the calls made so far. *)
Record Mover := {
  previous : option Plex.Item;
  calls : list MoveCall;
}.

(** One turn of [for item_id in ordered_ids]. *)
Definition move_step (playlist_items : gmap Z Plex.Item) (m : Mover)
    (item_id : Z) : Mover :=
  match playlist_items !! item_id with
  | None => m
  | Some item =>
      {| previous := Some item;
         calls :=
           calls m ++
             [match previous m with
              | None => moveItem item
              | Some previous => moveItem_after item previous
              end] |}
  end.

Definition move_loop (playlist_items : gmap Z Plex.Item)
    (ordered_ids : list Z) : Mover :=
  fold_left (move_step playlist_items) ordered_ids
    {| previous := None; calls := [] |}.

(** ** The handlers and the two caches *)

Module App.

(** [OAUTH_CACHE] values; the login object is not modelled. Clock readings
    are seconds on the integer line. *)
Record OAuthSession := { created_at : Z }.

Record State := {
  UPLOAD_CACHE : gmap pystr (list Track);
  OAUTH_CACHE : gmap pystr OAuthSession;
}.

Definition OAUTH_SESSION_TTL_SEC : Z := (10 * 60)%Z.

Definition cleanup_oauth_sessions (now : Z) (s : State) : State :=
  let expired :=
    (List.filter
       (fun kv => bool_decide (now - created_at kv.2 > OAUTH_SESSION_TTL_SEC)%Z)
       (map_to_list (OAUTH_CACHE s))).*1 in
  {| UPLOAD_CACHE := UPLOAD_CACHE s;
     OAUTH_CACHE := fold_left (fun d sid => delete sid d) expired (OAUTH_CACHE s) |}.

(** What the Plex server answers to [plex.fetchItem(int(playlist_id))]:
    any exception of the [try] block, [NotFound], or the playlist. *)
Inductive Fetched :=
  | FetchRaises
  | FetchNotFound
  | FetchPlaylist (smart : bool) (items : list Plex.Item).

Inductive Request :=
  (** POST /api/upload: the uploaded file's name and content, and the
      [uuid4] drawn for it. *)
  | Upload (file : option (pystr * list Byte.byte)) (uuid : pystr)
  (** POST /api/preview *)
  | Preview (uploadId playlistId : option pystr) (fetched : Fetched)
  (** POST /api/reorder *)
  | Reorder (uploadId playlistId : option pystr) (confirm : bool)
      (fetched : Fetched)
  (** POST /api/auth/plex/start at clock reading [now] *)
  | AuthStart (now : Z) (uuid : pystr)
  (** GET /api/auth/plex/status at clock reading [now]; [logged_in] is what
      [pinlogin.checkLogin()] answers. *)
  | AuthStatus (now : Z) (sessionId : option pystr) (logged_in : bool)
  (** GET /health, GET /, GET /api/playlists *)
  | Stateless.

Inductive Response :=
  | Error (status : nat) (message : string)
  | Uploaded (uploadId : pystr) (tracks : nat) (sample : list Track)
  | Previewed (plan : Plan)
  | Reordered (plan : Plan) (moves : list MoveCall)
  | AuthStarted (sessionId : pystr)
  | AuthChecked (loggedIn : bool)
  | Page.

Section Handlers.
Context {U : UnicodeData}.

Definition upload (file : option (pystr * list Byte.byte)) (uuid : pystr)
    (s : State) : State * Response :=
  match file with
  | Some (_ :: _, raw) =>
      match decode_uploaded_bytes raw with
      | Raise _ => (s, Error 500 "exception")
      | Ok text =>
          match parse_apple_playlist_text text with
          | Raise _ => (s, Error 400 "Apple Music file parsing error")
          | Ok [] =>
              (s, Error 400
                    "Unsupported format. Use Apple Music export (TXT/CSV) with Name/Artist columns or 'Artist - Title' rows.")
          | Ok parsed =>
              ({| UPLOAD_CACHE := <[uuid := parsed]> (UPLOAD_CACHE s);
                  OAUTH_CACHE := OAUTH_CACHE s |},
               Uploaded uuid (length parsed) (take 10 parsed))
          end
      end
  | _ => (s, Error 400 "Missing file")
  end.

(** The checks [preview] and [reorder] share, then [k] on the cached
    tracks and the fetched items. *)
Definition with_upload (uploadId playlistId : option pystr)
    (fetched : Fetched) (s : State)
    (k : list Track -> list Plex.Item -> Response) : Response :=
  let upload_id := strip (or_empty uploadId) in
  let playlist_id := strip (or_empty playlistId) in
  match upload_id, UPLOAD_CACHE s !! upload_id with
  | _ :: _, Some tracks =>
      match playlist_id with
      | [] => Error 400 "Missing playlistId"
      | _ =>
          match fetched with
          | FetchRaises => Error 400 "exception"
          | FetchNotFound => Error 404 "Playlist not found"
          | FetchPlaylist true _ =>
              Error 400 "Selected Plex playlist is smart and cannot be manually reordered"
          | FetchPlaylist false items => k tracks items
          end
      end
  | _, _ => Error 400 "Upload not found or expired"
  end.

Definition preview (uploadId playlistId : option pystr) (fetched : Fetched)
    (s : State) : Response :=
  with_upload uploadId playlistId fetched s
    (fun tracks items => Previewed (build_reorder_plan items tracks)).

(** The handler reads [playlist.items()] a second time to build the map
    of live items; here both readings are the fetched [items]. What the
    loop does under any live map is [move_loop]. *)
Definition reorder (uploadId playlistId : option pystr) (confirm : bool)
    (fetched : Fetched) (s : State) : Response :=
  if negb confirm then Error 400 "Confirmation required"
  else
    with_upload uploadId playlistId fetched s
      (fun tracks items =>
         let plan := build_reorder_plan items tracks in
         let ordered_ids := new_order_ids plan in
         Reordered plan (calls (move_loop (items_by_id items) ordered_ids))).

Definition plex_auth_start (now : Z) (uuid : pystr) (s : State)
  : State * Response :=
  let s := cleanup_oauth_sessions now s in
  ({| UPLOAD_CACHE := UPLOAD_CACHE s;
      OAUTH_CACHE := <[uuid := {| created_at := now |}]> (OAUTH_CACHE s) |},
   AuthStarted uuid).

Definition plex_auth_status (now : Z) (sessionId : option pystr)
    (logged_in : bool) (s : State) : State * Response :=
  let s := cleanup_oauth_sessions now s in
  let session_id := strip (or_empty sessionId) in
  match session_id, OAUTH_CACHE s !! session_id with
  | _ :: _, Some _ =>
      if logged_in then
        ({| UPLOAD_CACHE := UPLOAD_CACHE s;
            OAUTH_CACHE := delete session_id (OAUTH_CACHE s) |},
         AuthChecked true)
      else (s, AuthChecked false)
  | _, _ => (s, Error 400 "OAuth session not found or expired")
  end.

Definition handle (s : State) (rq : Request) : State * Response :=
  match rq with
  | Upload file uuid => upload file uuid s
  | Preview uploadId playlistId fetched =>
      (s, preview uploadId playlistId fetched s)
  | Reorder uploadId playlistId confirm fetched =>
      (s, reorder uploadId playlistId confirm fetched s)
  | AuthStart now uuid => plex_auth_start now uuid s
  | AuthStatus now sessionId logged_in =>
      plex_auth_status now sessionId logged_in s
  | Stateless => (s, Page)
  end.

(** The server after a sequence of requests. *)
Definition run (s : State) (rqs : list Request) : State :=
  fold_left (fun s rq => (handle s rq).1) rqs s.

End Handlers.
End App.

(** ** Reference definitions, written after the specification

    These follow the wording of the specification and are compared with
    the definitions above. *)

Section Reference.
Context {U : UnicodeData}.

(** Step 6 of the normaliser: every run of whitespace becomes one space.
    Inside a run each whitespace character but the last vanishes, and the
    last one is the space that stands for the run. *)
Fixpoint collapse_runs (s : pystr) : pystr :=
  match s with
  | [] => []
  | c :: rest =>
      if is_space c then
        match rest with
        | c' :: _ => if is_space c' then collapse_runs rest
                     else 0x20 :: collapse_runs rest
        | [] => [0x20]
        end
      else c :: collapse_runs rest
  end.

(** The normaliser's algorithm, steps 1 to 6, for a given decomposition
    mapping (step 2) and a given set of characters to drop (step 3):
    decompose every character, drop the characters of [mark], lower-case,
    trim, collapse. The specification has the canonical decomposition and
    the combining marks here. *)
Definition normalize_reference (decompose : N -> pystr) (mark : N -> bool)
    (text : pystr) : pystr :=
  match text with
  | [] => []
  | _ =>
      let decomposed := flat_map decompose text in
      let unmarked := List.filter (fun c => negb (mark c)) decomposed in
      collapse_runs (strip (lower unmarked))
  end.

End Reference.

(** The applicator's algorithm: the first resolved item goes to the head,
    each later one right after the item resolved before it. *)
Fixpoint moves_following (previous : Plex.Item) (resolved : list Plex.Item)
  : list MoveCall :=
  match resolved with
  | [] => []
  | item :: rest => moveItem_after item previous :: moves_following item rest
  end.

Definition moves_of (resolved : list Plex.Item) : list MoveCall :=
  match resolved with
  | [] => []
  | first :: rest => moveItem first :: moves_following first rest
  end.

(** The identifiers of [targetOrder] that the live map resolves, in order;
    the others are skipped. *)
Definition resolve (live : gmap Z Plex.Item) (targetOrder : list Z)
  : list Plex.Item :=
  omap (fun item_id => live !! item_id) targetOrder.

(** ** Facts of the database that the normaliser relies on *)

Section Settled.
Context {U : UnicodeData}.

(** A code point that normalisation leaves alone: a starter without
    decomposition that is its own lower case. *)
Definition settled (c : N) : Prop :=
  compat_decomp c = [c] /\ ccc c = 0 /\ to_lower_full c = [c] /\ c <> 0x3A3.

#[export] Instance settled_dec c : Decision (settled c).
Proof. unfold settled. apply _. Defined.

End Settled.

(** Lower-casing a decomposed starter gives settled code points, and so
    do the two lower-case sigmas and the space. These are properties of
    the database, not of the program; they hold of every code point of
    version 14.0. *)
Class UnicodeLaws (U : UnicodeData) : Prop := {
  lowered_settled c d e :
    d ∈ compat_decomp c -> ccc d = 0 -> d <> 0x3A3 -> e ∈ to_lower_full d ->
    settled e;
  sigma_settled : settled 0x3C3 /\ settled 0x3C2;
  space_settled : settled 0x20;
}.

(** Two databases have the same row for [c]. *)
Definition rows_agree (U V : UnicodeData) (c : N) : Prop :=
  compat_decomp (UnicodeData := U) c = compat_decomp (UnicodeData := V) c
  /\ ccc (UnicodeData := U) c = ccc (UnicodeData := V) c
  /\ to_lower_full (UnicodeData := U) c = to_lower_full (UnicodeData := V) c
  /\ is_cased (UnicodeData := U) c = is_cased (UnicodeData := V) c
  /\ is_case_ignorable (UnicodeData := U) c
     = is_case_ignorable (UnicodeData := V) c.

(** The checks by which the rows of [ucd_latin] are shown to satisfy the
    laws. *)
Module LatinCheck.
Import Latin.

Definition settled_latin (e : N) : bool :=
  bool_decide (settled (U := ucd_latin) e).

Definition lowered_ok (d : N) : bool :=
  implb ((ccc_of d =? 0) && negb (d =? 0x3A3))
    (forallb settled_latin (lower_of d)).

End LatinCheck.

(** ** Worked inputs *)

Module Examples.

Definition yesterday : Track :=
  {| title := py "Yesterday"; artist := py "The Beatles" |}.

(** The same library track in two slots of one playlist. *)
Definition slot (id : Z) : Plex.Item :=
  {| Plex.title := Some (py "Yesterday");
     Plex.grandparentTitle := Some (py "The Beatles");
     Plex.originalTitle := None;
     Plex.ratingKey := 5; Plex.playlistItemID := id |}.

Definition hallelujah (artist : string) (key id : Z) : Plex.Item :=
  {| Plex.title := Some (py "Hallelujah");
     Plex.grandparentTitle := Some (py artist);
     Plex.originalTitle := None;
     Plex.ratingKey := key; Plex.playlistItemID := id |}.

(** A playlist of three slots and an import of two records. *)
Definition playlist : list Plex.Item :=
  [hallelujah "Jeff Buckley" 7 1; slot 2; hallelujah "Leonard Cohen" 8 3].

Definition imported : list Track :=
  [yesterday; {| title := py "Hallelujah"; artist := py "Leonard Cohen" |}].

End Examples.

Module CacheExample.

Definition file : list Byte.byte :=
  list_byte_of_string "Name" ++ [Byte.x0a]
  ++ list_byte_of_string "Yesterday" ++ [Byte.x0a].

Definition id : pystr := py "3f0c".

Definition start : App.State :=
  {| App.UPLOAD_CACHE := ∅; App.OAUTH_CACHE := ∅ |}.

(** The server after the upload. *)
Definition stored : App.State :=
  (App.handle (U := ucd_latin) start
     (App.Upload (Some (py "list.txt", file)) id)).1.

(** Eleven days later: a sign-in, whose handler runs the OAuth clean-up,
    and two page loads. *)
Definition later : list App.Request :=
  [App.AuthStart 1000000 (py "a1"); App.Stateless;
   App.AuthStatus 1000700 (Some (py "a1")) false].

End CacheExample.

Module ImportExamples.

(** A file of [n] letters a. *)
Definition letters (n : N) : list Byte.byte :=
  N.iter n (cons Byte.x61) [].

Definition table : list Byte.byte :=
  list_byte_of_string "Name;Artist" ++ [Byte.x0a]
  ++ list_byte_of_string "Yesterday;The Beatles" ++ [Byte.x0a]
  ++ list_byte_of_string " ;Nobody" ++ [Byte.x0a]
  ++ list_byte_of_string "Help!" ++ [Byte.x0a].

Definition plain_line : list Byte.byte :=
  list_byte_of_string "The Beatles - Yesterday".

(** A header line and [n] rows of two letters: short fields in a long
    file. *)
Definition long_table (n : N) : list Byte.byte :=
  list_byte_of_string "Name" ++ [Byte.x0a]
  ++ N.iter n (fun rows => Byte.x61 :: Byte.x62 :: Byte.x0a :: rows) [].

End ImportExamples.

(** ** Export files

    How an exporter writes a text as UTF-16, little-endian with a
    byte-order mark (the format of the Apple Music text export); used to
    state what the decoder gives back. *)

Module ExportFile.

Definition byte_of (n : N) : Byte.byte := default Byte.x00 (Byte.of_N n).

(** A Unicode scalar value: a code point that is not a surrogate. *)
Definition scalar (c : N) : bool :=
  (c <? 0x110000) && negb (Latin.in_range 0xD800 0xDFFF c).

Definition utf16_units_of (c : N) : list N :=
  if c <? 0x10000 then [c]
  else [0xD800 + (c - 0x10000) / 0x400; 0xDC00 + (c - 0x10000) mod 0x400].

Definition le_bytes_of (unit : N) : list Byte.byte :=
  [byte_of (unit mod 0x100); byte_of (unit / 0x100)].

Definition utf16_le_bom (text : pystr) : list Byte.byte :=
  [Byte.xff; Byte.xfe] ++ flat_map le_bytes_of (flat_map utf16_units_of text).

(** Plain ASCII bytes. *)
Definition ascii (raw : list Byte.byte) : Prop :=
  Forall (fun b => Byte.to_N b < 0x80) raw.

End ExportFile.

(** ** The playlist on the server

    What the two calls of [MoveCall] do to the playlist the Plex server
    holds. [Playlist.moveItem] of plexapi turns each of its arguments into
    a slot with [_getPlaylistItemID]: the [playlistItemID] of the first
    item of [playlist.items()], the list the handler fetched, that has the
    argument's [ratingKey]. The server then takes that slot out of the
    playlist and puts it back at the head, or right after the slot of
    [after]. The result is [None] when [_getPlaylistItemID] raises
    [NotFound], and when the request names a slot the playlist does not
    hold or asks for a slot to be put after itself: what the server does
    then is not modelled. *)

Module Server.

#[export] Existing Instance Plex.Item_eq_dec.

Definition getPlaylistItemID (fetched : list Plex.Item) (item : Plex.Item)
  : option Z :=
  Plex.playlistItemID
    <$> List.find
          (fun i => bool_decide (Plex.ratingKey i = Plex.ratingKey item))
          fetched.

(** The item in the slot [id]. *)
Definition slot (id : Z) (playlist : list Plex.Item) : option Plex.Item :=
  List.find (fun i => bool_decide (Plex.playlistItemID i = id)) playlist.

Definition take_out (id : Z) (playlist : list Plex.Item) : list Plex.Item :=
  List.filter (fun i => negb (bool_decide (Plex.playlistItemID i = id))) playlist.

Fixpoint put_after (after : Z) (item : Plex.Item) (playlist : list Plex.Item)
  : option (list Plex.Item) :=
  match playlist with
  | [] => None
  | i :: rest =>
      if bool_decide (Plex.playlistItemID i = after) then Some (i :: item :: rest)
      else cons i <$> put_after after item rest
  end.

Definition move (fetched playlist : list Plex.Item) (call : MoveCall)
  : option (list Plex.Item) :=
  match call with
  | moveItem item =>
      match getPlaylistItemID fetched item with
      | Some id =>
          match slot id playlist with
          | Some moved => Some (moved :: take_out id playlist)
          | None => None
          end
      | None => None
      end
  | moveItem_after item after =>
      match getPlaylistItemID fetched item,
            getPlaylistItemID fetched after with
      | Some id, Some after_id =>
          match slot id playlist with
          | Some moved => put_after after_id moved (take_out id playlist)
          | None => None
          end
      | _, _ => None
      end
  end.

(** The items of [playlist] that are not among [moved], in playlist
    order. *)
Definition others (moved playlist : list Plex.Item) : list Plex.Item :=
  List.filter (fun i => negb (bool_decide (i ∈ moved))) playlist.

(** The calls of a move loop, one after the other. *)
Fixpoint moves (fetched playlist : list Plex.Item) (calls : list MoveCall)
  : option (list Plex.Item) :=
  match calls with
  | [] => Some playlist
  | call :: rest =>
      match move fetched playlist call with
      | Some playlist' => moves fetched playlist' rest
      | None => None
      end
  end.

End Server.

(** ** The playlist listing

    [resolve_request_token], [plex_client] and the [playlists] handler.
    [list.sort(key=...)] is a stable sort, ascending under [<] on the
    keys; on strings [<] compares code points, lexicographically. *)

Module Playlist.

(** A playlist as the server lists it. [smart] is the truth value of
    [getattr(p, "smart", False)]; a missing [playlistType] or [title] is
    [None]. *)
Record t := {
  smart : bool;
  playlistType : option pystr;
  ratingKey : Z;
  title : option pystr;
  leafCount : Z;
}.

End Playlist.

Module Listing.

(** [a < b] on [str]. *)
Fixpoint str_lt (a b : pystr) : bool :=
  match a, b with
  | _, [] => false
  | [], _ :: _ => true
  | x :: a, y :: b => (x <? y) || ((x =? y) && str_lt a b)
  end.

Section Sort.
Context {A : Type} (key : A -> pystr).

(** Stable insertion: [x], which came before the elements of [l], goes
    before the first of them whose key is not smaller. *)
Fixpoint insert_sorted (x : A) (l : list A) : list A :=
  match l with
  | [] => [x]
  | y :: l' =>
      if str_lt (key y) (key x) then y :: insert_sorted x l' else x :: l
  end.

Definition sort : list A -> list A := foldr insert_sorted [].

End Sort.

(** The entries of the answer: [{"id": ..., "title": ..., "count": ...}]. *)
Record Entry := { id : Z; title : option pystr; count : Z }.

Inductive Answer :=
  | Failed (status : nat) (message : string)
  | Listed (playlists : list Entry).

Definition resolve_request_token (header : option pystr) : pystr :=
  strip (or_empty header).

(** [None] is the [RuntimeError]; otherwise the arguments given to
    [PlexServer]. *)
Definition plex_client (env_baseurl token_override : option pystr)
  : option (pystr * pystr) :=
  let baseurl := strip (or_empty env_baseurl) in
  let token := strip (or_empty token_override) in
  match baseurl, token with
  | _ :: _, _ :: _ => Some (baseurl, token)
  | _, _ => None
  end.

Definition kept (p : Playlist.t) : bool :=
  negb (Playlist.smart p)
  && bool_decide (Playlist.playlistType p = Some (py "audio")).

Definition entry_of (p : Playlist.t) : Entry :=
  {| id := Playlist.ratingKey p; title := Playlist.title p;
     count := Playlist.leafCount p |}.

Section Handler.
Context {U : UnicodeData}.

(** [x["title"].lower()]; on [None] the call raises. *)
Definition sort_key (x : Entry) : pystr := Unicode.lower (or_empty (title x)).

(** [server baseurl token] is what [PlexServer(...).playlists()] answers,
    [None] when either call raises. *)
Definition playlists (env_baseurl header : option pystr)
    (server : pystr -> pystr -> option (list Playlist.t)) : Answer :=
  match plex_client env_baseurl (Some (resolve_request_token header)) with
  | None => Failed 400 "Missing PLEX_BASEURL or Plex OAuth token"
  | Some (baseurl, token) =>
      match server baseurl token with
      | None => Failed 400 "exception"
      | Some ps =>
          let items := entry_of <$> List.filter kept ps in
          if forallb (fun x => bool_decide (is_Some (title x))) items
          then Listed (sort sort_key items)
          else Failed 400 "exception"
      end
  end.

End Handler.
End Listing.

Module ListingExample.

Definition playlist (smart : bool) (type title : string) (key count : Z)
  : Playlist.t :=
  {| Playlist.smart := smart; Playlist.playlistType := Some (py type);
     Playlist.ratingKey := key; Playlist.title := Some (py title);
     Playlist.leafCount := count |}.

(** Two audio playlists named alike, a smart one and a video one. *)
Definition library : list Playlist.t :=
  [ playlist false "audio" "Road" 11 12;
    playlist true "audio" "Auto mix" 12 40;
    playlist false "video" "Films" 13 3;
    playlist false "audio" "Chill" 14 7;
    playlist false "audio" "ROAD" 15 5 ].

(** The same library with an audio playlist that has no title. *)
Definition untitled : Playlist.t :=
  {| Playlist.smart := false; Playlist.playlistType := Some (py "audio");
     Playlist.ratingKey := 16; Playlist.title := None;
     Playlist.leafCount := 0 |}.

Definition server (ps : list Playlist.t)
  : pystr -> pystr -> option (list Playlist.t) :=
  fun _ _ => Some ps.

Definition entry (title : string) (key count : Z) : Listing.Entry :=
  {| Listing.id := key; Listing.title := Some (py title);
     Listing.count := count |}.

Definition listed : list Listing.Entry :=
  [entry "Chill" 14 7; entry "Road" 11 12; entry "ROAD" 15 5].

End ListingExample.

(** ** The upload cache, as [preview] and [reorder] need it

    Every cached upload is a non-empty list of records with non-blank
    titles. *)
Definition uploads_usable (s : App.State) : Prop :=
  forall id tracks, App.UPLOAD_CACHE s !! id = Some tracks ->
    tracks <> [] /\ Forall (fun t => strip (title t) <> []) tracks.

(** * Properties *)

(** ** Reconciliation Matcher *)

Section MatcherFacts.
Context {U : UnicodeData}.

Lemma setdefault_append_lookup `{Countable K} (k k' : K) item
    (d : gmap K (list Plex.Item)) :
  default [] (setdefault_append k item d !! k')
  = default [] (d !! k') ++ (if decide (k = k') then [item] else []).
Proof.
  unfold setdefault_append. destruct (decide (k = k')) as [->|Hne].
  - by rewrite lookup_insert_eq.
  - rewrite lookup_insert_ne by done. by rewrite app_nil_r.
Qed.

(** A bucket holds the items with its key, in playlist order. *)
Lemma index_fold_lookup `{Countable K} (key : Plex.Item -> K) items
    (d : gmap K (list Plex.Item)) k :
  default []
    (fold_left (fun d item => setdefault_append (key item) item d) items d !! k)
  = default [] (d !! k) ++ List.filter (fun i => bool_decide (key i = k)) items.
Proof.
  revert d. induction items as [|i items IH]; intros d; simpl.
  - by rewrite app_nil_r.
  - rewrite IH, setdefault_append_lookup.
    destruct (decide (key i = k)) as [Heq|Hne].
    + rewrite bool_decide_eq_true_2 by done. by rewrite <- app_assoc.
    + rewrite bool_decide_eq_false_2 by done. by rewrite app_nil_r.
Qed.

Lemma index_by_title_artist_lookup items k :
  default [] (index_by_title_artist items !! k)
  = List.filter (fun i => bool_decide (item_key i = k)) items.
Proof. unfold index_by_title_artist. by rewrite index_fold_lookup. Qed.

Lemma index_by_title_lookup items k :
  default [] (index_by_title items !! k)
  = List.filter
      (fun i => bool_decide (normalize_text (or_empty (Plex.title i)) = k))
      items.
Proof. unfold index_by_title. by rewrite index_fold_lookup. Qed.

Lemma first_unused_spec used bucket picked :
  first_unused used bucket = Some picked ->
  picked ∈ bucket /\ Plex.ratingKey picked ∉ used.
Proof.
  unfold first_unused. intros Hfind. apply find_some in Hfind as [Hin Hok].
  split; [by apply list_elem_of_In | by apply bool_decide_eq_true in Hok].
Qed.

(** Whatever is picked is an item of the playlist whose rating key is not
    yet used. *)
Lemma pick_spec items used track picked :
  pick (index_by_title_artist items) (index_by_title items) used track
    = Some picked ->
  picked ∈ items /\ Plex.ratingKey picked ∉ used.
Proof.
  unfold pick. rewrite index_by_title_artist_lookup, index_by_title_lookup.
  intros Hpick.
  assert (exists f, picked ∈ List.filter f items /\ Plex.ratingKey picked ∉ used)
    as (f & Hin & Hused).
  { destruct (first_unused used (List.filter _ items)) as [p|] eqn:Hexact.
    - injection Hpick as ->. eexists. by apply first_unused_spec.
    - eexists. by apply first_unused_spec. }
  split; [|done].
  apply list_elem_of_In in Hin. apply filter_In in Hin as [Hin _].
  by apply list_elem_of_In.
Qed.

Lemma match_track_inv items n m track :
  matching_inv items n m ->
  matching_inv items (S n)
    (match_track (index_by_title_artist items) (index_by_title items) m track).
Proof.
  intros [Hcount Hsel Hnodup Hused]. unfold match_track.
  destruct (pick _ _ _ _) as [picked|] eqn:Hpick.
  - apply pick_spec in Hpick as [Hin Hfresh]. split; simpl.
    + rewrite length_app. simpl. lia.
    + apply Forall_app. split; [done | by constructor].
    + rewrite fmap_app. simpl. apply NoDup_app. split; [done|].
      split; [| apply NoDup_singleton].
      intros k Hk ->%list_elem_of_singleton. by apply Hfresh, Hused.
    + intros k. rewrite fmap_app, elem_of_union, elem_of_app, Hused. simpl.
      by rewrite elem_of_singleton, list_elem_of_singleton.
  - split; simpl; [| done..].
    rewrite length_app. simpl. lia.
Qed.

Lemma match_fold_inv items tracks n m :
  matching_inv items n m ->
  matching_inv items (n + length tracks)
    (fold_left
       (match_track (index_by_title_artist items) (index_by_title items))
       tracks m).
Proof.
  revert n m. induction tracks as [|track tracks IH]; intros n m Hinv; simpl.
  - by rewrite Nat.add_0_r.
  - replace (n + S (length tracks))%nat with (S n + length tracks)%nat by lia.
    by apply IH, match_track_inv.
Qed.

Lemma match_all_inv items tracks :
  matching_inv items (length tracks) (match_all items tracks).
Proof.
  apply (match_fold_inv items tracks 0). split; simpl.
  - done.
  - constructor.
  - constructor.
  - intros k. set_solver.
Qed.

Lemma find_filter {A} (f g : A -> bool) l :
  List.find f (List.filter g l) = List.find (fun x => g x && f x) l.
Proof.
  induction l as [|a l IH]; simpl; [done|].
  destruct (g a); simpl; [|done]. by rewrite IH.
Qed.

Lemma find_app_skip {A} (f : A -> bool) before x after :
  (forall z, z ∈ before -> f z = false) -> f x = true ->
  List.find f (before ++ x :: after) = Some x.
Proof.
  intros Hbefore Hx. induction before as [|b before IH]; simpl.
  - by rewrite Hx.
  - rewrite (Hbefore b) by left. apply IH. intros z Hz. apply Hbefore. by right.
Qed.

(** The first element that satisfies [f]. *)
Lemma find_split {A} (f : A -> bool) l x :
  x ∈ l -> f x = true ->
  exists before p after,
    l = before ++ p :: after /\ f p = true
    /\ forall z, z ∈ before -> f z = false.
Proof.
  intros Hx Hfx. induction l as [|a l IH]; [by apply elem_of_nil in Hx|].
  destruct (f a) eqn:Hfa.
  - exists [], a, l. split; [done|]. split; [done|].
    by intros z ?%elem_of_nil.
  - apply elem_of_cons in Hx as [->|Hx]; [congruence|].
    destruct (IH Hx) as (before & p & after & -> & Hp & Hbefore).
    exists (a :: before), p, after. split; [done|]. split; [done|].
    intros z [->|Hz]%elem_of_cons; [done | by apply Hbefore].
Qed.

Lemma NoDup_fmap_inj {A B} (f : A -> B) l x y :
  NoDup (f <$> l) -> x ∈ l -> y ∈ l -> f x = f y -> x = y.
Proof.
  induction l as [|a l IH]; simpl; intros Hnd Hx Hy Hf.
  - by apply elem_of_nil in Hx.
  - apply NoDup_cons in Hnd as [Ha Hnd].
    apply elem_of_cons in Hx as [->|Hx]; apply elem_of_cons in Hy as [->|Hy].
    + done.
    + destruct Ha. rewrite Hf. by apply list_elem_of_fmap_2.
    + destruct Ha. rewrite <- Hf. by apply list_elem_of_fmap_2.
    + by apply IH.
Qed.

Lemma filter_split {A} (f : A -> bool) l :
  List.filter f l ++ List.filter (fun x => negb (f x)) l ≡ₚ l.
Proof.
  induction l as [|a l IH]; simpl; [done|].
  destruct (f a); simpl.
  - by rewrite IH.
  - by rewrite <- Permutation_middle, IH.
Qed.

Lemma new_order_ids_desired items tracks :
  new_order_ids (build_reorder_plan items tracks)
  = Plex.playlistItemID <$> desired items tracks.
Proof.
  destruct items as [|i items]; [|done]. unfold desired. simpl.
  destruct (match_all_inv [] tracks) as [_ Hsel _ _].
  destruct (selected (match_all [] tracks)) as [|s sel]; [done|].
  apply Forall_cons in Hsel as [Hs _]. by apply elem_of_nil in Hs.
Qed.

Lemma selected_submseteq items tracks :
  selected (match_all items tracks)
  ⊆+ List.filter
       (fun item =>
          negb (bool_decide
                  (Plex.ratingKey item ∉ used_rating_keys (match_all items tracks))))
       items.
Proof.
  destruct (match_all_inv items tracks) as [_ Hsel Hnodup Hused].
  apply NoDup_submseteq.
  - by apply NoDup_fmap_1 in Hnodup.
  - intros x Hx. apply list_elem_of_In, filter_In. split.
    + apply list_elem_of_In. by eapply Forall_forall in Hsel.
    + apply negb_true_iff, bool_decide_eq_false. intros Hfresh.
      apply Hfresh, Hused, list_elem_of_fmap. by exists x.
Qed.

End MatcherFacts.

Section MatcherTheorems.
Context {U : UnicodeData}.

(** The order of a plan never invents or repeats a slot: as a multiset it
    is contained in the playlist. *)
Theorem desired_submseteq items tracks :
  desired items tracks ⊆+ items.
Proof.
  unfold desired. rewrite <- (filter_split
    (fun item => bool_decide
       (Plex.ratingKey item ∉ used_rating_keys (match_all items tracks))) items)
    at 3.
  rewrite (comm (++) (List.filter _ items)).
  apply submseteq_app; [apply selected_submseteq | done].
Qed.

(** X6. When no track occurs twice in the playlist (the rating keys are
    pairwise distinct), the order of the plan is a permutation of the
    playlist's slots. *)
Theorem new_order_permutation items tracks :
  NoDup (Plex.ratingKey <$> items) ->
  new_order_ids (build_reorder_plan items tracks)
  ≡ₚ Plex.playlistItemID <$> items.
Proof.
  intros Hitems. rewrite new_order_ids_desired. apply fmap_Permutation.
  unfold desired. rewrite <- (filter_split
    (fun item => bool_decide
       (Plex.ratingKey item ∉ used_rating_keys (match_all items tracks))) items)
    at 3.
  rewrite (comm (++) (List.filter _ items)).
  apply Permutation_app; [|done].
  destruct (match_all_inv items tracks) as [_ Hsel Hnodup Hused].
  apply NoDup_Permutation.
  - by apply NoDup_fmap_1 in Hnodup.
  - apply NoDup_ListNoDup, List.NoDup_filter, NoDup_ListNoDup.
    by apply NoDup_fmap_1 in Hitems.
  - intros x. split.
    + intros Hx. by apply (elem_of_submseteq _ _ _ Hx), selected_submseteq.
    + intros Hx. apply list_elem_of_In, filter_In in Hx as [Hin Hx].
      apply negb_true_iff, bool_decide_eq_false in Hx.
      apply dec_stable, Hused, list_elem_of_fmap in Hx as (s & Hkey & Hs).
      assert (s ∈ items) as Hsin by by eapply Forall_forall in Hsel.
      apply list_elem_of_In in Hin.
      by rewrite (NoDup_fmap_inj Plex.ratingKey items x s Hitems Hin Hsin Hkey).
Qed.

(** C2. Every imported record is counted exactly once, as matched or as
    missing: the plan's [matches] plus the length of [missing_in_plex] is
    the length of the imported sequence, for every playlist and every
    imported sequence. *)
Theorem matched_plus_missing items imported :
  (matches (build_reorder_plan items imported)
   + length (missing_in_plex (build_reorder_plan items imported))
   = length imported)%nat.
Proof.
  destruct items as [|i items]; simpl; [done|].
  apply (inv_count (i :: items)), match_all_inv.
Qed.

(** C8. An exact match is preferred over a title-only match. Let the
    playlist contain two unconsumed items [x] and [y] with the same
    normalised title and different artists, and let the imported record's
    normalised (title, artist) key be that of [x]. Then the item picked and
    appended to [selected] carries that exact key and is not [y], wherever
    [y] stands in the playlist: it is the first unconsumed item with the
    exact key in playlist order, hence [x] itself when no other unconsumed
    item has that key. *)
Theorem exact_match_preferred items x y m track :
  x ∈ items -> y ∈ items ->
  normalize_text (or_empty (Plex.title x))
    = normalize_text (or_empty (Plex.title y)) ->
  normalize_text (Plex.artist x) <> normalize_text (Plex.artist y) ->
  Plex.ratingKey x ∉ used_rating_keys m ->
  Plex.ratingKey y ∉ used_rating_keys m ->
  item_key x = normalize_key (title track) (artist track) ->
  exists p,
    pick (index_by_title_artist items) (index_by_title items)
      (used_rating_keys m) track = Some p
    /\ selected
         (match_track (index_by_title_artist items) (index_by_title items)
            m track)
       = selected m ++ [p]
    /\ item_key p = item_key x /\ p <> y
    /\ (exists before after,
          items = before ++ p :: after
          /\ forall z, z ∈ before -> item_key z = item_key x ->
                       Plex.ratingKey z ∈ used_rating_keys m)
    /\ ((forall z, z ∈ items -> item_key z = item_key x ->
                   Plex.ratingKey z ∉ used_rating_keys m -> z = x) ->
        p = x).
Proof.
  intros Hx Hy Htitle Hartist Hxfree Hyfree Hkey.
  set (f := fun z : Plex.Item =>
              bool_decide (item_key z = item_key x)
              && bool_decide (Plex.ratingKey z ∉ used_rating_keys m)).
  destruct (find_split f items x Hx) as (before & p & after & -> & Hp & Hbefore).
  { apply andb_true_iff. split; by apply bool_decide_eq_true. }
  apply andb_true_iff in Hp as [Hpkey%bool_decide_eq_true Hpfree%bool_decide_eq_true].
  assert (pick (index_by_title_artist (before ++ p :: after))
            (index_by_title (before ++ p :: after)) (used_rating_keys m) track
          = Some p) as Hpick.
  { unfold pick. rewrite index_by_title_artist_lookup, <- Hkey.
    unfold first_unused. rewrite find_filter.
    rewrite (find_app_skip _ before p after); [done|exact Hbefore|].
    apply andb_true_iff. split; by apply bool_decide_eq_true. }
  exists p. split; [done|]. split; [unfold match_track; by rewrite Hpick|].
  split; [done|]. split.
  { intros ->. apply Hartist. unfold item_key, normalize_key in Hpkey.
    by injection Hpkey. }
  split.
  - exists before, after. split; [done|]. intros z Hz Hzkey.
    specialize (Hbefore z Hz). apply andb_false_iff in Hbefore as [Hne|Hused].
    + by apply bool_decide_eq_false in Hne.
    + apply bool_decide_eq_false in Hused. by apply dec_stable.
  - intros Honly. apply Honly; [|done..].
    apply elem_of_app. right. by left.
Qed.

End MatcherTheorems.

(** C1, at a playlist that holds one track twice. The claim is that the
    order of the plan is a permutation of the playlist's slots. Here the
    playlist has the slots 1 and 2, both with rating key 5; the imported
    record matches slot 1, which marks the rating key used, and the filter
    for [trailing] then drops slot 2 as well: the order is [1] alone. *)
Theorem duplicate_track_dropped :
  new_order_ids
    (build_reorder_plan (U := ucd_latin)
       [Examples.slot 1; Examples.slot 2] [Examples.yesterday]) = [1%Z]
  /\ ~ ([1%Z] ≡ₚ Plex.playlistItemID <$> [Examples.slot 1; Examples.slot 2]).
Proof.
  split; [by vm_compute|].
  intros Hperm. by apply Permutation_length in Hperm.
Qed.

(** The exact candidate wins although the title-only candidate comes first
    in the playlist. *)
Lemma exact_match_preferred_witness :
  let y := Examples.hallelujah "Jeff Buckley" 7 1 in
  let x := Examples.hallelujah "Leonard Cohen" 8 2 in
  let track := {| title := py "Hallelujah"; artist := py "leonard  COHEN" |} in
  exists p,
    pick (U := ucd_latin) (index_by_title_artist (U := ucd_latin) [y; x])
      (index_by_title (U := ucd_latin) [y; x]) ∅ track = Some p
    /\ p = x.
Proof.
  intros y x track.
  destruct (exact_match_preferred (U := ucd_latin) [y; x] x y
              {| used_rating_keys := ∅; selected := []; missing := [] |} track)
    as (p & Hpick & _ & _ & _ & _ & Honly).
  - right. by left.
  - by left.
  - by vm_compute.
  - by vm_compute.
  - apply not_elem_of_empty.
  - apply not_elem_of_empty.
  - by vm_compute.
  - exists p. split; [exact Hpick|]. apply Honly.
    intros z [->|[->|Hz%elem_of_nil]%elem_of_cons]%elem_of_cons Hzkey _;
      [by vm_compute in Hzkey | done | done].
Defined.

(** ** Reorder Applicator *)

Lemma move_fold_calls live ids m :
  calls (fold_left (move_step live) ids m)
  = calls m ++
      match previous m with
      | None => moves_of (resolve live ids)
      | Some p => moves_following p (resolve live ids)
      end
  /\ previous (fold_left (move_step live) ids m)
     = match last (resolve live ids) with
       | Some item => Some item
       | None => previous m
       end.
Proof.
  revert m. induction ids as [|item_id ids IH]; intros m; simpl.
  - destruct (previous m); simpl; by rewrite app_nil_r.
  - unfold resolve in *. simpl. unfold move_step at 2 4.
    destruct (live !! item_id) as [item|] eqn:Hlive; simpl.
    + destruct (IH {| previous := Some item;
                      calls := calls m ++
                        [match previous m with
                         | None => moveItem item
                         | Some p => moveItem_after item p
                         end] |}) as [-> ->].
      simpl. rewrite <- app_assoc. simpl. split.
      * by destruct (previous m).
      * rewrite last_cons. by destruct (last _).
    + apply IH.
Qed.

(** C9. The move loop walks [ordered_ids] from left to right with the
    cursor [previous]: identifiers the live map does not resolve are
    skipped and nothing is raised for them; the first resolved item is
    moved to the head of the playlist; every later resolved item is moved
    right after the item resolved before it; and the cursor ends on the
    last resolved item. That is, the calls made are exactly [moves_of] of
    the resolved items. *)
Theorem reorder_moves (live : gmap Z Plex.Item) (ordered_ids : list Z) :
  calls (move_loop live ordered_ids) = moves_of (resolve live ordered_ids)
  /\ previous (move_loop live ordered_ids) = last (resolve live ordered_ids)
  /\ (forall m item_id, live !! item_id = None -> move_step live m item_id = m).
Proof.
  unfold move_loop.
  destruct (move_fold_calls live ordered_ids {| previous := None; calls := [] |})
    as [-> ->].
  simpl. split; [done|]. split.
  - by destruct (last _).
  - intros m item_id Hnone. unfold move_step. by rewrite Hnone.
Qed.

(** ** The upload cache *)

Section CacheFacts.
Context {U : UnicodeData}.

Lemma cleanup_keeps_uploads now s :
  App.UPLOAD_CACHE (App.cleanup_oauth_sessions now s) = App.UPLOAD_CACHE s.
Proof. done. Qed.

(** No handler removes an upload: a request leaves every cached upload in
    the cache. *)
Lemma handle_keeps_upload s rq (id : pystr) :
  is_Some (App.UPLOAD_CACHE s !! id) ->
  is_Some (App.UPLOAD_CACHE (App.handle s rq).1 !! id).
Proof.
  intros Hid. destruct rq; simpl; try done.
  - unfold App.upload.
    destruct file as [[[|c name] raw]|]; try done.
    destruct (decode_uploaded_bytes raw) as [text|]; try done.
    destruct (parse_apple_playlist_text text) as [[|t parsed]|]; try done.
    simpl. destruct (decide (uuid = id)) as [->|Hne].
    + by rewrite lookup_insert_eq.
    + by rewrite lookup_insert_ne.
  - unfold App.plex_auth_status.
    destruct (strip (or_empty sessionId)) as [|c sid]; try done.
    destruct (App.OAUTH_CACHE _ !! _); try done.
    by destruct logged_in.
Qed.

(** C10, as the code has it. The claim is that an upload expires after a
    bounded time and that a later lookup of its identifier is a miss. In
    the code an entry of [UPLOAD_CACHE], once stored, is there after every
    sequence of requests, whatever the clock reads: the only cache with a
    time-to-live is [OAUTH_CACHE]. *)
Theorem upload_never_expires s (rqs : list App.Request) (id : pystr) :
  is_Some (App.UPLOAD_CACHE s !! id) ->
  is_Some (App.UPLOAD_CACHE (App.run s rqs) !! id).
Proof.
  revert s. induction rqs as [|rq rqs IH]; intros s Hid; simpl; [done|].
  by apply IH, handle_keeps_upload.
Qed.

End CacheFacts.

(** An upload is still served after the clean-up of the other cache has
    run and evicted the session that was started with it. *)
Lemma upload_never_expires_witness :
  is_Some (App.UPLOAD_CACHE
             (App.run (U := ucd_latin) CacheExample.stored CacheExample.later)
           !! CacheExample.id)
  /\ App.OAUTH_CACHE
       (App.run (U := ucd_latin) CacheExample.stored CacheExample.later)
     !! py "a1" = None.
Proof.
  split.
  - apply (upload_never_expires (U := ucd_latin)).
    vm_compute. eexists. reflexivity.
  - vm_compute. reflexivity.
Defined.

(** ** Strings: [strip] and the whitespace substitution *)

Section StringFacts.

Lemma lstrip_head s c : head (lstrip s) = Some c -> is_space c = false.
Proof.
  induction s as [|a s IH]; simpl; [done|].
  destruct (is_space a) eqn:Ha; [done|]. simpl. by intros [= <-].
Qed.

Lemma lstrip_id s :
  (forall c, head s = Some c -> is_space c = false) -> lstrip s = s.
Proof. destruct s as [|a s]; simpl; [done|]. intros H. by rewrite (H a). Qed.

(** [lstrip] removes a prefix of whitespace. *)
Lemma lstrip_split s :
  exists pre, s = pre ++ lstrip s /\ Forall (fun c => is_space c = true) pre.
Proof.
  induction s as [|a s (pre & Hs & Hpre)]; simpl.
  - by exists [].
  - destruct (is_space a) eqn:Ha.
    + exists (a :: pre). split; [simpl; by f_equal | by constructor].
    + by exists [].
Qed.

(** [rstrip] removes a suffix of whitespace. *)
Lemma rstrip_split s :
  exists suf, s = rstrip s ++ suf /\ Forall (fun c => is_space c = true) suf.
Proof.
  destruct (lstrip_split (reverse s)) as (pre & Hs & Hpre).
  exists (reverse pre). split.
  - unfold rstrip. rewrite <- reverse_app, <- Hs. by rewrite reverse_involutive.
  - rewrite Forall_forall in Hpre. apply Forall_forall.
    intros c Hc. rewrite elem_of_reverse in Hc. by apply Hpre.
Qed.

Lemma rstrip_last s c : last (rstrip s) = Some c -> is_space c = false.
Proof. unfold rstrip. rewrite last_reverse. apply lstrip_head. Qed.

Lemma rstrip_id s :
  (forall c, last s = Some c -> is_space c = false) -> rstrip s = s.
Proof.
  intros H. unfold rstrip. rewrite lstrip_id; [apply reverse_involutive|].
  intros c. rewrite head_reverse. apply H.
Qed.

Lemma rstrip_head s c : head (rstrip s) = Some c -> head s = Some c.
Proof.
  destruct (rstrip_split s) as (suf & Hs & _). rewrite Hs at 2.
  destruct (rstrip s); [done|]. done.
Qed.

Lemma strip_head s c : head (strip s) = Some c -> is_space c = false.
Proof. unfold strip. intros H%rstrip_head. by eapply lstrip_head. Qed.

Lemma strip_last s c : last (strip s) = Some c -> is_space c = false.
Proof. apply rstrip_last. Qed.

Lemma strip_id s :
  (forall c, head s = Some c -> is_space c = false) ->
  (forall c, last s = Some c -> is_space c = false) -> strip s = s.
Proof. intros Hh Hl. unfold strip. rewrite lstrip_id by done. by apply rstrip_id. Qed.

Lemma strip_strip s : strip (strip s) = strip s.
Proof. apply strip_id; [apply strip_head | apply strip_last]. Qed.

(** [strip] takes whitespace off both ends and nothing else. *)
Lemma strip_split s :
  exists pre suf, s = pre ++ strip s ++ suf
    /\ Forall (fun c => is_space c = true) pre
    /\ Forall (fun c => is_space c = true) suf.
Proof.
  destruct (lstrip_split s) as (pre & Hs & Hpre).
  destruct (rstrip_split (lstrip s)) as (suf & Ht & Hsuf).
  exists pre, suf. split; [|done]. unfold strip. by rewrite <- Ht.
Qed.

Lemma strip_elem s c : c ∈ strip s -> c ∈ s.
Proof.
  destruct (strip_split s) as (pre & suf & Hs & _). intros Hc.
  rewrite Hs. rewrite !elem_of_app. auto.
Qed.

(** A string of whitespace strips to nothing, and only such a string. *)
Lemma strip_nil s : strip s = [] <-> Forall (fun c => is_space c = true) s.
Proof.
  split.
  - destruct (strip_split s) as (pre & suf & Hs & Hpre & Hsuf). intros Hnil.
    rewrite Hs, Hnil. simpl. by apply Forall_app.
  - intros Hall. destruct (strip s) as [|c t] eqn:Hstrip; [done|].
    assert (is_space c = false) as Hc by (apply (strip_head s); by rewrite Hstrip).
    assert (c ∈ s) as Hin by (apply strip_elem; rewrite Hstrip; by left).
    rewrite Forall_forall in Hall. apply Hall in Hin. congruence.
Qed.

Lemma sub_ws_elem b s c : c ∈ sub_ws_from b s -> c ∈ s \/ c = 0x20.
Proof.
  revert b. induction s as [|a s IH]; intros b; simpl; [by left|].
  destruct (is_space a); [destruct b|].
  - intros [H| ->]%IH; [left; by right | by right].
  - intros [->|[H| ->]%IH]%elem_of_cons; [by right | left; by right | by right].
  - intros [->|[H| ->]%IH]%elem_of_cons; [left; by left | left; by right | by right].
Qed.

Lemma sub_ws_head b s c :
  head s = Some c -> is_space c = false -> head (sub_ws_from b s) = Some c.
Proof. destruct s as [|a s]; simpl; [done|]. intros [= ->] ->. done. Qed.

Lemma sub_ws_last b s c :
  last s = Some c -> is_space c = false -> last (sub_ws_from b s) = Some c.
Proof.
  revert b. induction s as [|a s IH]; intros b; [done|].
  destruct s as [|a' s].
  - simpl. intros [= ->] ->. done.
  - rewrite last_cons_cons. intros Hlast Hc.
    assert (forall b', last (sub_ws_from b' (a' :: s)) = Some c) as Hrec
      by (intros b'; by apply IH).
    change (sub_ws_from b (a :: a' :: s))
      with (if is_space a
            then if b then sub_ws_from true (a' :: s)
                 else 0x20 :: sub_ws_from true (a' :: s)
            else a :: sub_ws_from false (a' :: s)).
    destruct (is_space a); [destruct b|].
    + apply Hrec.
    + by rewrite last_cons, Hrec.
    + by rewrite last_cons, Hrec.
Qed.

(** The substitution leaves its own output alone. *)
Lemma sub_ws_fixed s :
  sub_ws_from false (sub_ws_from false s) = sub_ws_from false s
  /\ sub_ws_from false (sub_ws_from true s) = sub_ws_from true s
  /\ sub_ws_from true (sub_ws_from true s) = sub_ws_from true s.
Proof.
  assert (is_space 0x20 = true) as Hsp by done.
  induction s as [|a s (IH1 & IH2 & IH3)]; simpl; [done|].
  destruct (is_space a) eqn:Ha; simpl; rewrite ?Hsp, ?Ha; simpl.
  - by rewrite IH3.
  - by rewrite IH1.
Qed.

(** What [normalize_text] returns has its whitespace in order: stripping
    and substituting again change nothing. *)
Lemma tidy_fixed s :
  let y := re_sub_ws (strip s) in strip y = y /\ re_sub_ws y = y.
Proof.
  intros y. split; [|apply sub_ws_fixed].
  subst y. unfold re_sub_ws. destruct (strip s) as [|c t] eqn:Hstrip; [done|].
  assert (is_space c = false) as Hc by (apply (strip_head s); by rewrite Hstrip).
  destruct (last (c :: t)) as [z|] eqn:Hlast; [|by apply last_None in Hlast].
  assert (is_space z = false) as Hz by (apply (strip_last s); by rewrite Hstrip).
  apply strip_id; intros x.
  - by rewrite (sub_ws_head false (c :: t) c) by done; intros [= <-].
  - by rewrite (sub_ws_last false (c :: t) z) by done; intros [= <-].
Qed.

(** The two readings of the collapse agree. *)
Lemma collapse_runs_space c rest :
  is_space c = true ->
  collapse_runs (c :: rest) = 0x20 :: collapse_runs (lstrip rest).
Proof.
  revert c. induction rest as [|c' rest IH]; intros c Hc.
  - simpl. by rewrite Hc.
  - change (collapse_runs (c :: c' :: rest))
      with (if is_space c
            then if is_space c' then collapse_runs (c' :: rest)
                 else 0x20 :: collapse_runs (c' :: rest)
            else c :: collapse_runs (c' :: rest)).
    change (lstrip (c' :: rest))
      with (if is_space c' then lstrip rest else c' :: rest).
    rewrite Hc. destruct (is_space c') eqn:Hc'; [by apply IH | done].
Qed.

Lemma sub_ws_collapse s :
  sub_ws_from false s = collapse_runs s
  /\ sub_ws_from true s = collapse_runs (lstrip s).
Proof.
  induction s as [|c s [IH1 IH2]]; [done|].
  change (lstrip (c :: s)) with (if is_space c then lstrip s else c :: s).
  destruct (is_space c) eqn:Hc.
  - rewrite collapse_runs_space by done. simpl. rewrite Hc. by rewrite IH2.
  - assert (collapse_runs (c :: s) = c :: collapse_runs s) as ->
      by (simpl; by rewrite Hc).
    simpl. rewrite Hc. by rewrite IH1.
Qed.

End StringFacts.

(** ** Text Normalizer *)

Section NormalizerFacts.
Context {U : UnicodeData}.

Lemma ccc_insert_elem c done x : x ∈ ccc_insert c done <-> x = c \/ x ∈ done.
Proof.
  induction done as [|d done IH]; simpl.
  - rewrite list_elem_of_singleton, elem_of_nil. tauto.
  - destruct (_ && _); rewrite !elem_of_cons; [rewrite IH|]; tauto.
Qed.

Lemma canonical_order_from_elem done s x :
  x ∈ canonical_order_from done s <-> x ∈ done \/ x ∈ s.
Proof.
  revert done. induction s as [|c s IH]; intros done; simpl.
  - rewrite elem_of_reverse, elem_of_nil. tauto.
  - rewrite IH, ccc_insert_elem, elem_of_cons. tauto.
Qed.

Lemma filter_reverse_bool {A} (f : A -> bool) l :
  List.filter f (reverse l) = reverse (List.filter f l).
Proof.
  induction l as [|a l IH]; [done|].
  rewrite reverse_cons, List.filter_app, IH. simpl.
  destruct (f a); [by rewrite reverse_cons | by rewrite app_nil_r].
Qed.

Lemma ccc_insert_starters c done :
  List.filter (fun ch => negb (combining ch)) (ccc_insert c done)
  = List.filter (fun ch => negb (combining ch)) (c :: done).
Proof.
  induction done as [|d done IH]; [done|].
  simpl ccc_insert. destruct (_ && _) eqn:Hswap; [|done].
  apply andb_true_iff in Hswap as [Hc%N.ltb_lt _].
  assert (negb (combining c) = false) as Hmark.
  { unfold combining. rewrite negb_involutive. apply N.eqb_neq. lia. }
  simpl in *. rewrite Hmark in *. by rewrite IH.
Qed.

(** Canonical ordering moves marks only: the starters of a string and
    their order are what they were. *)
Lemma canonical_order_from_starters done s :
  List.filter (fun ch => negb (combining ch)) (canonical_order_from done s)
  = reverse (List.filter (fun ch => negb (combining ch)) done)
    ++ List.filter (fun ch => negb (combining ch)) s.
Proof.
  revert done. induction s as [|c s IH]; intros done; simpl.
  - by rewrite filter_reverse_bool, app_nil_r.
  - rewrite IH, ccc_insert_starters. simpl.
    destruct (negb (combining c)); [|done].
    by rewrite reverse_cons, <- app_assoc.
Qed.

Lemma canonical_order_starters s :
  List.filter (fun ch => negb (combining ch)) (canonical_order s)
  = List.filter (fun ch => negb (combining ch)) s.
Proof. apply canonical_order_from_starters. Qed.

(** A string without marks is in canonical order. *)
Lemma canonical_order_from_fixed done s :
  Forall (fun c => ccc c = 0) s -> canonical_order_from done s = reverse done ++ s.
Proof.
  revert done. induction s as [|c s IH]; intros done Hs; simpl.
  - by rewrite app_nil_r.
  - apply Forall_cons in Hs as [Hc Hs]. rewrite IH by done.
    assert (ccc_insert c done = c :: done) as ->.
    { destruct done; simpl; [done|]. by rewrite Hc. }
    by rewrite reverse_cons, <- app_assoc.
Qed.

Lemma handle_capital_sigma_cases before after :
  handle_capital_sigma before after = 0x3C3
  \/ handle_capital_sigma before after = 0x3C2.
Proof.
  unfold handle_capital_sigma.
  repeat (match goal with |- context [match ?x with _ => _ end] => destruct x end);
    auto.
Qed.

(** Where the code points of [s.lower()] come from. *)
Lemma lower_from_elem before s e :
  e ∈ lower_from before s ->
  e = 0x3C3 \/ e = 0x3C2
  \/ exists d, d ∈ s /\ d <> 0x3A3 /\ e ∈ to_lower_full d.
Proof.
  revert before. induction s as [|c s IH]; intros before; simpl.
  - by intros ?%elem_of_nil.
  - intros [He|He]%elem_of_app.
    + destruct (N.eqb_spec c 0x3A3) as [->|Hne].
      * apply list_elem_of_singleton in He as ->.
        destruct (handle_capital_sigma_cases before s) as [-> | ->]; auto.
      * right. right. exists c. split; [by left | done].
    + apply IH in He as [?|[?|(d & Hd & Hne & He)]]; auto.
      right. right. exists d. split; [by right | done].
Qed.

Lemma lower_from_fixed before s :
  Forall (fun c => c <> 0x3A3 /\ to_lower_full c = [c]) s ->
  lower_from before s = s.
Proof.
  revert before. induction s as [|c s IH]; intros before Hs; simpl; [done|].
  apply Forall_cons in Hs as [[Hne Hc] Hs].
  destruct (N.eqb_spec c 0x3A3); [done|]. rewrite Hc, IH by done. done.
Qed.

(** C7, amended. [normalize_text] is the reference algorithm of the
    specification with two changes: the compatibility decomposition in
    step 2, and in step 3 only the characters of non-zero canonical
    combining class are dropped. Empty input gives empty output; otherwise
    every character is replaced by its full compatibility decomposition
    (the mapping of NFKD), the characters whose combining class is not
    zero are dropped (a combining mark of class zero stays), the text is
    lower-cased and trimmed, and every run of whitespace becomes one
    space. *)
Theorem normalize_text_reference text :
  normalize_text text = normalize_reference compat_decomp combining text.
Proof.
  unfold normalize_text, normalize_reference. destruct text as [|c text]; [done|].
  unfold nfkd, re_sub_ws. rewrite canonical_order_starters.
  by rewrite (proj1 (sub_ws_collapse _)).
Qed.

End NormalizerFacts.

(** C7, as stated, at two titles. The claim has the canonical
    decomposition in step 2 and drops all combining marks in step 3. At a
    title that begins with the ligature U+FB01 the canonical decomposition
    leaves the ligature as it is, while the code asks for NFKD, which maps
    it to the letters f and i. At the letter a followed by the combining
    grapheme joiner U+034F, a combining mark of class 0, the claim drops
    the mark, while the code keeps it, whichever decomposition is taken. *)
Theorem canonical_reference_differs :
  (normalize_text (U := ucd_latin) (0xFB01 :: py "re") = py "fire"
   /\ normalize_reference (U := ucd_latin)
        (canon_decomp (UnicodeData := ucd_latin)) Latin.mark_of
        (0xFB01 :: py "re") = 0xFB01 :: py "re")
  /\ (normalize_text (U := ucd_latin) [0x61; 0x34F] = [0x61; 0x34F]
      /\ normalize_reference (U := ucd_latin)
           (canon_decomp (UnicodeData := ucd_latin)) Latin.mark_of
           [0x61; 0x34F] = [0x61]
      /\ normalize_reference (U := ucd_latin)
           (compat_decomp (UnicodeData := ucd_latin)) Latin.mark_of
           [0x61; 0x34F] = [0x61])
  /\ normalize_text (U := ucd_latin) (0xFB01 :: py "re")
     <> normalize_reference (U := ucd_latin)
          (canon_decomp (UnicodeData := ucd_latin)) Latin.mark_of
          (0xFB01 :: py "re")
  /\ normalize_text (U := ucd_latin) [0x61; 0x34F]
     <> normalize_reference (U := ucd_latin)
          (canon_decomp (UnicodeData := ucd_latin)) Latin.mark_of
          [0x61; 0x34F].
Proof. by vm_compute. Qed.

(** *** Idempotence *)

Section Idempotence.
Context {U : UnicodeData} {L : UnicodeLaws U}.

(** Every code point of a normalised string is settled. *)
Lemma normalize_text_settled x : Forall settled (normalize_text x).
Proof using L.
  destruct x as [|c0 x]; [constructor|]. apply Forall_forall. intros e He.
  unfold normalize_text, re_sub_ws in He.
  apply sub_ws_elem in He as [He| ->]; [|apply space_settled].
  apply strip_elem, lower_from_elem in He as [->|[->|(d & Hd & Hne & He)]];
    [apply sigma_settled..|].
  apply list_elem_of_In, filter_In in Hd as [Hd Hstart].
  apply list_elem_of_In, canonical_order_from_elem in Hd as [Hd|Hd];
    [by apply elem_of_nil in Hd|].
  apply list_elem_of_In, in_flat_map in Hd as (c & _ & Hd).
  apply (lowered_settled c d e); [by apply list_elem_of_In| |done..].
  unfold combining in Hstart. rewrite negb_involutive in Hstart.
  by apply N.eqb_eq.
Qed.

Lemma flat_map_fixed {A} (f : A -> list A) l :
  Forall (fun c => f c = [c]) l -> flat_map f l = l.
Proof.
  induction 1 as [|c l Hc _ IH]; simpl; [done|]. by rewrite Hc, IH.
Qed.

Lemma filter_all {A} (f : A -> bool) l :
  Forall (fun c => f c = true) l -> List.filter f l = l.
Proof.
  induction 1 as [|c l Hc _ IH]; simpl; [done|]. by rewrite Hc, IH.
Qed.

(** A settled string with its whitespace in order is its own normal
    form. *)
Lemma normalize_text_fixed y :
  Forall settled y -> strip y = y -> re_sub_ws y = y -> normalize_text y = y.
Proof.
  intros Hy Hstrip Hsub. destruct y as [|c y]; [done|].
  unfold normalize_text, nfkd, canonical_order, lower.
  rewrite flat_map_fixed
    by (eapply Forall_impl; [exact Hy | by intros ? (? & _)]).
  rewrite canonical_order_from_fixed
    by (eapply Forall_impl; [exact Hy | by intros ? (_ & ? & _)]).
  rewrite reverse_nil, app_nil_l.
  rewrite filter_all.
  - rewrite lower_from_fixed
      by (eapply Forall_impl; [exact Hy | by intros ? (_ & _ & ? & ?)]).
    by rewrite Hstrip, Hsub.
  - eapply Forall_impl; [exact Hy|]. intros a (_ & Ha & _).
    unfold combining. rewrite Ha. done.
Qed.

Lemma normalize_text_idem x :
  normalize_text (normalize_text x) = normalize_text x.
Proof using L.
  apply normalize_text_fixed; [apply normalize_text_settled|..];
    (destruct x as [|c x]; [done|]); apply tidy_fixed.
Qed.

End Idempotence.

(** *** The normaliser reads the database only at the text's rows *)

Section Agreement.
Context (U V : UnicodeData).

Lemma ccc_insert_agree c done :
  Forall (rows_agree U V) (c :: done) ->
  ccc_insert (U := U) c done = ccc_insert (U := V) c done.
Proof.
  intros [(_ & Hc & _) Hdone]%Forall_cons.
  induction Hdone as [|d done (_ & Hd & _) _ IH]; simpl; [done|].
  by rewrite Hc, Hd, IH.
Qed.

Lemma canonical_order_from_agree done s :
  Forall (rows_agree U V) done -> Forall (rows_agree U V) s ->
  canonical_order_from (U := U) done s = canonical_order_from (U := V) done s.
Proof.
  revert done. induction s as [|c s IH]; intros acc Hacc Hs; simpl; [done|].
  apply Forall_cons in Hs as [Hc Hs].
  rewrite ccc_insert_agree by by constructor.
  apply IH; [|done]. apply Forall_forall. intros x Hx.
  apply ccc_insert_elem in Hx as [->|Hx]; [done|].
  rewrite Forall_forall in Hacc. by apply Hacc.
Qed.

Lemma skip_case_ignorable_agree s :
  Forall (rows_agree U V) s ->
  skip_case_ignorable (U := U) s = skip_case_ignorable (U := V) s
  /\ forall c, skip_case_ignorable (U := V) s = Some c -> rows_agree U V c.
Proof.
  induction 1 as [|a s Ha _ [IH1 IH2]]; simpl.
  - split; [done | by intros c [=]].
  - pose proof Ha as (_ & _ & _ & _ & ->).
    destruct (is_case_ignorable (UnicodeData := V) a);
      [exact (conj IH1 IH2)|].
    split; [done|]. by intros c [= <-].
Qed.

Lemma handle_capital_sigma_agree before after :
  Forall (rows_agree U V) before -> Forall (rows_agree U V) after ->
  handle_capital_sigma (U := U) before after
  = handle_capital_sigma (U := V) before after.
Proof.
  intros [Hb1 Hb2]%skip_case_ignorable_agree [Ha1 Ha2]%skip_case_ignorable_agree.
  unfold handle_capital_sigma. rewrite Hb1, Ha1.
  destruct (skip_case_ignorable (U := V) before) as [c|]; [|done].
  destruct (Hb2 c eq_refl) as (_ & _ & _ & -> & _).
  destruct (is_cased (UnicodeData := V) c); [|done].
  destruct (skip_case_ignorable (U := V) after) as [c'|]; [|done].
  by destruct (Ha2 c' eq_refl) as (_ & _ & _ & -> & _).
Qed.

Lemma lower_from_agree before s :
  Forall (rows_agree U V) before -> Forall (rows_agree U V) s ->
  lower_from (U := U) before s = lower_from (U := V) before s.
Proof.
  revert before. induction s as [|c s IH]; intros before Hb Hs; simpl; [done|].
  apply Forall_cons in Hs as [Hc Hs].
  rewrite IH by (by try constructor).
  rewrite handle_capital_sigma_agree by done.
  by destruct Hc as (_ & _ & -> & _).
Qed.

Lemma flat_map_agree s :
  Forall (rows_agree U V) s ->
  flat_map (compat_decomp (UnicodeData := U)) s
  = flat_map (compat_decomp (UnicodeData := V)) s.
Proof.
  induction 1 as [|c s (Hc & _) _ IH]; simpl; [done|]. by rewrite Hc, IH.
Qed.

(** Two databases that agree on the code points of [s] and of its
    decomposition give [s] the same normal form. *)
Lemma normalize_text_agree s :
  Forall (rows_agree U V) s ->
  Forall (rows_agree U V) (flat_map (compat_decomp (UnicodeData := V)) s) ->
  normalize_text (U := U) s = normalize_text (U := V) s.
Proof.
  intros Hs Hd. destruct s as [|c0 s]; [done|].
  unfold normalize_text, nfkd, canonical_order, lower.
  rewrite (flat_map_agree (c0 :: s)) by done.
  rewrite canonical_order_from_agree by (done || constructor).
  set (t := canonical_order_from [] _).
  assert (Forall (rows_agree U V) t) as Ht.
  { apply Forall_forall. intros x [Hx|Hx]%canonical_order_from_elem.
    - by apply elem_of_nil in Hx.
    - rewrite Forall_forall in Hd. by apply Hd. }
  assert (List.filter (fun ch => negb (combining (U := U) ch)) t
          = List.filter (fun ch => negb (combining (U := V) ch)) t) as ->.
  { apply List.filter_ext_in. intros x Hx%list_elem_of_In.
    rewrite Forall_forall in Ht. destruct (Ht x Hx) as (_ & Hccc & _).
    unfold combining. by rewrite Hccc. }
  rewrite lower_from_agree; [done|constructor|].
  apply Forall_forall. intros x Hx%list_elem_of_In%filter_In.
  rewrite Forall_forall in Ht. apply Ht, list_elem_of_In, Hx.
Qed.

End Agreement.

(** *** The rows of [ucd_latin] satisfy the laws *)

Module LatinLaws.
Import Latin LatinCheck.

Lemma table_rows_ok :
  forallb (fun row => forallb lowered_ok (snd row)) compat_table = true.
Proof. by vm_compute. Qed.

Lemma upper_rows_ok :
  forallb
    (fun c =>
       implb (is_upper c && bool_decide (assoc compat_table c = None))
         (settled_latin (c + 32)))
    (N.of_nat <$> seq 0 223) = true.
Proof. by vm_compute. Qed.

Lemma is_upper_bound c : is_upper c = true -> c < 223.
Proof.
  unfold is_upper, in_range.
  intros [[_ H]%andb_true_iff|[[_ H]%andb_true_iff _]%andb_true_iff]%orb_true_iff;
    apply N.leb_le in H; lia.
Qed.

(** An upper-case letter without decomposition lowers to a settled
    letter. *)
Lemma upper_settled c :
  is_upper c = true -> assoc compat_table c = None ->
  settled (U := ucd_latin) (c + 32).
Proof.
  intros Hup Hnone.
  assert (In c (N.of_nat <$> seq 0 223)) as Hin.
  { apply list_elem_of_In, list_elem_of_fmap.
    exists (N.to_nat c). split; [by rewrite N2Nat.id|].
    apply elem_of_seq. apply is_upper_bound in Hup. lia. }
  pose proof (proj1 (forallb_forall _ _) upper_rows_ok c Hin) as Hc.
  cbv beta in Hc. rewrite Hup, (bool_decide_eq_true_2 _ Hnone) in Hc.
  exact (proj1 (bool_decide_eq_true _) Hc).
Qed.

End LatinLaws.

#[export] Instance ucd_latin_laws : UnicodeLaws ucd_latin.
Proof.
  split; [|by vm_compute..].
  intros c d e Hd Hccc Hne He. simpl in *.
  unfold Latin.decomp_of, Latin.assoc in Hd.
  destruct (List.find _ Latin.compat_table) as [[c' ds]|] eqn:Hfind; simpl in Hd.
  - apply find_some in Hfind as [Hin _].
    pose proof LatinLaws.table_rows_ok as Hall.
    rewrite forallb_forall in Hall. specialize (Hall _ Hin). simpl in Hall.
    rewrite forallb_forall in Hall.
    specialize (Hall d (proj1 (list_elem_of_In _ _) Hd)).
    unfold LatinCheck.lowered_ok in Hall.
    rewrite (proj2 (N.eqb_eq _ _) Hccc), (proj2 (N.eqb_neq _ _) Hne) in Hall.
    simpl in Hall. rewrite forallb_forall in Hall.
    unfold LatinCheck.settled_latin in Hall.
    by eapply bool_decide_eq_true, Hall, list_elem_of_In.
  - apply list_elem_of_singleton in Hd as ->.
    unfold Latin.lower_of in He. destruct (Latin.is_upper c) eqn:Hup.
    + apply list_elem_of_singleton in He as ->.
      apply LatinLaws.upper_settled; [done|].
      unfold Latin.assoc. by rewrite Hfind.
    + rewrite (proj2 (N.eqb_neq _ _) Hne) in He.
      apply list_elem_of_singleton in He as ->.
      repeat split; simpl; [|done| |done].
      * unfold Latin.decomp_of, Latin.assoc. by rewrite Hfind.
      * unfold Latin.lower_of. by rewrite Hup, (proj2 (N.eqb_neq _ _) Hne).
Qed.

Lemma Forall_within {A} `{EqDecision A} (P : A -> Prop) (l l' : list A) :
  Forall P l -> forallb (fun c => bool_decide (c ∈ l)) l' = true -> Forall P l'.
Proof.
  intros Hl Hsub. rewrite forallb_forall in Hsub. rewrite Forall_forall in Hl.
  apply Forall_forall. intros c Hc.
  apply Hl. eapply bool_decide_eq_true, Hsub. by apply list_elem_of_In.
Qed.

Section NormalizerTheorems.
Context {U : UnicodeData} {L : UnicodeLaws U}.

(** C6. [normalize_text] is idempotent: normalising a normalised string
    changes nothing, for every string. It takes no locale: its result
    depends on the text and on the Unicode database alone, and with the
    database's rows for the letters involved (E with acute decomposes
    into E and the combining acute accent U+0301) the normal form of
    [CAFE] with the accent and that of [cafe] are both [cafe]. *)
Theorem normalize_text_idempotent :
  Forall (rows_agree U ucd_latin) (py "CAFEcafe" ++ [0xC9; 0x301]) ->
  (forall x, normalize_text (normalize_text x) = normalize_text x)
  /\ normalize_text (py "CAF" ++ [0xC9]) = py "cafe"
  /\ normalize_text (py "cafe") = py "cafe".
Proof using L.
  intros Hrows. split; [apply normalize_text_idem|].
  split; rewrite (normalize_text_agree U ucd_latin);
    (by vm_compute) || (by eapply Forall_within; [exact Hrows | vm_compute]).
Qed.

End NormalizerTheorems.

Lemma normalize_text_idempotent_witness :
  (forall x,
     normalize_text (U := ucd_latin) (normalize_text (U := ucd_latin) x)
     = normalize_text (U := ucd_latin) x)
  /\ normalize_text (U := ucd_latin) (py "CAF" ++ [0xC9]) = py "cafe"
  /\ normalize_text (U := ucd_latin) (py "cafe") = py "cafe".
Proof.
  apply (normalize_text_idempotent (U := ucd_latin)).
  apply Forall_forall. intros c _. by vm_compute.
Defined.

(** ** Import Parser *)

Section ParserFacts.
Context {U : UnicodeData}.

Lemma strip_prefix_spec prefix s rest :
  strip_prefix prefix s = Some rest -> s = prefix ++ rest.
Proof.
  revert s. induction prefix as [|p prefix IH]; intros [|c s]; simpl; try done.
  - by intros [= <-].
  - by intros [= <-].
  - destruct (N.eqb_spec p c) as [->|]; [|done]. by intros ->%IH.
Qed.

Lemma split_once_spec sep s before after :
  split_once sep s = Some (before, after) -> s = before ++ sep ++ after.
Proof.
  revert before. induction s as [|c s IH]; intros before; simpl.
  - destruct (strip_prefix sep []) eqn:Hp; [|done].
    intros [= <- <-]. by apply strip_prefix_spec in Hp.
  - destruct (strip_prefix sep (c :: s)) eqn:Hp.
    + intros [= <- <-]. by apply strip_prefix_spec in Hp.
    + destruct (split_once sep s) as [[b a]|]; [|done]. simpl.
      intros [= <- <-]. by rewrite (IH b eq_refl).
Qed.

Lemma row_track_title title_field artist_field row t :
  row_track title_field artist_field row = Some t -> strip (title t) <> [].
Proof.
  unfold row_track.
  destruct (strip (or_empty (mjoin (row !! title_field)))) as [|c s] eqn:Hs;
    [done|].
  intros [= <-]. simpl. by rewrite <- Hs, strip_strip, Hs.
Qed.

(** In the fallback the title is what follows the first separator of a
    stripped line; it cannot be blank, because the line does not end in
    whitespace. *)
Lemma line_track_title line t :
  line_track line = Some t -> strip (title t) <> [].
Proof.
  unfold line_track. destruct (strip line) as [|c s] eqn:Hclean; [done|].
  destruct (split_once _ _) as [[a ti]|] eqn:Hsplit.
  - intros [= <-]. simpl. rewrite strip_strip. intros Hblank%strip_nil.
    apply split_once_spec in Hsplit.
    assert (exists z, last (c :: s) = Some z /\ is_space z = true)
      as (z & Hlast & Hz).
    { rewrite Hsplit, !last_app.
      destruct (last ti) as [z|] eqn:Hti.
      - exists z. split; [done|]. rewrite Forall_forall in Hblank.
        by apply Hblank, last_Some_elem_of.
      - by exists 0x20. }
    rewrite <- Hclean in Hlast. apply strip_last in Hlast. congruence.
  - intros [= <-]. simpl. by rewrite <- Hclean, strip_strip, Hclean.
Qed.

(** Whatever the parser returns, every title in it is non-blank. *)
Lemma parse_titles text records :
  parse_apple_playlist_text text = Ok records ->
  Forall (fun t => strip (title t) <> []) records.
Proof.
  unfold parse_apple_playlist_text.
  assert (forall lines, Forall (fun t => strip (title t) <> [])
                          (omap line_track lines)) as Hfallback.
  { intros lines. apply Forall_forall.
    intros t (line & _ & Ht)%list_elem_of_omap. by eapply line_track_title. }
  assert (forall tf af rows, Forall (fun t => strip (title t) <> [])
                               (omap (row_track tf af) rows)) as Hrows.
  { intros tf af rows. apply Forall_forall.
    intros t (row & _ & Ht)%list_elem_of_omap. by eapply row_track_title. }
  destruct (List.filter _ (splitlines text)) as [|first_line lines].
  { intros [= <-]. constructor. }
  set (reader := Csv.reader text _). unfold mbind, result_mbind.
  destruct (DictReader.fieldnames reader) as [[[|name names]|]|e];
    cbn [result_bind]; try done; try (intros [= <-]; constructor).
  destruct (negb (truthy _)); [intros [= <-]; constructor|].
  destruct (DictReader.rows reader) as [rows [e|]]; [done|].
  specialize (Hrows (or_empty (field (normalized_fields (name :: names))
      [py "name"; py "title"; py "track name"; py "nome"; py "titolo"]))
    (field (normalized_fields (name :: names))
      [py "artist"; py "artist name"; py "artista"]) rows).
  destruct (omap _ rows) as [|t parsed]; intros [= <-].
  - exact (Hfallback (first_line :: lines)).
  - exact Hrows.
Qed.

End ParserFacts.

(** *** The reader raises for an oversized field only *)

Module CsvFacts.
Import Csv.

(** One step of the state machine: how the field grows, which state
    follows, and when the step raises. *)
Lemma step_spec delimiter r c :
  is_newline delimiter = false ->
  match parse_process_char delimiter r c with
  | Ok r' =>
      field_len r' <= field_len r + (if c is Some _ then 1 else 0)
      /\ match c with
         | None => state r' = START_RECORD \/ state r' = IN_QUOTED_FIELD
         | Some ch =>
             if is_newline ch
             then state r' = EAT_CRNL \/ state r' = IN_QUOTED_FIELD
             else state r <> EAT_CRNL -> state r' <> EAT_CRNL
         end
  | Raise e =>
      (e = CsvFieldLimit /\ field_limit <= field_len r /\ c <> None)
      \/ (e = CsvNewlineInField /\ state r = EAT_CRNL
          /\ exists ch, c = Some ch /\ is_newline ch = false)
  end.
Proof.
  intros Hdelim.
  assert (is_newline quotechar = false) as Hquote by done.
  unfold parse_process_char, parse_add_char.
  destruct r as [st fs f n]; destruct st, c as [ch|]; simpl;
    repeat (case_if; simpl);
    repeat match goal with
      | H : (_ =? _) = true |- _ => apply N.eqb_eq in H; subst
      | H : (_ <=? _) = true |- _ => apply N.leb_le in H
      | H : (_ <=? _) = false |- _ => apply N.leb_gt in H
      end;
    try congruence; try (split; [lia|]); eauto; try (intros; congruence);
    try (left; repeat split; (lia || congruence)).
  right. repeat split; eauto.
Qed.

(** The end of a line: line-end characters, whatever the state. *)
Lemma process_line_end delimiter r term :
  is_newline delimiter = false ->
  Forall (fun c => is_newline c = true) term ->
  match process_line delimiter r term with
  | Ok r' =>
      field_len r' <= field_len r + N.of_nat (length term)
      /\ (state r' = START_RECORD \/ state r' = IN_QUOTED_FIELD)
  | Raise e =>
      e = CsvFieldLimit /\ field_limit < field_len r + N.of_nat (length term)
  end.
Proof.
  intros Hdelim Hterm. revert r.
  induction Hterm as [|c term Hc _ IH]; intros r; simpl.
  - pose proof (step_spec delimiter r None Hdelim) as Hstep.
    destruct (parse_process_char delimiter r None) as [r'|e].
    + split; [lia | tauto].
    + destruct Hstep as [(_ & _ & ?)|(_ & _ & ? & ? & _)]; done.
  - pose proof (step_spec delimiter r (Some c) Hdelim) as Hstep.
    unfold mbind, result_mbind.
    destruct (parse_process_char delimiter r (Some c)) as [r'|e];
      cbn [result_bind].
    + specialize (IH r'). destruct Hstep as [Hlen _].
      destruct (process_line delimiter r' term) as [r''|e].
      * destruct IH as [Hlen' Hnext]. split; [lia | done].
      * destruct IH as [-> Hlim]. split; [done | lia].
    + destruct Hstep as [(-> & ? & _)|(_ & _ & ch & [= <-] & ?)];
        [split; [done | lia] | congruence].
Qed.

(** A whole line: a body without line-end characters, then the line end. *)
Lemma process_line_spec delimiter r body term :
  is_newline delimiter = false ->
  Forall (fun c => is_newline c = false) body ->
  Forall (fun c => is_newline c = true) term ->
  state r <> EAT_CRNL ->
  match process_line delimiter r (body ++ term) with
  | Ok r' =>
      field_len r' <= field_len r + N.of_nat (length (body ++ term))
      /\ (state r' = START_RECORD \/ state r' = IN_QUOTED_FIELD)
  | Raise e =>
      e = CsvFieldLimit
      /\ field_limit < field_len r + N.of_nat (length (body ++ term))
  end.
Proof.
  intros Hdelim Hbody Hterm. revert r.
  induction Hbody as [|c body Hc _ IH]; intros r Hstate.
  - by apply process_line_end.
  - pose proof (step_spec delimiter r (Some c) Hdelim) as Hstep.
    simpl. unfold mbind, result_mbind.
    destruct (parse_process_char delimiter r (Some c)) as [r'|e];
      cbn [result_bind].
    + rewrite Hc in Hstep. destruct Hstep as [Hlen Hnext].
      specialize (IH r' (Hnext Hstate)).
      destruct (process_line delimiter r' (body ++ term)) as [r''|e].
      * destruct IH as [Hlen' Hfinal]. split; [lia | done].
      * destruct IH as [-> Hlim]. split; [done | lia].
    + destruct Hstep as [(-> & ? & _)|(_ & ? & _)]; [split; [done | lia] | done].
Qed.

Lemma stringio_lines_from_spec n cur text :
  (length text <= n)%nat ->
  Forall (fun c => is_newline c = false) cur ->
  Forall line_shape (stringio_lines_from cur text)
  /\ concat (stringio_lines_from cur text) = reverse cur ++ text.
Proof.
  revert cur text. induction n as [|n IH]; intros cur [|c text] Hn Hcur;
    simpl in Hn; try lia.
  - simpl. destruct cur as [|c cur]; [by split|]. split.
    + constructor; [|constructor]. exists (reverse (c :: cur)), [].
      rewrite app_nil_r. split; [done|]. split; [|constructor].
      apply Forall_forall. intros x Hx. rewrite elem_of_reverse in Hx.
      rewrite Forall_forall in Hcur. by apply Hcur.
    + simpl. by rewrite !app_nil_r.
  - simpl. destruct cur as [|c cur]; [by split|]. split.
    + constructor; [|constructor]. exists (reverse (c :: cur)), [].
      rewrite app_nil_r. split; [done|]. split; [|constructor].
      apply Forall_forall. intros x Hx. rewrite elem_of_reverse in Hx.
      rewrite Forall_forall in Hcur. by apply Hcur.
    + simpl. by rewrite !app_nil_r.
  - assert (Forall (fun c => is_newline c = false) (reverse cur)) as Hrev.
    { apply Forall_forall. intros x Hx. rewrite elem_of_reverse in Hx.
      rewrite Forall_forall in Hcur. by apply Hcur. }
    simpl. destruct (N.eqb_spec c 0xA) as [->|Hlf].
    { destruct (IH [] text) as [Hshape Hcat]; [lia|constructor|]. split.
      - constructor; [|done]. exists (reverse cur), [0xA].
        rewrite reverse_cons. split; [done|]. split; [done|by repeat constructor].
      - simpl. rewrite Hcat, reverse_cons, <- app_assoc. done. }
    destruct (N.eqb_spec c 0xD) as [->|Hcr].
    { destruct text as [|c' text].
      - split.
        + constructor; [|constructor]. exists (reverse cur), [0xD].
          rewrite reverse_cons. split; [done|]. split; [done|by repeat constructor].
        + simpl. by rewrite reverse_cons, app_nil_r.
      - destruct (N.eqb_spec c' 0xA) as [->|Hne].
        + destruct (IH [] text) as [Hshape Hcat]; [simpl in Hn; lia|constructor|].
          split.
          * constructor; [|done]. exists (reverse cur), [0xD; 0xA].
            rewrite !reverse_cons, <- app_assoc.
            split; [done|]. split; [done|by repeat constructor].
          * simpl. rewrite Hcat, !reverse_cons, <- !app_assoc. done.
        + destruct (IH [] (c' :: text)) as [Hshape Hcat]; [lia|constructor|].
          split.
          * constructor; [|done]. exists (reverse cur), [0xD].
            rewrite reverse_cons. split; [done|]. split; [done|by repeat constructor].
          * change (concat (?l :: ?ls)) with (l ++ concat ls).
            rewrite Hcat, reverse_cons, <- app_assoc. done. }
    destruct (IH (c :: cur) text) as [Hshape Hcat]; [lia| |].
    { constructor; [|done].
      unfold is_newline. apply orb_false_iff. split; by apply N.eqb_neq. }
    split; [done|]. by rewrite Hcat, reverse_cons, <- app_assoc.
Qed.

Lemma stringio_lines_spec text :
  Forall line_shape (stringio_lines text)
  /\ concat (stringio_lines text) = text.
Proof.
  apply (stringio_lines_from_spec (length text) [] text); [done|constructor].
Qed.

(** Iterating the reader over well-shaped lines ends in [StopIteration],
    or in the field-limit error when the text from the current field on is
    longer than the limit. *)
Lemma reader_from_spec delimiter r lines :
  is_newline delimiter = false ->
  Forall line_shape lines ->
  state r <> EAT_CRNL ->
  match snd (reader_from delimiter r lines) with
  | None => True
  | Some e =>
      e = CsvFieldLimit
      /\ field_limit < field_len r + N.of_nat (length (concat lines))
  end.
Proof.
  intros Hdelim Hlines. revert r.
  induction Hlines as [|line lines (body & term & -> & Hbody & Hterm) _ IH];
    intros r Hstate.
  - simpl. by case_if.
  - pose proof (process_line_spec delimiter r body term Hdelim Hbody Hterm Hstate)
      as Hline.
    assert (N.of_nat (length (concat ((body ++ term) :: lines)))
            = N.of_nat (length (body ++ term)) + N.of_nat (length (concat lines)))
      as -> by (simpl concat; rewrite length_app; lia).
    cbn [reader_from].
    destruct (process_line delimiter r (body ++ term)) as [r'|e]; simpl.
    + destruct Hline as [Hlen Hnext].
      case_bool_decide as Hrec.
      * specialize (IH parse_reset). destruct (reader_from _ parse_reset lines)
          as [rows [e|]]; simpl in *; [|done].
        destruct IH as [-> Hlim]; [done|]. split; [done|lia].
      * specialize (IH r'). destruct (snd (reader_from delimiter r' lines));
          [|done].
        destruct IH as [-> Hlim]; [by destruct Hnext as [Hst|Hst]; rewrite Hst|].
        split; [done|lia].
    + destruct Hline as [-> Hlim]. split; [done|lia].
Qed.

Lemma reader_spec text delimiter :
  is_newline delimiter = false ->
  match snd (reader text delimiter) with
  | None => True
  | Some e => e = CsvFieldLimit /\ field_limit < N.of_nat (length text)
  end.
Proof.
  intros Hdelim. destruct (stringio_lines_spec text) as [Hshape Hcat].
  pose proof (reader_from_spec delimiter parse_reset (stringio_lines text)
                Hdelim Hshape) as Hrd.
  unfold reader. rewrite Hcat in Hrd. simpl in Hrd.
  destruct (snd (reader_from _ _ _)); [|done]. by apply Hrd.
Qed.

End CsvFacts.

(** *** The reader with the limit against the reader without it *)

Module UnlimitedFacts.
Import Csv CsvUnlimited.

Lemma step_sync delimiter r c :
  within r ->
  match parse_process_char delimiter r c with
  | Ok r' =>
      within r'
      /\ exists u', process_char delimiter r c = Ok u'
                    /\ uncounted u' = uncounted r'
  | Raise e =>
      (e = CsvFieldLimit
       /\ exists u', process_char delimiter r c = Ok u' /\ over u'
                     /\ state u' <> EAT_CRNL /\ state u' <> START_RECORD)
      \/ (e = CsvNewlineInField /\ state r = EAT_CRNL
          /\ exists ch, c = Some ch /\ is_newline ch = false)
  end.
Proof.
  intros (Hlen & Hlim & Hfields).
  unfold process_char, parse_process_char, parse_add_char, uncounted.
  destruct r as [st fs f n]; simpl in *.
  destruct st, c as [ch|]; simpl; repeat (case_if; simpl);
    repeat match goal with
      | H : (_ <=? _) = true |- _ => apply N.leb_le in H
      | H : (_ <=? _) = false |- _ => apply N.leb_gt in H
      end;
    try (exfalso; unfold field_limit in *; lia).
  all: try (split; [unfold within, long; simpl; rewrite ?length_reverse, ?Nat2N.inj_succ;
                     repeat split; try lia; try done;
                     try (constructor; [rewrite length_reverse; lia | done])
                   | eexists; split; [reflexivity | reflexivity]]).
  all: try (right; split; [done|]; split; [done|]; by eexists).
  all: left; split; [done|]; eexists; split; [reflexivity|];
    (split; [|by simpl]); right; simpl; unfold long; simpl;
    (split; [lia | done]).
Qed.

(** One step of the reader without the limit: it raises only on a
    character after a line end, and a field that is too long stays. *)
Lemma step_over delimiter u c :
  is_newline delimiter = false ->
  match process_char delimiter u c with
  | Ok u' =>
      (over u -> over u')
      /\ match c with
         | None => state u' = START_RECORD \/ state u' = IN_QUOTED_FIELD
         | Some ch =>
             if is_newline ch
             then state u' = EAT_CRNL \/ state u' = IN_QUOTED_FIELD
             else state u <> EAT_CRNL -> state u' <> EAT_CRNL
         end
  | Raise e =>
      state u = EAT_CRNL /\ exists ch, c = Some ch /\ is_newline ch = false
  end.
Proof.
  intros Hdelim.
  assert (is_newline quotechar = false) as Hquote by done.
  unfold process_char, parse_process_char, parse_add_char, uncounted, over.
  destruct u as [st fs f n]; simpl.
  destruct st, c as [ch|]; simpl; repeat (case_if; simpl);
    repeat match goal with
      | H : (_ =? _) = true |- _ => apply N.eqb_eq in H; subst
      | H : (_ <=? _) = true |- _ => apply N.leb_le in H
      end;
    try (exfalso; unfold field_limit in *; lia); try congruence.
  all: try (split; [done | by eexists]).
  all: split;
    [ intros [Hfs|(Hf & Hs1 & Hs2)];
      [ first [ by left | left; by apply Exists_cons_tl ]
      | try done;
        first [ left; apply Exists_cons_hd; unfold long in *;
                by rewrite length_reverse
              | right; split; [unfold long in *; simpl length; lia | done]
              | right; by split ] ]
    | first [ by left | by right | done ] ].
Qed.

Lemma uncounted_fields u r :
  uncounted u = uncounted r ->
  state u = state r /\ fields u = fields r /\ field u = field r.
Proof. unfold uncounted. by intros [= -> -> ->]. Qed.

Lemma process_char_uncounted delimiter u r c :
  uncounted u = uncounted r ->
  process_char delimiter u c = process_char delimiter r c.
Proof. unfold process_char. by intros ->. Qed.

(** The reader without the limit, over the end of a line. *)
Lemma line_over_end delimiter u term :
  is_newline delimiter = false ->
  Forall (fun c => is_newline c = true) term ->
  exists u',
    CsvUnlimited.process_line delimiter u term = Ok u'
    /\ (over u -> over u')
    /\ (state u' = START_RECORD \/ state u' = IN_QUOTED_FIELD).
Proof.
  intros Hdelim Hterm. revert u.
  induction Hterm as [|c term Hc _ IH]; intros u; cbn [CsvUnlimited.process_line].
  - pose proof (step_over delimiter u None Hdelim) as Hstep.
    destruct (process_char delimiter u None) as [u'|e].
    + exists u'. by destruct Hstep.
    + by destruct Hstep as (_ & ch & ? & _).
  - pose proof (step_over delimiter u (Some c) Hdelim) as Hstep.
    unfold mbind, result_mbind.
    destruct (process_char delimiter u (Some c)) as [u1|e]; cbn [result_bind].
    + destruct (IH u1) as (u' & Hrun & Hover & Hstate).
      exists u'. split; [done|]. split; [|done].
      destruct Hstep as [Hover1 _]. auto.
    + destruct Hstep as (_ & ch & [= <-] & Hch). congruence.
Qed.

(** The reader without the limit, over a whole line. *)
Lemma line_over delimiter u body term :
  is_newline delimiter = false ->
  Forall (fun c => is_newline c = false) body ->
  Forall (fun c => is_newline c = true) term ->
  state u <> EAT_CRNL ->
  exists u',
    CsvUnlimited.process_line delimiter u (body ++ term) = Ok u'
    /\ (over u -> over u')
    /\ (state u' = START_RECORD \/ state u' = IN_QUOTED_FIELD).
Proof.
  intros Hdelim Hbody Hterm. revert u.
  induction Hbody as [|c body Hc _ IH]; intros u Hstate.
  - by apply line_over_end.
  - pose proof (step_over delimiter u (Some c) Hdelim) as Hstep.
    simpl. unfold mbind, result_mbind.
    destruct (process_char delimiter u (Some c)) as [u1|e]; cbn [result_bind].
    + rewrite Hc in Hstep. destruct Hstep as [Hover1 Hnext].
      destruct (IH u1 (Hnext Hstate)) as (u' & Hrun & Hover & Hfinal).
      exists u'. split; [done|]. split; [auto | done].
    + by destruct Hstep as [? _].
Qed.

(** The two readers side by side, over the end of a line. *)
Lemma line_sync_end delimiter r u term :
  is_newline delimiter = false ->
  Forall (fun c => is_newline c = true) term ->
  uncounted u = uncounted r -> within r ->
  match Csv.process_line delimiter r term with
  | Ok r' =>
      within r'
      /\ (state r' = START_RECORD \/ state r' = IN_QUOTED_FIELD)
      /\ exists u', CsvUnlimited.process_line delimiter u term = Ok u'
                    /\ uncounted u' = uncounted r'
  | Raise e =>
      e = CsvFieldLimit
      /\ exists u', CsvUnlimited.process_line delimiter u term = Ok u'
                    /\ over u'
                    /\ (state u' = START_RECORD \/ state u' = IN_QUOTED_FIELD)
  end.
Proof.
  intros Hdelim Hterm. revert r u.
  induction Hterm as [|c term Hc Hterm IH]; intros r u Hu Hr;
    cbn [Csv.process_line CsvUnlimited.process_line].
  - pose proof (step_sync delimiter r None Hr) as Hsync.
    pose proof (CsvFacts.step_spec delimiter r None Hdelim) as Hspec.
    rewrite (process_char_uncounted delimiter u r None Hu).
    destruct (parse_process_char delimiter r None) as [r'|e].
    + destruct Hsync as [Hr' Hu']. destruct Hspec as [_ Hstate]. done.
    + destruct Hspec as [(_ & _ & ?)|(_ & _ & ? & ? & _)]; done.
  - pose proof (step_sync delimiter r (Some c) Hr) as Hsync.
    rewrite (process_char_uncounted delimiter u r (Some c) Hu).
    unfold mbind, result_mbind.
    destruct (parse_process_char delimiter r (Some c)) as [r1|e];
      cbn [result_bind].
    + destruct Hsync as [Hr1 (u1 & -> & Hu1)]. cbn [result_bind].
      by apply IH.
    + destruct Hsync as [(-> & u1 & -> & Hover & _)|(_ & _ & ch & [= <-] & Hch)];
        [|congruence].
      cbn [result_bind]. split; [done|].
      destruct (line_over_end delimiter u1 term Hdelim Hterm)
        as (u' & Hrun & Hkeep & Hstate).
      exists u'. auto.
Qed.

(** The two readers side by side, over a whole line. *)
Lemma line_sync delimiter r u body term :
  is_newline delimiter = false ->
  Forall (fun c => is_newline c = false) body ->
  Forall (fun c => is_newline c = true) term ->
  uncounted u = uncounted r -> within r -> state r <> EAT_CRNL ->
  match Csv.process_line delimiter r (body ++ term) with
  | Ok r' =>
      within r'
      /\ (state r' = START_RECORD \/ state r' = IN_QUOTED_FIELD)
      /\ exists u', CsvUnlimited.process_line delimiter u (body ++ term) = Ok u'
                    /\ uncounted u' = uncounted r'
  | Raise e =>
      e = CsvFieldLimit
      /\ exists u', CsvUnlimited.process_line delimiter u (body ++ term) = Ok u'
                    /\ over u'
                    /\ (state u' = START_RECORD \/ state u' = IN_QUOTED_FIELD)
  end.
Proof.
  intros Hdelim Hbody Hterm. revert r u.
  induction Hbody as [|c body Hc Hbody IH]; intros r u Hu Hr Hstate.
  - by apply line_sync_end.
  - pose proof (step_sync delimiter r (Some c) Hr) as Hsync.
    pose proof (CsvFacts.step_spec delimiter r (Some c) Hdelim) as Hspec.
    simpl. rewrite (process_char_uncounted delimiter u r (Some c) Hu).
    unfold mbind, result_mbind.
    destruct (parse_process_char delimiter r (Some c)) as [r1|e];
      cbn [result_bind].
    + destruct Hsync as [Hr1 (u1 & -> & Hu1)]. cbn [result_bind].
      rewrite Hc in Hspec. destruct Hspec as [_ Hnext].
      apply IH; auto.
    + destruct Hsync as [(-> & u1 & -> & Hover & Hs1 & _)|(_ & ? & _)];
        [|done].
      cbn [result_bind]. split; [done|].
      destruct (line_over delimiter u1 body term Hdelim Hbody Hterm Hs1)
        as (u' & Hrun & Hkeep & Hfinal).
      exists u'. auto.
Qed.

Lemma too_long_reverse l : Exists long l -> too_long (reverse l) = true.
Proof.
  intros (f & Hf & Hlong)%Exists_exists. apply existsb_exists. exists f.
  split; [|by apply N.ltb_lt].
  apply list_elem_of_In. by rewrite elem_of_reverse.
Qed.

Lemma not_too_long_reverse l :
  Forall (fun f => ~ long f) l -> too_long (reverse l) = false.
Proof.
  intros Hl. apply not_true_is_false.
  intros (f & Hf & Hlong%N.ltb_lt)%existsb_exists.
  apply list_elem_of_In in Hf. rewrite elem_of_reverse in Hf.
  rewrite Forall_forall in Hl. by apply (Hl f).
Qed.

Lemma over_saved u :
  over u -> Exists long (fields (parse_save_field u)).
Proof.
  intros [Hfs|(Hf & _)]; simpl.
  - by apply Exists_cons_tl.
  - apply Exists_cons_hd. unfold long in *. by rewrite length_reverse.
Qed.

(** Once a field is too long, the record it belongs to is among the
    records of the reader without the limit. *)
Lemma records_over delimiter u lines :
  is_newline delimiter = false ->
  Forall line_shape lines ->
  over u -> state u = IN_QUOTED_FIELD ->
  exists bad rest,
    records_from delimiter u lines = bad :: rest /\ too_long bad = true.
Proof.
  intros Hdelim Hlines. revert u.
  induction Hlines as [|line lines (body & term & -> & Hbody & Hterm) _ IH];
    intros u Hover Hstate; cbn [records_from].
  - rewrite (bool_decide_eq_true_2 (state u = IN_QUOTED_FIELD)) by done.
    rewrite orb_true_r. eexists _, []. split; [done|].
    by apply too_long_reverse, over_saved.
  - destruct (line_over delimiter u body term Hdelim Hbody Hterm)
      as (u' & -> & Hkeep & Hfinal); [by rewrite Hstate|].
    specialize (Hkeep Hover). case_bool_decide as Hrec.
    + eexists _, _. split; [done|]. apply too_long_reverse.
      by destruct Hkeep as [?|(_ & ? & _)].
    + apply IH; [done|]. by destruct Hfinal.
Qed.

(** The reader stops at the first record with a field that is too long
    and gives the records before it; without such a record it gives them
    all. *)
Lemma reader_from_sync delimiter r u lines :
  is_newline delimiter = false ->
  Forall line_shape lines ->
  uncounted u = uncounted r -> within r -> state r <> EAT_CRNL ->
  Forall (fun row => too_long row = false) (reader_from delimiter r lines).1
  /\ match (reader_from delimiter r lines).2 with
     | None => records_from delimiter u lines = (reader_from delimiter r lines).1
     | Some e =>
         e = CsvFieldLimit
         /\ exists bad rest,
              records_from delimiter u lines
              = (reader_from delimiter r lines).1 ++ bad :: rest
              /\ too_long bad = true
     end.
Proof.
  intros Hdelim Hlines. revert r u.
  induction Hlines as [|line lines (body & term & -> & Hbody & Hterm) Hlines IH];
    intros r u Hu Hr Hstate; cbn [reader_from records_from].
  - unfold parse_save_field. cbn [fields].
    destruct (uncounted_fields u r Hu) as (-> & -> & ->).
    destruct Hr as (Hlen & Hlim & Hfields).
    assert (bool_decide (field r = []) = (field_len r =? 0)) as ->.
    { rewrite Hlen. destruct (field r) as [|a f]; [done|].
      rewrite bool_decide_eq_false_2 by done. symmetry. apply N.eqb_neq.
      cbn [length]. lia. }
    destruct (negb _ || _); simpl; [|done].
    split; [|done]. constructor; [|done].
    apply not_too_long_reverse. constructor; [|done].
    unfold long. rewrite length_reverse. lia.
  - pose proof (line_sync delimiter r u body term Hdelim Hbody Hterm Hu Hr Hstate)
      as Hline.
    destruct (Csv.process_line delimiter r (body ++ term)) as [r'|e].
    + destruct Hline as (Hr' & Hfinal & u' & -> & Hu').
      destruct (uncounted_fields u' r' Hu') as (-> & -> & _).
      case_bool_decide as Hrec.
      * specialize (IH parse_reset parse_reset eq_refl).
        destruct (reader_from delimiter parse_reset lines) as [rows ending].
        destruct IH as [Hrows Hend]; [by repeat split|done|].
        cbn [fst snd] in *. split.
        -- constructor; [|done]. apply not_too_long_reverse. apply Hr'.
        -- destruct ending as [e|]; [|by rewrite Hend].
           destruct Hend as (-> & bad & rest & -> & Hbad).
           split; [done|]. by exists bad, rest.
      * apply IH; [done..|]. by destruct Hfinal as [Hs|Hs]; rewrite Hs.
    + destruct Hline as (-> & u' & -> & Hover & Hfinal). cbn [fst snd].
      split; [constructor|]. split; [done|]. case_bool_decide as Hrec.
      * eexists _, _. split; [done|]. apply too_long_reverse.
        by destruct Hover as [?|(_ & ? & _)].
      * apply records_over; [done..|]. by destruct Hfinal.
Qed.

Lemma reader_sync text delimiter :
  is_newline delimiter = false ->
  Forall (fun row => too_long row = false) (reader text delimiter).1
  /\ match (reader text delimiter).2 with
     | None => records text delimiter = (reader text delimiter).1
     | Some e =>
         e = CsvFieldLimit
         /\ exists bad rest,
              records text delimiter
              = (reader text delimiter).1 ++ bad :: rest
              /\ too_long bad = true
     end.
Proof.
  intros Hdelim. destruct (CsvFacts.stringio_lines_spec text) as [Hshape _].
  apply reader_from_sync; [done..| |done].
  repeat split; [done | constructor].
Qed.

End UnlimitedFacts.

Section ImportTheorems.
Context {U : UnicodeData}.

(** The decoder never raises: Latin-1 decodes every byte string. *)
Lemma decode_total raw : exists text, decode_uploaded_bytes raw = Ok text.
Proof.
  unfold decode_uploaded_bytes. cbn [decode_first].
  destruct (bytes_decode utf_16 raw); [by eexists|].
  destruct (bytes_decode utf_8_sig raw); [by eexists|].
  destruct (bytes_decode utf_8 raw); [by eexists|].
  by eexists.
Qed.

(** The parser returns, or raises the reader's field-limit error on a text
    longer than the limit. *)
Lemma parse_result text :
  (exists records, parse_apple_playlist_text text = Ok records)
  \/ (parse_apple_playlist_text text = Raise CsvFieldLimit
      /\ Csv.field_limit < N.of_nat (length text)).
Proof.
  unfold parse_apple_playlist_text.
  destruct (List.filter _ (splitlines text)) as [|first_line lines];
    [left; by eexists|].
  set (delimiter := if char_in 9 first_line then _ else _).
  assert (Csv.is_newline delimiter = false) as Hdelim
    by (subst delimiter; by repeat case_if).
  pose proof (CsvFacts.reader_spec text delimiter Hdelim) as Hreader.
  unfold mbind, result_mbind, DictReader.fieldnames, DictReader.rows.
  destruct (Csv.reader text delimiter) as [[|names records] [e|]];
    simpl in Hreader; cbn [result_bind]; try (left; by eexists).
  - destruct Hreader as [-> Hlim]. by right.
  - destruct Hreader as [-> Hlim].
    destruct names; [left; by eexists|].
    case_if; [left; by eexists | by right].
  - destruct names; [left; by eexists|].
    case_if; [left; by eexists|].
    destruct (omap _ _); left; by eexists.
Qed.

Lemma field_empty candidates : field ∅ candidates = None.
Proof.
  induction candidates as [|c rest IH]; simpl; [done|].
  by rewrite lookup_empty.
Qed.

Lemma existsb_none {A} (f : A -> bool) l :
  Forall (fun a => f a = false) l -> existsb f l = false.
Proof. induction 1 as [|a l Ha _ IH]; simpl; [done|]. by rewrite Ha, IH. Qed.

Lemma sniffed_delimiter_newline first_line :
  Csv.is_newline (sniffed_delimiter first_line) = false.
Proof. unfold sniffed_delimiter. by repeat case_if. Qed.

Lemma parse_exact text :
  match parse_apple_playlist_text text with
  | Ok _ => reads_too_long_field text = false
  | Raise e => e = CsvFieldLimit /\ reads_too_long_field text = true
  end.
Proof.
  unfold parse_apple_playlist_text, reads_too_long_field.
  fold (nonblank_lines text).
  destruct (nonblank_lines text) as [|first_line lines]; [done|].
  fold (sniffed_delimiter first_line). fold title_candidates.
  destruct (UnlimitedFacts.reader_sync text (sniffed_delimiter first_line)
              (sniffed_delimiter_newline first_line)) as [Hrows Hend].
  unfold mbind, result_mbind, DictReader.fieldnames, DictReader.rows.
  destruct (Csv.reader text (sniffed_delimiter first_line))
    as [[|names records] [e|]]; cbn [fst snd] in *; cbn [result_bind].
  - destruct Hend as (-> & bad & rest & -> & Hbad). split; [done|].
    simpl. by rewrite Hbad.
  - by rewrite Hend.
  - destruct Hend as (-> & bad & rest & -> & Hbad).
    apply Forall_cons in Hrows as [Hnames Hrows].
    cbn [app]. rewrite Hnames, orb_false_l.
    assert (existsb CsvUnlimited.too_long (records ++ bad :: rest) = true) as ->.
    { rewrite existsb_app. simpl. rewrite Hbad. by rewrite orb_true_r. }
    rewrite andb_true_r.
    destruct names as [|name names].
    + change (normalized_fields []) with (∅ : gmap pystr pystr).
      by rewrite field_empty.
    + destruct (truthy _); cbn [negb]; done.
  - rewrite Hend. apply Forall_cons in Hrows as [Hnames Hrows].
    rewrite Hnames, (existsb_none _ records Hrows), andb_false_r.
    destruct names as [|name names]; [done|].
    case_if; [done|]. by destruct (omap _ _).
Qed.

(** C3, amended. For every byte input, decoding never raises, and the
    Import Parser either returns a sequence of records or raises the csv
    reader's field-limit error. It raises exactly when the decoded text
    has a non-blank line and the csv reader, reading with the sniffed
    delimiter, comes to a field of more than 131072 characters: in the
    header record, or in any record when the header has a title column.
    Such a text is itself longer than 131072 characters. *)
Theorem import_raises_field_limit_only raw :
  exists text,
    decode_uploaded_bytes raw = Ok text
    /\ match import_tracks raw with
       | Ok _ => reads_too_long_field text = false
       | Raise e =>
           e = CsvFieldLimit /\ reads_too_long_field text = true
           /\ Csv.field_limit < N.of_nat (length text)
       end.
Proof.
  destruct (decode_total raw) as [text Htext]. exists text. split; [done|].
  unfold import_tracks. rewrite Htext. cbn [mbind result_mbind result_bind].
  pose proof (parse_exact text) as Hexact.
  destruct (parse_result text) as [[records Hok]|[Hraise Hlen]].
  - by rewrite Hok in *.
  - rewrite Hraise in *. by destruct Hexact.
Qed.

(** C5. Every record the Import Parser returns has a title that is not
    blank after trimming, for every byte input; this holds of the tabular
    path and of the plain-line fallback alike. *)
Theorem imported_titles_nonblank raw records :
  import_tracks raw = Ok records ->
  Forall (fun t => strip (title t) <> []) records.
Proof.
  unfold import_tracks. destruct (decode_uploaded_bytes raw) as [text|e]; [|done].
  apply parse_titles.
Qed.

End ImportTheorems.

(** C3, as stated, at a file of 131073 letters: it decodes (as UTF-8), it
    is one line and one field, and the reader raises when the field
    outgrows the limit; the claim has an empty sequence here. *)
Theorem long_field_raises :
  import_tracks (U := ucd_latin) (ImportExamples.letters 131073)
  = Raise CsvFieldLimit.
Proof. by vm_compute. Qed.

(** The length of the file is not what counts: a table of 131105 bytes
    whose fields are short is parsed, row by row. *)
Lemma long_table_parses :
  N.of_nat (length (ImportExamples.long_table 43700)) = 131105
  /\ match import_tracks (U := ucd_latin) (ImportExamples.long_table 43700) with
     | Ok records => N.of_nat (length records)
     | Raise _ => 0
     end = 43700.
Proof. split; by vm_compute. Qed.

Lemma imported_titles_nonblank_witness :
  import_tracks (U := ucd_latin) ImportExamples.table
  = Ok [ {| title := py "Yesterday"; artist := py "The Beatles" |};
         {| title := py "Help!"; artist := [] |} ]
  /\ Forall (fun t => strip (title t) <> [])
       [ {| title := py "Yesterday"; artist := py "The Beatles" |};
         {| title := py "Help!"; artist := [] |} ].
Proof.
  assert (import_tracks (U := ucd_latin) ImportExamples.table
          = Ok [ {| title := py "Yesterday"; artist := py "The Beatles" |};
                 {| title := py "Help!"; artist := [] |} ]) as Hrun
    by (by vm_compute).
  split; [exact Hrun|].
  exact (imported_titles_nonblank (U := ucd_latin) _ _ Hrun).
Defined.

(** C4, at its own input. The line decodes as it is; the tabular parse
    takes it for a header without a title column and returns the empty
    list at once, before the fallback loop is reached. That loop, run on
    the line, gives the record the claim expects. *)
Theorem plain_line_rejected :
  decode_uploaded_bytes ImportExamples.plain_line
    = Ok (py "The Beatles - Yesterday")
  /\ parse_apple_playlist_text (U := ucd_latin) (py "The Beatles - Yesterday")
     = Ok []
  /\ import_tracks (U := ucd_latin) ImportExamples.plain_line = Ok []
  /\ line_track (py "The Beatles - Yesterday")
     = Some {| title := py "Yesterday"; artist := py "The Beatles" |}.
Proof. by vm_compute. Qed.

(** * Further properties *)

(** ** Matcher: what is matched, and to what *)

Section MatcherMore.
Context {U : UnicodeData}.

(** The plan's fields, read off the loop's final state. *)
Lemma plan_fields item items tracks :
  let plan := build_reorder_plan (item :: items) tracks in
  matches plan = length (selected (match_all (item :: items) tracks))
  /\ missing_in_plex plan = missing (match_all (item :: items) tracks).
Proof. done. Qed.

Lemma first_unused_none used bucket item :
  first_unused used bucket = None -> item ∈ bucket ->
  Plex.ratingKey item ∈ used.
Proof.
  unfold first_unused. intros Hnone Hin%list_elem_of_In.
  apply (find_none _ _ Hnone) in Hin.
  apply bool_decide_eq_false in Hin. by apply dec_stable.
Qed.

(** A picked item has the imported record's normalised title, whether it
    came from the exact bucket or from the title bucket. *)
Lemma pick_title items used track picked :
  pick (index_by_title_artist items) (index_by_title items) used track
    = Some picked ->
  normalize_text (or_empty (Plex.title picked)) = normalize_text (title track).
Proof.
  unfold pick. rewrite index_by_title_artist_lookup, index_by_title_lookup.
  destruct (first_unused used (List.filter _ items)) as [p|] eqn:Hexact.
  - intros [= ->]. apply first_unused_spec in Hexact as [Hin _].
    apply list_elem_of_In, filter_In in Hin as [_ Hkey].
    apply bool_decide_eq_true in Hkey. unfold item_key, normalize_key in Hkey.
    by injection Hkey.
  - intros [Hin _]%first_unused_spec.
    apply list_elem_of_In, filter_In in Hin as [_ Hkey].
    by apply bool_decide_eq_true in Hkey.
Qed.

(** When nothing is picked, every item with the record's normalised title
    has its rating key used. *)
Lemma pick_none items used track item :
  pick (index_by_title_artist items) (index_by_title items) used track = None ->
  item ∈ items ->
  normalize_text (or_empty (Plex.title item)) = normalize_text (title track) ->
  Plex.ratingKey item ∈ used.
Proof.
  unfold pick. rewrite index_by_title_lookup.
  destruct (first_unused used (default [] _)); [done|].
  intros Hnone Hin Htitle. apply (first_unused_none _ _ _ Hnone).
  apply list_elem_of_In, filter_In. split; [by apply list_elem_of_In|].
  by apply bool_decide_eq_true.
Qed.

Lemma match_fold_titles items tracks m seen matched :
  Forall2 same_title (selected m) matched ->
  sublist matched seen -> sublist (missing m) seen ->
  matched ++ missing m ≡ₚ seen ->
  let m' := fold_left
              (match_track (index_by_title_artist items) (index_by_title items))
              tracks m in
  exists matched',
    Forall2 same_title (selected m') matched'
    /\ sublist matched' (seen ++ tracks) /\ sublist (missing m') (seen ++ tracks)
    /\ matched' ++ missing m' ≡ₚ seen ++ tracks.
Proof.
  revert m seen matched.
  induction tracks as [|track tracks IH]; intros m seen matched Hsel Hma Hmi Hperm.
  - simpl. exists matched. by rewrite app_nil_r.
  - simpl. replace (seen ++ track :: tracks) with ((seen ++ [track]) ++ tracks)
      by by rewrite <- app_assoc.
    unfold match_track at 2 4 6.
    destruct (pick _ _ _ track) as [picked|] eqn:Hpick.
    + apply (IH _ _ (matched ++ [track])); simpl.
      * apply Forall2_app; [done|]. constructor; [|constructor].
        by eapply pick_title.
      * by apply sublist_app.
      * by apply sublist_inserts_r.
      * rewrite <- Hperm, <- !app_assoc. apply Permutation_app_head, Permutation_app_comm.
    + apply (IH _ _ matched); simpl.
      * done.
      * by apply sublist_inserts_r.
      * by apply sublist_app.
      * by rewrite app_assoc, Hperm.
Qed.

(** X1. The selected items follow the imported order. The imported list
    splits, order kept, into the records that were matched and the records
    reported missing, and the [i]-th selected item has the normalised title
    of the [i]-th matched record. *)
Theorem selected_follow_import items tracks :
  exists matched,
    Forall2 same_title (selected (match_all items tracks)) matched
    /\ sublist matched tracks
    /\ sublist (missing (match_all items tracks)) tracks
    /\ matched ++ missing (match_all items tracks) ≡ₚ tracks.
Proof.
  apply (match_fold_titles items tracks
           {| used_rating_keys := ∅; selected := []; missing := [] |} [] []);
    simpl; by constructor.
Qed.

(** What the loop keeps about the records it reports missing. *)
Lemma match_fold_missing items tracks m :
  (forall track item, track ∈ missing m -> item ∈ items ->
     same_title item track -> Plex.ratingKey item ∈ used_rating_keys m) ->
  let m' := fold_left
              (match_track (index_by_title_artist items) (index_by_title items))
              tracks m in
  forall track item, track ∈ missing m' -> item ∈ items ->
    same_title item track -> Plex.ratingKey item ∈ used_rating_keys m'.
Proof.
  revert m. induction tracks as [|t tracks IH]; intros m Hm; simpl; [done|].
  apply IH. unfold match_track.
  destruct (pick _ _ _ t) as [picked|] eqn:Hpick; simpl.
  - intros track item Htrack Hitem Hsame. apply elem_of_union. left.
    by eapply Hm.
  - intros track item [Htrack| ->%list_elem_of_singleton]%elem_of_app Hitem Hsame.
    + by eapply Hm.
    + by eapply pick_none.
Qed.

(** X2. A record is reported missing only when the playlist has nothing
    left for it: every playlist item with the record's normalised title
    holds a library track that was selected for some imported record. *)
Theorem missing_has_no_candidate items tracks track item :
  track ∈ missing_in_plex (build_reorder_plan items tracks) ->
  item ∈ items -> same_title item track ->
  exists s, s ∈ selected (match_all items tracks)
            /\ Plex.ratingKey s = Plex.ratingKey item.
Proof.
  intros Htrack Hitem Hsame.
  destruct items as [|i items]; [by apply elem_of_nil in Hitem|].
  destruct (match_all_inv (i :: items) tracks) as [_ _ _ Hused].
  assert (Plex.ratingKey item ∈ used_rating_keys (match_all (i :: items) tracks))
    as Hin.
  { eapply (match_fold_missing (i :: items) tracks); [|exact Htrack|done..].
    simpl. by intros ? ? ?%elem_of_nil. }
  apply Hused, list_elem_of_fmap in Hin as (s & Hkey & Hs). by exists s.
Qed.

(** X3. No library track is selected twice, and the number of matches is
    bounded by the playlist and by the import. *)
Theorem matches_bounded items tracks :
  NoDup (Plex.ratingKey <$> selected (match_all items tracks))
  /\ (matches (build_reorder_plan items tracks)
      <= current_count (build_reorder_plan items tracks))%nat
  /\ (matches (build_reorder_plan items tracks) <= length tracks)%nat.
Proof.
  destruct (match_all_inv items tracks) as [Hcount _ Hnodup _].
  split; [done|]. destruct items as [|i items]; simpl; [lia|]. split; [|lia].
  pose proof (submseteq_length _ _ (selected_submseteq (i :: items) tracks)) as Hle.
  pose proof (List.filter_length_le
                (fun item => negb (bool_decide
                   (Plex.ratingKey item ∉ used_rating_keys
                      (match_all (i :: items) tracks)))) (i :: items)) as Hf.
  simpl in *. lia.
Qed.

(** X4. The order of the plan is contained in the playlist as a multiset:
    no slot identifier is invented and none occurs more often than in the
    playlist. *)
Theorem order_within_playlist items tracks :
  new_order_ids (build_reorder_plan items tracks)
  ⊆+ Plex.playlistItemID <$> items.
Proof.
  rewrite new_order_ids_desired. apply fmap_submseteq, desired_submseteq.
Qed.

(** X5. When nothing is matched the plan leaves the playlist as it is. *)
Theorem no_match_keeps_order items tracks :
  matches (build_reorder_plan items tracks) = 0%nat ->
  new_order_ids (build_reorder_plan items tracks)
  = Plex.playlistItemID <$> items.
Proof.
  intros Hnone. rewrite new_order_ids_desired. f_equal. unfold desired.
  destruct (match_all_inv items tracks) as [_ Hsel _ Hused].
  assert (selected (match_all items tracks) = []) as Hempty.
  { destruct items as [|i items].
    - destruct (selected (match_all [] tracks)) as [|s sel]; [done|].
      apply Forall_cons in Hsel as [Hs _]. by apply elem_of_nil in Hs.
    - simpl in Hnone. by apply length_zero_iff_nil. }
  rewrite Hempty in *. simpl.
  apply filter_all, Forall_forall. intros x _. apply bool_decide_eq_true.
  intros Hx%Hused. by apply elem_of_nil in Hx.
Qed.

Lemma pick_same_keys by_title_artist by_title used track track' :
  normalize_key (title track) (artist track)
  = normalize_key (title track') (artist track') ->
  pick by_title_artist by_title used track
  = pick by_title_artist by_title used track'.
Proof.
  intros Hkey. unfold pick. cbv zeta. rewrite Hkey.
  unfold normalize_key in Hkey. injection Hkey as Htitle _. by rewrite Htitle.
Qed.

Lemma match_fold_same_keys by_title_artist by_title tracks tracks' m m' :
  Forall2 (fun t t' => normalize_key (title t) (artist t)
                       = normalize_key (title t') (artist t')) tracks tracks' ->
  used_rating_keys m = used_rating_keys m' -> selected m = selected m' ->
  length (missing m) = length (missing m') ->
  let r := fold_left (match_track by_title_artist by_title) tracks m in
  let r' := fold_left (match_track by_title_artist by_title) tracks' m' in
  used_rating_keys r = used_rating_keys r' /\ selected r = selected r'
  /\ length (missing r) = length (missing r').
Proof.
  intros Hall. revert m m'.
  induction Hall as [|t t' tracks tracks' Hkey _ IH]; intros m m' Hused Hsel Hmiss;
    [done|].
  cbn [fold_left]. apply IH; unfold match_track;
    rewrite (pick_same_keys _ _ _ t t' Hkey), Hused;
    destruct (pick _ _ _ t'); cbn [used_rating_keys selected missing];
    rewrite ?length_app; cbn [length]; congruence.
Qed.

(** X7. The matcher reads an imported record only through its normalised
    title and artist: two imports whose records agree, one by one, on
    both give the same matches, the same new order and equally many
    missing records. *)
Theorem plan_depends_on_keys items tracks tracks' :
  Forall2 (fun t t' => normalize_key (title t) (artist t)
                       = normalize_key (title t') (artist t')) tracks tracks' ->
  matches (build_reorder_plan items tracks)
  = matches (build_reorder_plan items tracks')
  /\ new_order_ids (build_reorder_plan items tracks)
     = new_order_ids (build_reorder_plan items tracks')
  /\ new_order_titles (build_reorder_plan items tracks)
     = new_order_titles (build_reorder_plan items tracks')
  /\ length (missing_in_plex (build_reorder_plan items tracks))
     = length (missing_in_plex (build_reorder_plan items tracks')).
Proof.
  intros Hall. destruct items as [|i items].
  - simpl. split; [done|]. split; [done|]. split; [done|].
    by eapply Forall2_length.
  - unfold build_reorder_plan. cbv zeta.
    cbn [matches new_order_ids new_order_titles missing_in_plex].
    destruct (match_fold_same_keys
                (index_by_title_artist (i :: items))
                (index_by_title (i :: items)) tracks tracks'
                {| used_rating_keys := ∅; selected := []; missing := [] |}
                {| used_rating_keys := ∅; selected := []; missing := [] |}
                Hall eq_refl eq_refl eq_refl) as (Hused & Hsel & Hmiss).
    unfold match_all. by rewrite Hused, Hsel, Hmiss.
Qed.

End MatcherMore.

Lemma plan_depends_on_keys_witness :
  matches (build_reorder_plan (U := ucd_latin) Examples.playlist
             [Examples.yesterday])
  = matches (build_reorder_plan (U := ucd_latin) Examples.playlist
               [ {| title := py "  YESTERDAY "; artist := py "the  beatles" |} ])
  /\ new_order_ids (build_reorder_plan (U := ucd_latin) Examples.playlist
                      [Examples.yesterday])
     = new_order_ids
         (build_reorder_plan (U := ucd_latin) Examples.playlist
            [ {| title := py "  YESTERDAY "; artist := py "the  beatles" |} ])
  /\ new_order_titles (build_reorder_plan (U := ucd_latin) Examples.playlist
                         [Examples.yesterday])
     = new_order_titles
         (build_reorder_plan (U := ucd_latin) Examples.playlist
            [ {| title := py "  YESTERDAY "; artist := py "the  beatles" |} ])
  /\ length (missing_in_plex
               (build_reorder_plan (U := ucd_latin) Examples.playlist
                  [Examples.yesterday]))
     = length (missing_in_plex
                 (build_reorder_plan (U := ucd_latin) Examples.playlist
                    [ {| title := py "  YESTERDAY ";
                         artist := py "the  beatles" |} ])).
Proof.
  apply (plan_depends_on_keys (U := ucd_latin)).
  constructor; [by vm_compute | constructor].
Defined.

Lemma missing_has_no_candidate_witness :
  exists s,
    s ∈ selected (match_all (U := ucd_latin)
                    [Examples.slot 1; Examples.slot 2]
                    [Examples.yesterday; Examples.yesterday])
    /\ Plex.ratingKey s = 5%Z.
Proof.
  apply (missing_has_no_candidate (U := ucd_latin)
           [Examples.slot 1; Examples.slot 2]
           [Examples.yesterday; Examples.yesterday]
           Examples.yesterday (Examples.slot 2)).
  - vm_compute. apply list_elem_of_here.
  - apply list_elem_of_further, list_elem_of_here.
  - by vm_compute.
Defined.

(** Two imported records, neither of them in the playlist. *)
Lemma no_match_keeps_order_witness :
  new_order_ids
    (build_reorder_plan (U := ucd_latin) Examples.playlist
       [ {| title := py "Help!"; artist := py "The Beatles" |};
         {| title := py "Imagine"; artist := py "John Lennon" |} ])
  = [1%Z; 2%Z; 3%Z].
Proof.
  apply (no_match_keeps_order (U := ucd_latin) Examples.playlist
           [ {| title := py "Help!"; artist := py "The Beatles" |};
             {| title := py "Imagine"; artist := py "John Lennon" |} ]).
  by vm_compute.
Defined.

Lemma new_order_permutation_witness :
  new_order_ids
    (build_reorder_plan (U := ucd_latin)
       [Examples.hallelujah "Jeff Buckley" 7 1; Examples.slot 2]
       [Examples.yesterday])
  ≡ₚ [1%Z; 2%Z].
Proof.
  apply (new_order_permutation (U := ucd_latin)
           [Examples.hallelujah "Jeff Buckley" 7 1; Examples.slot 2]
           [Examples.yesterday]).
  by apply (bool_decide_unpack _).
Defined.

(** ** Applicator: the moves of a plan and what they do *)

Section ApplicatorMore.
Context {U : UnicodeData}.

Lemma items_by_id_fold_other items (d : gmap Z Plex.Item) k :
  k ∉ Plex.playlistItemID <$> items ->
  fold_left (fun d item => <[Plex.playlistItemID item := item]> d) items d !! k
  = d !! k.
Proof.
  revert d. induction items as [|a items IH]; intros d Hk; simpl; [done|].
  rewrite fmap_cons in Hk. apply not_elem_of_cons in Hk as [Hne Hk].
  rewrite IH by done. by rewrite lookup_insert_ne.
Qed.

(** With distinct slot identifiers the map of live items gives back every
    item of the playlist at its own identifier. *)
Lemma items_by_id_lookup items item :
  NoDup (Plex.playlistItemID <$> items) -> item ∈ items ->
  items_by_id items !! Plex.playlistItemID item = Some item.
Proof.
  unfold items_by_id. generalize (∅ : gmap Z Plex.Item).
  induction items as [|a items IH]; intros d Hnd Hin; simpl.
  - by apply elem_of_nil in Hin.
  - rewrite fmap_cons in Hnd. apply NoDup_cons in Hnd as [Ha Hnd].
    apply elem_of_cons in Hin as [->|Hin].
    + rewrite items_by_id_fold_other by done. by rewrite lookup_insert_eq.
    + by apply IH.
Qed.

Lemma resolve_own_items items l :
  NoDup (Plex.playlistItemID <$> items) -> Forall (fun i => i ∈ items) l ->
  resolve (items_by_id items) (Plex.playlistItemID <$> l) = l.
Proof.
  intros Hnd. unfold resolve. induction 1 as [|i l Hi _ IH]; simpl; [done|].
  rewrite items_by_id_lookup by done. f_equal. exact IH.
Qed.

Lemma desired_in_playlist items tracks :
  Forall (fun i => i ∈ items) (desired items tracks).
Proof.
  apply Forall_forall. intros i Hi.
  by apply (elem_of_submseteq _ _ _ Hi), desired_submseteq.
Qed.

(** X8. With distinct slot identifiers, [reorder] makes one move for each
    entry of the plan, in the plan's order: the first item to the head,
    every other one after its predecessor in the plan. *)
Theorem reorder_covers_plan items tracks :
  NoDup (Plex.playlistItemID <$> items) ->
  calls (move_loop (items_by_id items)
           (new_order_ids (build_reorder_plan items tracks)))
  = moves_of (desired items tracks)
  /\ length (calls (move_loop (items_by_id items)
               (new_order_ids (build_reorder_plan items tracks))))
     = length (new_order_ids (build_reorder_plan items tracks)).
Proof.
  intros Hnd. rewrite new_order_ids_desired. unfold move_loop.
  destruct (move_fold_calls (items_by_id items)
              (Plex.playlistItemID <$> desired items tracks)
              {| previous := None; calls := [] |}) as [-> _].
  simpl. rewrite resolve_own_items by (done || apply desired_in_playlist).
  split; [done|]. rewrite length_fmap.
  destruct (desired items tracks) as [|x l]; [done|]. simpl. f_equal.
  generalize x. induction l as [|y l IH]; intros z; simpl; [done|].
  by rewrite IH.
Qed.

End ApplicatorMore.

Section ServerFacts.
Import Server.

Implicit Types (l p rest : list Plex.Item) (x : Plex.Item).

(** With distinct rating keys an item of the fetched list resolves to its
    own slot. *)
Lemma getPlaylistItemID_elem x l :
  NoDup (Plex.ratingKey <$> l) -> x ∈ l ->
  getPlaylistItemID l x = Some (Plex.playlistItemID x).
Proof.
  intros Hkeys Hx. unfold getPlaylistItemID.
  destruct (List.find _ l) as [i|] eqn:Hfind; simpl.
  - apply find_some in Hfind as [Hi%list_elem_of_In Hkey%bool_decide_eq_true].
    by rewrite (NoDup_fmap_inj Plex.ratingKey l i x Hkeys Hi Hx Hkey).
  - apply find_none with (x := x) in Hfind; [|by apply list_elem_of_In].
    by apply bool_decide_eq_false in Hfind.
Qed.

(** With distinct slot identifiers the slot of an item holds that item,
    in every list of items of the playlist. *)
Lemma slot_elem x l k :
  NoDup (Plex.playlistItemID <$> l) -> Forall (fun i => i ∈ l) k ->
  x ∈ l -> x ∈ k -> slot (Plex.playlistItemID x) k = Some x.
Proof.
  intros Hids Hk Hxl Hxk. unfold slot.
  destruct (List.find _ k) as [i|] eqn:Hfind.
  - apply find_some in Hfind as [Hi%list_elem_of_In Hid%bool_decide_eq_true].
    rewrite Forall_forall in Hk.
    by rewrite (NoDup_fmap_inj Plex.playlistItemID l i x Hids (Hk i Hi) Hxl Hid).
  - apply find_none with (x := x) in Hfind; [|by apply list_elem_of_In].
    by apply bool_decide_eq_false in Hfind.
Qed.

Lemma others_within p l : Forall (fun i => i ∈ l) (others p l).
Proof.
  apply Forall_forall. intros i Hi%list_elem_of_In.
  apply filter_In in Hi as [Hi _]. by apply list_elem_of_In.
Qed.

Lemma take_out_absent id l :
  id ∉ Plex.playlistItemID <$> l -> Server.take_out id l = l.
Proof.
  intros Hid. apply filter_all, Forall_forall. intros i Hi.
  apply negb_true_iff, bool_decide_eq_false. intros <-.
  apply Hid, list_elem_of_fmap. by exists i.
Qed.

Lemma put_after_last p0 prev x rest :
  Plex.playlistItemID prev ∉ Plex.playlistItemID <$> p0 ->
  Server.put_after (Plex.playlistItemID prev) x (p0 ++ prev :: rest)
  = Some (p0 ++ prev :: x :: rest).
Proof.
  induction p0 as [|a p0 IH]; intros Hp; simpl.
  - by rewrite bool_decide_eq_true_2.
  - rewrite fmap_cons in Hp. apply not_elem_of_cons in Hp as [Hne Hp].
    rewrite bool_decide_eq_false_2 by done. by rewrite IH.
Qed.

Lemma filter_filter_bool {A} (f g : A -> bool) (k : list A) :
 
  List.filter f (List.filter g k) = List.filter (fun a => g a && f a) k.
Proof.
  induction k as [|a k IH]; simpl; [done|].
  destruct (g a); simpl; [|done]. by rewrite IH.
Qed.

Lemma take_out_others l p x :
  NoDup (Plex.playlistItemID <$> l) -> x ∈ l ->
  Server.take_out (Plex.playlistItemID x) (others p l) = others (p ++ [x]) l.
Proof.
  intros Hnd Hx. unfold Server.take_out, others. rewrite filter_filter_bool.
  apply List.filter_ext_in. intros i Hi%list_elem_of_In.
  destruct (decide (i ∈ p)) as [Hp|Hp].
  - rewrite (bool_decide_eq_true_2 (i ∈ p)) by done.
    rewrite (bool_decide_eq_true_2 (i ∈ p ++ [x])); [done|].
    apply elem_of_app. by left.
  - rewrite (bool_decide_eq_false_2 (i ∈ p)) by done. simpl.
    f_equal. apply bool_decide_ext. rewrite elem_of_app, list_elem_of_singleton.
    split.
    + intros Hid. right. by eapply NoDup_fmap_inj.
    + by intros [?| ->].
Qed.

Lemma others_elem p l x : x ∈ l -> x ∉ p -> x ∈ others p l.
Proof.
  intros Hl Hp. apply list_elem_of_In, filter_In.
  split; [by apply list_elem_of_In|].
  by apply negb_true_iff, bool_decide_eq_false.
Qed.

(** The moves that follow the head move keep the moved items in front, in
    order, and the others behind them as they were. *)
Lemma moves_following_spec l p prev r :
  NoDup (Plex.playlistItemID <$> l) -> NoDup (Plex.ratingKey <$> l) ->
  NoDup ((p ++ [prev]) ++ r) ->
  Forall (fun i => i ∈ l) ((p ++ [prev]) ++ r) ->
  Server.moves l ((p ++ [prev]) ++ others (p ++ [prev]) l)
    (moves_following prev r)
  = Some (((p ++ [prev]) ++ r) ++ others ((p ++ [prev]) ++ r) l).
Proof.
  intros Hnd Hkeys. revert p prev.
  induction r as [|x r IH]; intros p prev Hr Hin.
  - simpl. by rewrite !app_nil_r.
  - cbn [moves_following moves move].
    assert (x ∈ l) as Hxl.
    { rewrite Forall_forall in Hin. apply Hin. set_solver. }
    assert (prev ∈ l) as Hprevl.
    { rewrite Forall_forall in Hin. apply Hin. set_solver. }
    assert (x ∉ p ++ [prev]) as Hxp.
    { apply NoDup_app in Hr as (_ & Hdisj & _). intros Hx.
      apply (Hdisj x Hx). by left. }
    assert (Forall (fun i => i ∈ l) (p ++ [prev])) as Hpl.
    { by apply Forall_app in Hin as [? _]. }
    assert (forall i, i ∈ p ++ [prev] ->
                      Plex.playlistItemID i <> Plex.playlistItemID x) as Hids.
    { intros i Hi Hid. rewrite Forall_forall in Hpl.
      assert (i = x) as ->
        by (apply (NoDup_fmap_inj Plex.playlistItemID l i x Hnd); auto).
      done. }
    rewrite !getPlaylistItemID_elem by done.
    rewrite (slot_elem x l); [|done| |done|].
    2:{ apply Forall_app_2; [done | apply others_within]. }
    2:{ apply elem_of_app. right. by apply others_elem. }
    unfold Server.take_out. rewrite List.filter_app.
    fold (Server.take_out (Plex.playlistItemID x) (p ++ [prev])).
    fold (Server.take_out (Plex.playlistItemID x) (others (p ++ [prev]) l)).
    rewrite take_out_absent.
    2:{ intros (i & Hid & Hi)%list_elem_of_fmap. by apply (Hids i). }
    rewrite take_out_others by done.
    rewrite <- (app_assoc p [prev]). simpl.
    rewrite put_after_last.
    2:{ intros (i & Hid & Hi)%list_elem_of_fmap.
        assert (i = prev) as ->.
        { rewrite Forall_forall in Hpl.
          apply (NoDup_fmap_inj Plex.playlistItemID l i prev Hnd); [|done..].
          apply Hpl. set_solver. }
        apply NoDup_app in Hr as (Hp & _ & _).
        apply NoDup_app in Hp as (_ & Hdisj & _). apply (Hdisj prev Hi). by left. }
    replace (p ++ prev :: x :: others ((p ++ [prev]) ++ [x]) l)
      with (((p ++ [prev]) ++ [x]) ++ others ((p ++ [prev]) ++ [x]) l)
      by (by rewrite <- !app_assoc).
    rewrite (IH (p ++ [prev]) x).
    + by rewrite <- !app_assoc.
    + by rewrite <- !app_assoc in *.
    + by rewrite <- !app_assoc in *.
Qed.

(** The moves of an order [r] without repeats, on the playlist [l]: the
    items of [r] come to the front in the order of [r]. *)
Lemma moves_of_spec l r :
  NoDup (Plex.playlistItemID <$> l) -> NoDup (Plex.ratingKey <$> l) ->
  NoDup r -> Forall (fun i => i ∈ l) r ->
  moves l l (moves_of r) = Some (r ++ others r l).
Proof.
  intros Hnd Hkeys Hr Hin. destruct r as [|x r]; cbn [moves_of moves move].
  - f_equal. symmetry. apply filter_all, Forall_forall. intros i _.
    apply negb_true_iff, bool_decide_eq_false. apply not_elem_of_nil.
  - assert (x ∈ l) as Hx by by apply Forall_cons in Hin as [? _].
    rewrite getPlaylistItemID_elem by done.
    rewrite (slot_elem x l l) by (done || by apply Forall_forall).
    assert (take_out (Plex.playlistItemID x) l = others [x] l) as ->.
    { pose proof (take_out_others l [] x Hnd Hx) as Hout. simpl in Hout.
      rewrite <- Hout. f_equal. symmetry.
      apply filter_all, Forall_forall. intros i _.
      apply negb_true_iff, bool_decide_eq_false. apply not_elem_of_nil. }
    apply (moves_following_spec l [] x r); done.
Qed.

End ServerFacts.

Lemma filter_none {A} (f : A -> bool) (k : list A) :
  (forall a, a ∈ k -> f a = false) -> List.filter f k = [].
Proof.
  induction k as [|a k IH]; intros Hk; simpl; [done|].
  rewrite (Hk a) by left. apply IH. intros b Hb. apply Hk. by right.
Qed.

Section RealisePlan.
Context {U : UnicodeData}.

Lemma desired_NoDup items tracks :
  NoDup items -> NoDup (desired items tracks).
Proof.
  intros Hitems. unfold desired.
  destruct (match_all_inv items tracks) as [_ Hsel Hnodup Hused].
  apply NoDup_app. split; [by apply NoDup_fmap_1 in Hnodup|]. split.
  - intros x Hx Htrail. apply list_elem_of_In, filter_In in Htrail as [_ Hfree].
    apply bool_decide_eq_true in Hfree. apply Hfree, Hused, list_elem_of_fmap.
    by exists x.
  - by apply NoDup_ListNoDup, List.NoDup_filter, NoDup_ListNoDup.
Qed.

(** With distinct rating keys every item of the playlist is in the plan's
    order. *)
Lemma desired_covers items tracks x :
  NoDup (Plex.ratingKey <$> items) -> x ∈ items -> x ∈ desired items tracks.
Proof.
  intros Hitems Hx. unfold desired.
  destruct (match_all_inv items tracks) as [_ Hsel _ Hused].
  apply elem_of_app.
  destruct (decide (Plex.ratingKey x ∈ used_rating_keys (match_all items tracks)))
    as [Hin|Hout].
  - left. apply Hused, list_elem_of_fmap in Hin as (s & Hkey & Hs).
    assert (s ∈ items) as Hsin by (rewrite Forall_forall in Hsel; by apply Hsel).
    by rewrite (NoDup_fmap_inj Plex.ratingKey items x s Hitems Hx Hsin Hkey).
  - right. apply list_elem_of_In, filter_In.
    split; [by apply list_elem_of_In | by apply bool_decide_eq_true].
Qed.

(** X9. What [reorder] does to the playlist. With distinct slot
    identifiers and no library track twice in the playlist, every move of
    the loop is accepted, and afterwards the playlist holds the items it
    held before, in the plan's order. *)
Theorem reorder_realises_plan items tracks :
  NoDup (Plex.playlistItemID <$> items) ->
  NoDup (Plex.ratingKey <$> items) ->
  let ordered_ids := new_order_ids (build_reorder_plan items tracks) in
  let made := calls (move_loop (items_by_id items) ordered_ids) in
  exists final,
    Server.moves items items made = Some final
    /\ Plex.playlistItemID <$> final = ordered_ids
    /\ final ≡ₚ items.
Proof.
  intros Hnd Hkeys ordered_ids made.
  assert (Server.others (desired items tracks) items = []) as Hnone.
  { unfold Server.others. apply (filter_none _ items). intros x Hx.
    apply negb_false_iff, bool_decide_eq_true.
    by apply desired_covers. }
  assert (NoDup (desired items tracks)) as Hdes
    by (apply desired_NoDup; by apply NoDup_fmap_1 in Hnd).
  exists (desired items tracks). split; [|split].
  - subst made ordered_ids. rewrite new_order_ids_desired. unfold move_loop.
    destruct (move_fold_calls (items_by_id items)
                (Plex.playlistItemID <$> desired items tracks)
                {| previous := None; calls := [] |}) as [-> _].
    simpl. rewrite resolve_own_items by (done || apply desired_in_playlist).
    rewrite moves_of_spec by (done || apply desired_in_playlist).
    by rewrite Hnone, app_nil_r.
  - subst ordered_ids. by rewrite new_order_ids_desired.
  - apply NoDup_Permutation; [done | by apply NoDup_fmap_1 in Hnd|].
    intros x. split.
    + intros Hx. pose proof (desired_in_playlist items tracks) as Hin.
      rewrite Forall_forall in Hin. by apply Hin.
    + by apply desired_covers.
Qed.

End RealisePlan.

Lemma reorder_covers_plan_witness :
  calls (move_loop (items_by_id Examples.playlist)
           (new_order_ids
              (build_reorder_plan (U := ucd_latin)
                 Examples.playlist Examples.imported)))
  = moves_of (desired (U := ucd_latin) Examples.playlist Examples.imported)
  /\ desired (U := ucd_latin) Examples.playlist Examples.imported
     = [Examples.slot 2; Examples.hallelujah "Leonard Cohen" 8 3;
        Examples.hallelujah "Jeff Buckley" 7 1].
Proof.
  split; [|by vm_compute].
  apply (reorder_covers_plan (U := ucd_latin) Examples.playlist Examples.imported).
  by apply (bool_decide_unpack _).
Defined.

Lemma reorder_realises_plan_witness :
  exists final,
    Server.moves Examples.playlist Examples.playlist
      (calls (move_loop (items_by_id Examples.playlist)
                (new_order_ids
                   (build_reorder_plan (U := ucd_latin)
                      Examples.playlist Examples.imported))))
    = Some final
    /\ Plex.playlistItemID <$> final = [2%Z; 3%Z; 1%Z]
    /\ final ≡ₚ Examples.playlist.
Proof.
  apply (reorder_realises_plan (U := ucd_latin)
           Examples.playlist Examples.imported).
  - by apply (bool_decide_unpack _).
  - by apply (bool_decide_unpack _).
Defined.

(** ** Decoder: which encoding wins *)

Section DecoderMore.
Import Codecs ExportFile.

Lemma byte_of_to_N n : n < 0x100 -> Byte.to_N (byte_of n) = n.
Proof.
  intros Hn. unfold byte_of. destruct (Byte.of_N n) as [b|] eqn:Hb; simpl.
  - by apply Strings.Byte.to_of_N.
  - apply Strings.Byte.of_N_None_iff in Hb. lia.
Qed.

Lemma utf16_join_plain us :
  Forall (fun u => u < 0xD800) us -> utf16_join us = Ok us.
Proof.
  induction 1 as [|u us Hu _ IH]; simpl; [done|].
  unfold Latin.in_range.
  rewrite (proj2 (N.leb_gt 0xD800 u)), (proj2 (N.leb_gt 0xDC00 u)) by lia.
  simpl. by rewrite IH.
Qed.

(** An odd number of bytes is never UTF-16. *)
Lemma utf16_units_odd big k raw :
  length raw = S (2 * k) -> utf16_units big raw = Raise UnicodeDecodeError.
Proof.
  revert raw. induction k as [|k IH]; intros raw Hlen.
  - by destruct raw as [|b0 [|b1 raw]].
  - destruct raw as [|b0 [|b1 raw]]; try done. simpl in *.
    rewrite IH by lia. done.
Qed.

Lemma utf16_units_ascii k raw :
  length raw = (2 * k)%nat -> Forall (fun b => b < 0x80) raw ->
  exists us, utf16_units false raw = Ok us /\ length us = k
             /\ Forall (fun u => u < 0xD800) us.
Proof.
  revert raw. induction k as [|k IH]; intros raw Hlen Hraw.
  - destruct raw; [|done]. by exists [].
  - destruct raw as [|b0 [|b1 raw]]; try (simpl in Hlen; lia).
    apply Forall_cons in Hraw as [H0 [H1 Hraw]%Forall_cons].
    destruct (IH raw) as (us & Hus & Hlenus & Hsmall); [simpl in Hlen; lia|done|].
    exists ((b1 * 0x100 + b0) :: us). simpl. rewrite Hus. simpl.
    split; [done|]. split; [by rewrite Hlenus|]. constructor; [lia|done].
Qed.

(** A text that starts with a byte below 0x80 carries no byte-order
    mark. *)
Lemma utf16_decode_no_bom raw :
  (forall b, head raw = Some b -> b < 0x80) ->
  utf16_decode raw = utf16_units false raw ≫= utf16_join.
Proof.
  intros Hhead. destruct raw as [|b0 raw]; [done|].
  specialize (Hhead b0 eq_refl). unfold utf16_decode.
  destruct b0 as [|p]; [done|].
  do 8 (destruct p as [p|p|]; try done; try lia).
Qed.

Lemma utf8_sig_decode_no_bom raw :
  (forall b, head raw = Some b -> b < 0x80) ->
  utf8_sig_decode raw = utf8_decode Strict raw.
Proof.
  intros Hhead. destruct raw as [|b0 raw]; [done|].
  specialize (Hhead b0 eq_refl). unfold utf8_sig_decode.
  destruct b0 as [|p]; [done|].
  do 8 (destruct p as [p|p|]; try done; try lia).
Qed.

Lemma utf8_decode_ascii raw :
  Forall (fun b => b < 0x80) raw -> utf8_decode Strict raw = Ok raw.
Proof.
  induction 1 as [|b raw Hb _ IH]; simpl; [done|].
  rewrite (proj2 (N.ltb_lt b 0x80)) by done. by rewrite IH.
Qed.

Lemma ascii_head (raw : list Byte.byte) :
  ascii raw -> forall b, head (List.map Byte.to_N raw) = Some b -> b < 0x80.
Proof.
  intros Hraw b. destruct raw as [|b0 raw]; [done|]. simpl. intros [= <-].
  by apply Forall_cons in Hraw as [? _].
Qed.

Lemma ascii_to_N (raw : list Byte.byte) :
  ascii raw -> Forall (fun b => b < 0x80) (List.map Byte.to_N raw).
Proof. intros Hraw. by apply List.Forall_map. Qed.

(** X10. An ASCII file with an even number of bytes is read as UTF-16:
    each pair of bytes becomes one code point, so a non-empty file never
    comes out as the text it holds. *)
Theorem even_ascii_read_as_utf16 (raw : list Byte.byte) k :
  ascii raw -> length raw = (2 * k)%nat ->
  exists text,
    decode_uploaded_bytes raw = Ok text
    /\ utf16_units false (List.map Byte.to_N raw) = Ok text
    /\ length text = k.
Proof.
  intros Hraw Hlen.
  destruct (utf16_units_ascii k (List.map Byte.to_N raw)) as (us & Hus & Hk & Hsmall);
    [by rewrite List.length_map | by apply ascii_to_N |].
  exists us. split; [|done].
  unfold decode_uploaded_bytes. cbn [decode_first]. unfold bytes_decode at 1.
  cbv zeta. rewrite utf16_decode_no_bom by by apply ascii_head.
  rewrite Hus. unfold mbind, result_mbind. cbn [result_bind].
  by rewrite utf16_join_plain.
Qed.

(** X11. An ASCII file with an odd number of bytes is read as the text it
    holds: UTF-16 is refused and UTF-8 accepts it. *)
Theorem odd_ascii_read_as_text (raw : list Byte.byte) k :
  ascii raw -> length raw = S (2 * k) ->
  decode_uploaded_bytes raw = Ok (List.map Byte.to_N raw).
Proof.
  intros Hraw Hlen.
  unfold decode_uploaded_bytes. cbn [decode_first]. unfold bytes_decode at 1.
  cbv zeta. rewrite utf16_decode_no_bom by by apply ascii_head.
  rewrite (utf16_units_odd false k) by by rewrite List.length_map.
  unfold mbind, result_mbind. cbn [result_bind]. unfold bytes_decode at 1.
  cbv zeta. rewrite utf8_sig_decode_no_bom by by apply ascii_head.
  by rewrite utf8_decode_ascii by by apply ascii_to_N.
Qed.

Lemma utf16_units_export us :
  Forall (fun u => u < 0x10000) us ->
  utf16_units false (List.map Byte.to_N (flat_map le_bytes_of us)) = Ok us.
Proof.
  induction 1 as [|u us Hu _ IH]; [done|].
  cbn [flat_map le_bytes_of app List.map utf16_units].
  assert (u mod 0x100 < 0x100) as Hlow by by apply N.mod_lt.
  assert (u / 0x100 < 0x100) as Hhigh
    by (apply N.Div0.div_lt_upper_bound; lia).
  rewrite IH, !byte_of_to_N by done.
  simpl. f_equal. f_equal. pose proof (N.div_mod' u 0x100). lia.
Qed.

Lemma utf16_units_of_small text :
  Forall (fun c => scalar c = true) text ->
  Forall (fun u => u < 0x10000) (flat_map utf16_units_of text).
Proof.
  induction 1 as [|c text Hc _ IH]; simpl; [constructor|].
  apply Forall_app. split; [|done]. unfold utf16_units_of, scalar in *.
  apply andb_true_iff in Hc as [Hc%N.ltb_lt _].
  assert ((c - 0x10000) / 0x400 < 0x400) as Hhigh
    by (apply N.Div0.div_lt_upper_bound; lia).
  assert ((c - 0x10000) mod 0x400 < 0x400) as Hlow by by apply N.mod_lt.
  set (q := (c - 0x10000) / 0x400) in *.
  set (r := (c - 0x10000) mod 0x400) in *.
  destruct (N.ltb_spec c 0x10000).
  - constructor; [done|constructor].
  - constructor; [lia|]. constructor; [lia|constructor].
Qed.

Lemma in_range_false lo hi c : c < lo \/ hi < c -> Latin.in_range lo hi c = false.
Proof.
  intros Hc. unfold Latin.in_range. apply andb_false_iff.
  destruct Hc; [left | right]; by apply N.leb_gt.
Qed.

Lemma in_range_true lo hi c : lo <= c <= hi -> Latin.in_range lo hi c = true.
Proof.
  intros [? ?]. unfold Latin.in_range. apply andb_true_iff.
  split; by apply N.leb_le.
Qed.

Lemma scalar_spec c : scalar c = true -> c < 0x110000 /\ (c < 0xD800 \/ 0xDFFF < c).
Proof.
  unfold scalar, Latin.in_range.
  intros [Hc%N.ltb_lt Hs%negb_true_iff]%andb_true_iff. split; [done|].
  apply andb_false_iff in Hs as [Hs%N.leb_gt|Hs%N.leb_gt]; auto.
Qed.

Lemma utf16_join_export text :
  Forall (fun c => scalar c = true) text ->
  utf16_join (flat_map utf16_units_of text) = Ok text.
Proof.
  induction 1 as [|c text [Hc Hs]%scalar_spec _ IH]; [done|].
  cbn [flat_map]. unfold utf16_units_of at 1.
  destruct (N.ltb_spec c 0x10000) as [Hbmp|Hastral]; cbn [app utf16_join].
  - rewrite (in_range_false 0xD800 0xDBFF c), (in_range_false 0xDC00 0xDFFF c)
      by (destruct Hs; [left | right]; lia).
    by rewrite IH.
  - assert ((c - 0x10000) / 0x400 < 0x400) as Hhigh
      by (apply N.Div0.div_lt_upper_bound; lia).
    assert ((c - 0x10000) mod 0x400 < 0x400) as Hlow by by apply N.mod_lt.
    pose proof (N.div_mod' (c - 0x10000) 0x400) as Hdm.
    set (q := (c - 0x10000) / 0x400) in *.
    set (r := (c - 0x10000) mod 0x400) in *.
    rewrite (in_range_true 0xD800 0xDBFF), (in_range_true 0xDC00 0xDFFF) by lia.
    rewrite IH. simpl. f_equal. f_equal. lia.
Qed.

(** X12. Round trip of the export format. A text of Unicode scalar values
    written as UTF-16, little-endian with a byte-order mark, is decoded to
    that text. *)
Theorem utf16_export_round_trip text :
  Forall (fun c => scalar c = true) text ->
  decode_uploaded_bytes (utf16_le_bom text) = Ok text.
Proof.
  intros Htext. unfold decode_uploaded_bytes. cbn [decode_first].
  unfold bytes_decode at 1, utf16_le_bom. cbv zeta.
  cbn [app List.map]. change (Byte.to_N Byte.xff) with 0xFF.
  change (Byte.to_N Byte.xfe) with 0xFE. cbn [utf16_decode].
  rewrite utf16_units_export by by apply utf16_units_of_small.
  unfold mbind, result_mbind. cbn [result_bind].
  by rewrite utf16_join_export.
Qed.

End DecoderMore.

Lemma even_ascii_read_as_utf16_witness :
  exists text,
    decode_uploaded_bytes (list_byte_of_string "Name,Artist,") = Ok text
    /\ Codecs.utf16_units false
         (List.map Byte.to_N (list_byte_of_string "Name,Artist,")) = Ok text
    /\ length text = 6%nat.
Proof.
  apply (even_ascii_read_as_utf16 (list_byte_of_string "Name,Artist,") 6).
  - by apply (bool_decide_unpack _).
  - reflexivity.
Defined.

Lemma odd_ascii_read_as_text_witness :
  decode_uploaded_bytes ImportExamples.plain_line
  = Ok (List.map Byte.to_N ImportExamples.plain_line).
Proof.
  apply (odd_ascii_read_as_text ImportExamples.plain_line 11).
  - by apply (bool_decide_unpack _).
  - reflexivity.
Defined.

Lemma utf16_export_round_trip_witness :
  decode_uploaded_bytes
    (ExportFile.utf16_le_bom (py "Name" ++ [0x9; 0xC9; 0x1F3B5]))
  = Ok (py "Name" ++ [0x9; 0xC9; 0x1F3B5]).
Proof.
  apply utf16_export_round_trip. by apply (bool_decide_unpack _).
Defined.

(** ** Parser: what is rejected and how the fallback splits *)

Section ParserMore.
Context {U : UnicodeData}.

(** What follows a line boundary in [splitlines_from]: the rest of the
    text, less the LF of a CR LF. *)
Lemma splitlines_boundary c rest :
  match c, rest with
  | 0xD, 0xA :: rest' => splitlines_from [] rest'
  | _, _ => splitlines_from [] rest
  end = splitlines_from [] rest
  \/ exists rest', rest = 0xA :: rest'
       /\ match c, rest with
          | 0xD, 0xA :: rest' => splitlines_from [] rest'
          | _, _ => splitlines_from [] rest
          end = splitlines_from [] rest'.
Proof.
  destruct c as [|p]; [by left|].
  do 4 (destruct p as [p|p|]; try by left).
  destruct rest as [|c' rest']; [by left|].
  destruct c' as [|p]; [by left|].
  do 4 (destruct p as [p|p|]; try by left).
  right. by eexists.
Qed.

(** The lines of a text are made of the text's characters. *)
Lemma splitlines_from_elem n cur s line c :
  (length s <= n)%nat -> line ∈ splitlines_from cur s -> c ∈ line ->
  c ∈ cur \/ c ∈ s.
Proof.
  revert cur s. induction n as [|n IH]; intros cur [|a s] Hn; simpl in Hn;
    try lia.
  - simpl. destruct cur as [|b cur]; [by intros ?%elem_of_nil|].
    intros ->%list_elem_of_singleton Hc. rewrite elem_of_reverse in Hc. by left.
  - simpl. destruct cur as [|b cur]; [by intros ?%elem_of_nil|].
    intros ->%list_elem_of_singleton Hc. rewrite elem_of_reverse in Hc. by left.
  - cbn [splitlines_from]. destruct (is_linebreak a).
    + intros [->|Hline]%elem_of_cons Hc.
      * rewrite elem_of_reverse in Hc. by left.
      * right. right.
        destruct (splitlines_boundary a s) as [Heq|(s' & -> & Heq)];
          rewrite Heq in Hline.
        -- destruct (IH [] s ltac:(lia) Hline Hc) as [?%elem_of_nil|?]; done.
        -- simpl in Hn.
           destruct (IH [] s' ltac:(lia) Hline Hc) as [?%elem_of_nil|?];
             [done | by right].
    + intros Hline Hc.
      destruct (IH (a :: cur) s ltac:(lia) Hline Hc) as [[->|?]%elem_of_cons|?].
      * right. by left.
      * by left.
      * right. by right.
Qed.

(** X13. A text of nothing but whitespace parses to the empty list: the
    empty text, blank lines, spaces and tabs. *)
Theorem blank_text_parses_to_nothing text :
  Forall (fun c => is_space c = true) text ->
  parse_apple_playlist_text text = Ok [].
Proof.
  intros Hblank. unfold parse_apple_playlist_text.
  assert (List.filter (fun line => truthy (Some (strip line))) (splitlines text)
          = []) as ->; [|done].
  apply filter_none. intros line Hline.
  assert (strip line = []) as ->; [|done].
  apply strip_nil, Forall_forall. intros c Hc.
  destruct (splitlines_from_elem (length text) [] text line c) as [Hin|Hin];
    [done..| |].
  - by apply elem_of_nil in Hin.
  - rewrite Forall_forall in Hblank. by apply Hblank.
Qed.

(** The reader's first record is empty when the text starts with a line
    end. *)
Lemma reader_empty_first line lines delimiter :
  Csv.process_line delimiter Csv.parse_reset line = Ok Csv.parse_reset ->
  exists rows ending,
    Csv.reader_from delimiter Csv.parse_reset (line :: lines)
    = ([] :: rows, ending).
Proof.
  intros Hline. cbn [Csv.reader_from]. rewrite Hline. cbn.
  destruct (Csv.reader_from _ _ _). by eexists _, _.
Qed.

Lemma reader_leading_newline c rest delimiter :
  Csv.is_newline c = true ->
  exists rows ending, Csv.reader (c :: rest) delimiter = ([] :: rows, ending).
Proof.
  unfold Csv.is_newline, Csv.reader, Csv.stringio_lines.
  intros [->%N.eqb_eq| ->%N.eqb_eq]%orb_true_iff.
  - by apply reader_empty_first.
  - destruct rest as [|c' rest]; [by eexists _, _|].
    cbn [Csv.stringio_lines_from N.eqb Pos.eqb].
    destruct (N.eqb_spec c' 0xA) as [->|_]; by apply reader_empty_first.
Qed.

(** X14. A text that starts with a line end (CR or LF) parses to the empty
    list, whatever follows: the csv reader takes the empty first line for
    the header. *)
Theorem leading_blank_line_rejects c rest :
  Csv.is_newline c = true ->
  parse_apple_playlist_text (c :: rest) = Ok [].
Proof.
  intros Hc. unfold parse_apple_playlist_text.
  destruct (List.filter _ (splitlines (c :: rest))) as [|first_line lines];
    [done|].
  destruct (reader_leading_newline c rest
              (if char_in 9 first_line then 9
               else if char_in 59 first_line then 59 else 44) Hc)
    as (rows & ending & ->).
  done.
Qed.

(** X15. Records are returned only for a header with a title column: when
    the result is not empty, the text has a non-blank line, and the first
    record the csv reader gives, reading with the delimiter sniffed from
    the first such line, names a column whose normalised name is one of
    the title candidates. *)
Theorem records_need_title_column text records :
  parse_apple_playlist_text text = Ok records -> records <> [] ->
  exists first_line rest names rows ending,
    nonblank_lines text = first_line :: rest
    /\ Csv.reader text (sniffed_delimiter first_line)
       = (names :: rows, ending)
    /\ truthy (field (normalized_fields names) title_candidates) = true.
Proof.
  unfold parse_apple_playlist_text.
  fold (nonblank_lines text).
  destruct (nonblank_lines text) as [|first_line lines]; [by intros [= <-]|].
  fold (sniffed_delimiter first_line). fold title_candidates.
  unfold mbind, result_mbind, DictReader.fieldnames.
  destruct (Csv.reader text (sniffed_delimiter first_line))
    as [[|names rows] ending] eqn:Hreader; cbn [result_bind].
  - destruct ending; [done | by intros [= <-]].
  - destruct names as [|name names]; [by intros [= <-]|].
    destruct (truthy _) eqn:Htitle; cbn [negb]; [|by intros [= <-]].
    intros _ _. by exists first_line, lines, (name :: names), rows, ending.
Qed.

Lemma row_track_trimmed title_field artist_field row t :
  row_track title_field artist_field row = Some t ->
  strip (title t) = title t /\ strip (artist t) = artist t.
Proof.
  unfold row_track.
  destruct (strip (or_empty (mjoin (row !! title_field)))) as [|c s] eqn:Hs;
    [done|].
  intros [= <-]. simpl. split.
  - by rewrite <- Hs, strip_strip.
  - destruct (truthy artist_field); [apply strip_strip | done].
Qed.

Lemma line_track_trimmed line t :
  line_track line = Some t ->
  strip (title t) = title t /\ strip (artist t) = artist t.
Proof.
  unfold line_track. destruct (strip line) as [|c s] eqn:Hclean; [done|].
  destruct (split_once _ _) as [[a ti]|].
  - intros [= <-]. simpl. by rewrite !strip_strip.
  - intros [= <-]. simpl. split; [|done]. by rewrite <- Hclean, strip_strip.
Qed.

(** X16. Every record the Import Parser returns is trimmed: stripping its
    title or its artist changes nothing. *)
Theorem imported_fields_trimmed raw records :
  import_tracks raw = Ok records ->
  Forall (fun t => strip (title t) = title t /\ strip (artist t) = artist t)
    records.
Proof.
  unfold import_tracks. destruct (decode_uploaded_bytes raw) as [text|e]; [|done].
  cbn [mbind result_mbind result_bind]. unfold parse_apple_playlist_text.
  assert (forall lines,
            Forall (fun t => strip (title t) = title t
                             /\ strip (artist t) = artist t)
              (omap line_track lines)) as Hfallback.
  { intros lines. apply Forall_forall.
    intros t (line & _ & Ht)%list_elem_of_omap. by eapply line_track_trimmed. }
  assert (forall tf af rows,
            Forall (fun t => strip (title t) = title t
                             /\ strip (artist t) = artist t)
              (omap (row_track tf af) rows)) as Hrows.
  { intros tf af rows. apply Forall_forall.
    intros t (row & _ & Ht)%list_elem_of_omap. by eapply row_track_trimmed. }
  destruct (List.filter _ (splitlines text)) as [|first_line lines].
  { intros [= <-]. constructor. }
  set (reader := Csv.reader text _). unfold mbind, result_mbind.
  destruct (DictReader.fieldnames reader) as [[[|name names]|]|e];
    cbn [result_bind]; try done; try (intros [= <-]; constructor).
  destruct (negb (truthy _)); [intros [= <-]; constructor|].
  destruct (DictReader.rows reader) as [rows [e|]]; [done|].
  specialize (Hrows (or_empty (field (normalized_fields (name :: names))
      [py "name"; py "title"; py "track name"; py "nome"; py "titolo"]))
    (field (normalized_fields (name :: names))
      [py "artist"; py "artist name"; py "artista"]) rows).
  destruct (omap _ rows) as [|t parsed]; intros [= <-].
  - exact (Hfallback (first_line :: lines)).
  - exact Hrows.
Qed.

Lemma strip_prefix_app prefix rest : strip_prefix prefix (prefix ++ rest) = Some rest.
Proof.
  induction prefix as [|p prefix IH]; simpl; [by destruct rest|].
  by rewrite N.eqb_refl.
Qed.

Lemma split_once_none sep s a b :
  split_once sep s = None -> s <> a ++ sep ++ b.
Proof.
  revert a. induction s as [|c s IH]; intros a Hnone Hs.
  - destruct a, sep; done.
  - cbn [split_once] in Hnone.
    destruct a as [|c' a]; simpl in Hs.
    + rewrite Hs, strip_prefix_app in Hnone. done.
    + injection Hs as -> ->.
      destruct (strip_prefix sep (c' :: a ++ sep ++ b)); [done|].
      destruct (split_once sep (a ++ sep ++ b)) eqn:Hrec; [done|].
      by eapply IH.
Qed.

Lemma split_once_first sep s a b a' b' :
  split_once sep s = Some (a, b) -> s = a' ++ sep ++ b' ->
  (length a <= length a')%nat.
Proof.
  revert a a'. induction s as [|c s IH]; intros a a' Hsome Hs.
  - cbn [split_once] in Hsome. destruct (strip_prefix sep []); [|done].
    injection Hsome as <- <-. simpl. lia.
  - cbn [split_once] in Hsome.
    destruct (strip_prefix sep (c :: s)) as [rest|] eqn:Hp.
    + injection Hsome as <- <-. simpl. lia.
    + destruct a' as [|c' a']; simpl in Hs.
      * rewrite Hs, strip_prefix_app in Hp. done.
      * injection Hs as -> ->.
        destruct (split_once sep (a' ++ sep ++ b')) as [[a0 b0]|] eqn:Hrec;
          [|done].
        simpl in Hsome. injection Hsome as <- <-. simpl.
        specialize (IH a0 a' eq_refl eq_refl). lia.
Qed.

(** X17. The fallback loop, line by line. A line gives no record exactly
    when it is blank. A line that is not blank and has no separator gives
    its stripped text as the title, with an empty artist. A line with the
    separator is split at its first occurrence, artist before and title
    after, both stripped. *)
Theorem fallback_line line :
  match line_track line with
  | None => strip line = []
  | Some t =>
      strip line <> []
      /\ ((title t = strip line /\ artist t = []
           /\ forall a b, strip line <> a ++ py " - " ++ b)
          \/ exists a b,
               strip line = a ++ py " - " ++ b
               /\ title t = strip b /\ artist t = strip a
               /\ forall a' b', strip line = a' ++ py " - " ++ b' ->
                                (length a <= length a')%nat)
  end.
Proof.
  unfold line_track. destruct (strip line) as [|c s] eqn:Hclean; [done|].
  destruct (split_once (py " - ") (c :: s)) as [[a b]|] eqn:Hsplit;
    (split; [done|]).
  - right. exists a, b. split; [by apply split_once_spec|].
    split; [done|]. split; [done|]. intros a' b' Hs.
    by eapply split_once_first.
  - left. split; [done|]. split; [done|]. intros a b.
    by apply split_once_none.
Qed.

End ParserMore.

Lemma blank_text_parses_to_nothing_witness :
  parse_apple_playlist_text (U := ucd_latin) [0x20; 0x20; 0xA; 0x9; 0xD; 0xA]
  = Ok [].
Proof.
  apply (blank_text_parses_to_nothing (U := ucd_latin)).
  by apply (bool_decide_unpack _).
Defined.

Lemma leading_blank_line_rejects_witness :
  parse_apple_playlist_text (U := ucd_latin)
    (0xA :: py "Name" ++ [0x9] ++ py "Artist" ++ [0xA] ++ py "Help!"
         ++ [0x9] ++ py "The Beatles" ++ [0xA])
  = Ok [].
Proof. apply (leading_blank_line_rejects (U := ucd_latin)). reflexivity. Defined.

Lemma records_need_title_column_witness :
  exists first_line rest names rows ending,
    nonblank_lines (List.map Byte.to_N ImportExamples.table)
    = first_line :: rest
    /\ Csv.reader (List.map Byte.to_N ImportExamples.table)
         (sniffed_delimiter first_line)
       = (names :: rows, ending)
    /\ truthy
         (field (U := ucd_latin) (normalized_fields (U := ucd_latin) names)
            title_candidates)
       = true.
Proof.
  apply (records_need_title_column (U := ucd_latin)
           (List.map Byte.to_N ImportExamples.table)
           [ {| title := py "Yesterday"; artist := py "The Beatles" |};
             {| title := py "Help!"; artist := [] |} ]).
  - by vm_compute.
  - done.
Defined.

Lemma imported_fields_trimmed_witness :
  Forall (fun t => strip (title t) = title t /\ strip (artist t) = artist t)
    [ {| title := py "Yesterday"; artist := py "The Beatles" |};
      {| title := py "Help!"; artist := [] |} ].
Proof.
  apply (imported_fields_trimmed (U := ucd_latin) ImportExamples.table).
  by vm_compute.
Defined.

(** ** Normaliser: the whitespace of a normalised text *)

Section NormalizerMore.
Context {U : UnicodeData}.

Lemma sub_ws_spaced b s :
  (forall c, c ∈ sub_ws_from b s -> is_space c = true -> c = 0x20)
  /\ (forall i x y, sub_ws_from b s !! i = Some x ->
        sub_ws_from b s !! S i = Some y ->
        is_space x = true -> is_space y = false)
  /\ (b = true -> forall c, head (sub_ws_from b s) = Some c ->
        is_space c = false).
Proof.
  revert b. induction s as [|a s IH]; intros b.
  - simpl. split; [by intros ? ?%elem_of_nil|]. split; [done|done].
  - destruct (IH true) as (Hel & Hadj & Hhead).
    destruct (IH false) as (Hel' & Hadj' & _).
    change (sub_ws_from b (a :: s))
      with (if is_space a
            then if b then sub_ws_from true s else 0x20 :: sub_ws_from true s
            else a :: sub_ws_from false s).
    destruct (is_space a) eqn:Ha; [destruct b|].
    + done.
    + split; [|split; [|done]].
      * intros c [->|Hc]%elem_of_cons; [done|]. by apply Hel.
      * intros [|i] x y; cbn [lookup list_lookup].
        -- intros [= <-] Hy _. apply Hhead; [done|].
           by rewrite head_lookup.
        -- apply Hadj.
    + split; [|split].
      * intros c [->|Hc]%elem_of_cons; [congruence|]. by apply Hel'.
      * intros [|i] x y; cbn [lookup list_lookup].
        -- intros [= <-] _ ?. congruence.
        -- apply Hadj'.
      * intros _ c. cbn [head]. by intros [= <-].
Qed.

(** X18. The whitespace of a normalised text is in order: none at either
    end, every whitespace character is a single U+0020, and no two
    whitespace characters are next to each other. *)
Theorem normalized_whitespace text :
  strip (normalize_text text) = normalize_text text
  /\ (forall c, c ∈ normalize_text text -> is_space c = true -> c = 0x20)
  /\ (forall i x y, normalize_text text !! i = Some x ->
        normalize_text text !! S i = Some y ->
        is_space x = true -> is_space y = false).
Proof.
  destruct text as [|c0 text].
  - simpl. split; [done|]. split; [by intros ? ?%elem_of_nil | done].
  - unfold normalize_text. cbv zeta. split; [apply tidy_fixed|].
    unfold re_sub_ws.
    destruct (sub_ws_spaced false
                (strip (Unicode.lower
                          (List.filter (fun ch => negb (Unicode.combining ch))
                                       (Unicode.nfkd (c0 :: text))))))
      as (Hel & Hadj & _).
    by split.
Qed.

End NormalizerMore.

(** ** Handlers: sessions and uploads *)

Section HandlersMore.
Context {U : UnicodeData}.
Import App.

Lemma fold_delete_lookup (ks : list pystr) (d : gmap pystr OAuthSession) k :
  fold_left (fun d sid => delete sid d) ks d !! k
  = if bool_decide (k ∈ ks) then None else d !! k.
Proof.
  revert d. induction ks as [|a ks IH]; intros d; simpl; [done|].
  rewrite IH. destruct (decide (k = a)) as [->|Hne].
  - rewrite lookup_delete_eq.
    rewrite (bool_decide_eq_true_2 (a ∈ a :: ks)) by left.
    by case_bool_decide.
  - rewrite lookup_delete_ne by done.
    rewrite (bool_decide_ext (k ∈ a :: ks) (k ∈ ks)); [done|].
    rewrite elem_of_cons. split; [by intros [?|?] | by right].
Qed.

Lemma cleanup_lookup now s sid :
  OAUTH_CACHE (cleanup_oauth_sessions now s) !! sid
  = match OAUTH_CACHE s !! sid with
    | Some info =>
        if bool_decide (now - created_at info > OAUTH_SESSION_TTL_SEC)%Z
        then None else Some info
    | None => None
    end.
Proof.
  unfold cleanup_oauth_sessions. simpl. rewrite fold_delete_lookup.
  destruct (OAUTH_CACHE s !! sid) as [info|] eqn:Hsid; [|by case_bool_decide].
  rewrite (bool_decide_ext _ (now - created_at info > OAUTH_SESSION_TTL_SEC)%Z);
    [done|].
  rewrite list_elem_of_fmap. split.
  - intros ([k i] & -> & Hin). apply list_elem_of_In, filter_In in Hin as [Hin Hold].
    apply list_elem_of_In, elem_of_map_to_list in Hin. simpl in *.
    rewrite Hsid in Hin. injection Hin as <-. by apply bool_decide_eq_true in Hold.
  - intros Hold. exists (sid, info). split; [done|].
    apply list_elem_of_In, filter_In. split.
    + by apply list_elem_of_In, elem_of_map_to_list.
    + by apply bool_decide_eq_true.
Qed.

(** X19. The clean-up removes exactly the sessions older than the
    time-to-live: a session is in the cache afterwards if and only if it
    was there before and is at most [OAUTH_SESSION_TTL_SEC] old. *)
Theorem cleanup_removes_expired now s sid info :
  OAUTH_CACHE (cleanup_oauth_sessions now s) !! sid = Some info
  <-> OAUTH_CACHE s !! sid = Some info
      /\ (now - created_at info <= OAUTH_SESSION_TTL_SEC)%Z.
Proof.
  rewrite cleanup_lookup. destruct (OAUTH_CACHE s !! sid) as [i|].
  - case_bool_decide as Hold; split.
    + done.
    + intros [[= ->] ?]. lia.
    + intros [= ->]. split; [done|lia].
    + by intros [? _].
  - split; [done | by intros [? _]].
Qed.

(** X20. A session is served while it is fresh and refused once it is older
    than the time-to-live: the status request for a session started at
    [t] finds it at [now] exactly when [now - t] is at most
    [OAUTH_SESSION_TTL_SEC]. *)
Theorem oauth_session_window now t (uuid : pystr) logged_in s :
  strip uuid = uuid -> uuid <> [] ->
  (plex_auth_status now (Some uuid) logged_in (plex_auth_start t uuid s).1).2
  = if bool_decide (now - t > OAUTH_SESSION_TTL_SEC)%Z
    then Error 400 "OAuth session not found or expired"
    else AuthChecked logged_in.
Proof.
  intros Hstrip Hne. unfold plex_auth_status, plex_auth_start. cbv zeta.
  change (or_empty (Some uuid)) with uuid. rewrite Hstrip.
  destruct uuid as [|c uuid]; [done|].
  cbn [fst]. rewrite cleanup_lookup. cbn [OAUTH_CACHE]. rewrite lookup_insert_eq.
  cbn [created_at]. case_bool_decide; [done|]. by destruct logged_in.
Qed.

(** X21. The token of a session is handed out once: after a status request
    that found the login complete, every later status request for the
    session is refused. *)
Theorem oauth_token_single_use now now' sessionId logged_in s s' :
  plex_auth_status now sessionId true s = (s', AuthChecked true) ->
  (plex_auth_status now' sessionId logged_in s').2
  = Error 400 "OAuth session not found or expired".
Proof.
  unfold plex_auth_status. cbv zeta.
  destruct (strip (or_empty sessionId)) as [|c sid] eqn:Hsid; [by intros [= <-]|].
  destruct (OAUTH_CACHE (cleanup_oauth_sessions now s) !! (c :: sid));
    [|by intros [= <-]].
  intros [= <-]. rewrite cleanup_lookup. cbn [OAUTH_CACHE].
  by rewrite lookup_delete_eq.
Qed.

Lemma handle_uploads_usable s rq :
  uploads_usable s -> uploads_usable (handle s rq).1.
Proof.
  intros Hs. destruct rq; cbn [handle fst]; try done.
  - unfold upload.
    destruct file as [[[|c name] raw]|]; try done.
    destruct (decode_uploaded_bytes raw) as [text|]; try done.
    destruct (parse_apple_playlist_text text) as [[|t parsed]|] eqn:Hparse;
      try done.
    intros id tracks. cbn [fst UPLOAD_CACHE].
    destruct (decide (uuid = id)) as [->|Hne].
    + rewrite lookup_insert_eq. intros [= <-]. split; [done|].
      by apply (parse_titles text).
    + rewrite lookup_insert_ne by done. apply Hs.
  - unfold plex_auth_status. cbv zeta.
    destruct (strip (or_empty sessionId)) as [|c sid]; try done.
    destruct (OAUTH_CACHE _ !! _); try done.
    by destruct logged_in.
Qed.

(** X22. Starting from empty caches, whatever requests arrive, every upload
    in the cache is a non-empty list of records with non-blank titles:
    [preview] and [reorder] never get an empty import. *)
Theorem cached_uploads_usable rqs id tracks :
  UPLOAD_CACHE (run {| UPLOAD_CACHE := ∅; OAUTH_CACHE := ∅ |} rqs) !! id
    = Some tracks ->
  tracks <> [] /\ Forall (fun t => strip (title t) <> []) tracks.
Proof.
  assert (forall s, uploads_usable s -> uploads_usable (run s rqs)) as Hrun.
  { induction rqs as [|rq rqs IH]; intros s Hs; simpl; [done|].
    by apply IH, handle_uploads_usable. }
  apply Hrun. intros ? ?. cbn [UPLOAD_CACHE]. by rewrite lookup_empty.
Qed.

(** X23. Round trip of an upload. When [upload] answers with an upload
    identifier, a [preview] with that identifier (and a playlist the
    server returns) is the plan for exactly the records the Import Parser
    gave for the file; the identifier may be padded with whitespace. *)
Theorem upload_then_preview file_name raw (uuid : pystr) s s' n sample
    padded playlistId items :
  upload (Some (file_name, raw)) uuid s = (s', Uploaded uuid n sample) ->
  strip padded = uuid -> uuid <> [] -> strip (or_empty playlistId) <> [] ->
  exists tracks,
    import_tracks raw = Ok tracks /\ n = length tracks
    /\ sample = take 10 tracks
    /\ preview (Some padded) playlistId (FetchPlaylist false items) s'
       = Previewed (build_reorder_plan items tracks).
Proof.
  unfold upload, import_tracks. intros Hup Hpad Hne Hpid.
  destruct file_name as [|c name]; [done|].
  destruct (decode_uploaded_bytes raw) as [text|]; [|done].
  cbn [mbind result_mbind result_bind].
  destruct (parse_apple_playlist_text text) as [[|t parsed]|]; try done.
  injection Hup as <- <- <-. exists (t :: parsed).
  split; [done|]. split; [done|]. split; [done|].
  unfold preview, with_upload. cbv zeta.
  change (or_empty (Some padded)) with padded. cbn [UPLOAD_CACHE].
  rewrite Hpad. destruct uuid as [|u uuid]; [done|].
  rewrite lookup_insert_eq.
  by destruct (strip (or_empty playlistId)).
Qed.

End HandlersMore.

Lemma oauth_session_window_witness :
  (App.plex_auth_status 1000700 (Some (py "a1")) false
     (App.plex_auth_start 1000000 (py "a1") CacheExample.start).1).2
  = App.Error 400 "OAuth session not found or expired".
Proof.
  apply (oauth_session_window 1000700 1000000 (py "a1") false
           CacheExample.start).
  - reflexivity.
  - discriminate.
Defined.

Lemma oauth_token_single_use_witness :
  (App.plex_auth_status 1000200 (Some (py "a1")) true
     (App.plex_auth_status 1000100 (Some (py "a1")) true
        (App.plex_auth_start 1000000 (py "a1") CacheExample.start).1).1).2
  = App.Error 400 "OAuth session not found or expired".
Proof.
  apply (oauth_token_single_use 1000100 1000200 (Some (py "a1")) true
           (App.plex_auth_start 1000000 (py "a1") CacheExample.start).1).
  by vm_compute.
Defined.

Lemma cached_uploads_usable_witness :
  [ {| title := py "Yesterday"; artist := [] |} ] <> []
  /\ Forall (fun t => strip (title t) <> [])
       [ {| title := py "Yesterday"; artist := [] |} ].
Proof.
  apply (cached_uploads_usable (U := ucd_latin)
           [App.Upload (Some (py "list.txt", CacheExample.file))
              CacheExample.id]
           CacheExample.id).
  by vm_compute.
Defined.

Lemma upload_then_preview_witness :
  exists tracks,
    import_tracks (U := ucd_latin) CacheExample.file = Ok tracks
    /\ 1%nat = length tracks
    /\ [ {| title := py "Yesterday"; artist := [] |} ] = take 10 tracks
    /\ App.preview (U := ucd_latin) (Some (py " 3f0c ")) (Some (py "42"))
         (App.FetchPlaylist false Examples.playlist) CacheExample.stored
       = App.Previewed
           (build_reorder_plan (U := ucd_latin) Examples.playlist tracks).
Proof.
  apply (upload_then_preview (U := ucd_latin) (py "list.txt")
           CacheExample.file CacheExample.id CacheExample.start).
  - by vm_compute.
  - by vm_compute.
  - discriminate.
  - by vm_compute.
Defined.

(** ** The playlist listing *)

Section ListingFacts.
Import Listing.

Lemma str_lt_irrefl a : str_lt a a = false.
Proof.
  induction a as [|x a IH]; simpl; [done|].
  rewrite IH, N.ltb_irrefl. by rewrite andb_false_r.
Qed.

Lemma str_lt_asym a b : str_lt a b = true -> str_lt b a = false.
Proof.
  revert b. induction a as [|x a IH]; intros [|y b]; simpl; try done.
  intros [Hlt|[Heq Hab]%andb_true_iff]%orb_true_iff.
  - apply N.ltb_lt in Hlt. apply orb_false_iff. split.
    + apply N.ltb_ge. lia.
    + apply andb_false_iff. left. apply N.eqb_neq. lia.
  - apply N.eqb_eq in Heq as ->. rewrite N.ltb_irrefl, N.eqb_refl. simpl.
    by apply IH.
Qed.

(** [a <= b] and [b <= c] give [a <= c], where [a <= b] is: not [b < a]. *)
Lemma str_le_trans a b c :
  str_lt b a = false -> str_lt c b = false -> str_lt c a = false.
Proof.
  revert b c. induction a as [|x a IH]; intros [|y b] [|z c]; simpl; try done.
  intros [Hyx Hba]%orb_false_iff [Hzy Hcb]%orb_false_iff.
  apply N.ltb_ge in Hyx, Hzy. apply orb_false_iff. split.
  - apply N.ltb_ge. lia.
  - destruct (N.eqb_spec z x) as [->|Hne]; [|done]. simpl.
    assert (y = x) as -> by lia.
    rewrite N.eqb_refl in Hba, Hcb. simpl in Hba, Hcb. by eapply IH.
Qed.

Section SortFacts.
Context {A : Type} (key : A -> pystr).

Lemma insert_sorted_perm x l : insert_sorted key x l ≡ₚ x :: l.
Proof.
  induction l as [|y l IH]; simpl; [done|].
  destruct (str_lt (key y) (key x)); [|done].
  rewrite IH. apply Permutation_swap.
Qed.

Lemma sort_perm l : sort key l ≡ₚ l.
Proof.
  induction l as [|x l IH]; simpl; [done|].
  by rewrite insert_sorted_perm, IH.
Qed.

Lemma insert_sorted_sorted x l :
  StronglySorted (fun a b => str_lt (key b) (key a) = false) l ->
  StronglySorted (fun a b => str_lt (key b) (key a) = false)
    (insert_sorted key x l).
Proof.
  induction 1 as [|y l Hl IH Hy]; simpl.
  - constructor; [constructor|done].
  - destruct (str_lt (key y) (key x)) eqn:Hyx.
    + constructor; [done|].
      rewrite insert_sorted_perm. constructor; [|done].
      by apply str_lt_asym.
    + constructor; [by constructor|]. constructor; [done|].
      eapply Forall_impl; [exact Hy|]. intros z Hz. simpl in Hz.
      by eapply str_le_trans.
Qed.

Lemma sort_sorted l :
  StronglySorted (fun a b => str_lt (key b) (key a) = false) (sort key l).
Proof.
  induction l as [|x l IH]; simpl; [constructor|].
  by apply insert_sorted_sorted.
Qed.

Lemma insert_sorted_filter k x l :
  List.filter (fun z => bool_decide (key z = k)) (insert_sorted key x l)
  = List.filter (fun z => bool_decide (key z = k)) (x :: l).
Proof.
  induction l as [|y l IH]; [done|].
  cbn [insert_sorted]. destruct (str_lt (key y) (key x)) eqn:Hyx; [|done].
  cbn [List.filter] in *. rewrite IH.
  case_bool_decide as Hx; case_bool_decide as Hy; try done.
  rewrite Hx, <- Hy, str_lt_irrefl in Hyx. done.
Qed.

Lemma sort_filter k l :
  List.filter (fun z => bool_decide (key z = k)) (sort key l)
  = List.filter (fun z => bool_decide (key z = k)) l.
Proof.
  induction l as [|x l IH]; [done|].
  cbn [sort foldr]. rewrite insert_sorted_filter.
  cbn [List.filter]. fold (sort key l). by rewrite IH.
Qed.

End SortFacts.

Context {U : UnicodeData}.

Lemma playlists_listed env header server items :
  playlists env header server = Listed items ->
  strip (or_empty env) <> [] /\ strip (or_empty header) <> []
  /\ exists ps,
       server (strip (or_empty env)) (strip (or_empty header)) = Some ps
       /\ items = sort sort_key (entry_of <$> List.filter kept ps).
Proof.
  unfold playlists, plex_client, resolve_request_token. cbv zeta.
  change (or_empty (Some ?x)) with x. rewrite strip_strip.
  destruct (strip (or_empty env)) as [|b baseurl]; [done|].
  destruct (strip (or_empty header)) as [|c token]; [done|].
  destruct (server _ _) as [ps|]; [|done].
  destruct (forallb _ _); [|done].
  intros [= <-]. split; [done|]. split; [done|]. by exists ps.
Qed.

(** X24. The listing needs the server address and a token: when
    [playlists] answers with a list, neither the [PLEX_BASEURL] setting
    nor the [X-Plex-Token] header was blank, and the list holds exactly
    the entries of the server's playlists that are not smart and of type
    audio, each as often as the server has it. *)
Theorem listing_contents env header server items :
  playlists env header server = Listed items ->
  strip (or_empty env) <> [] /\ strip (or_empty header) <> []
  /\ exists ps,
       server (strip (or_empty env)) (strip (or_empty header)) = Some ps
       /\ items ≡ₚ entry_of <$> List.filter kept ps.
Proof.
  intros (Henv & Hheader & ps & Hps & ->)%playlists_listed.
  split; [done|]. split; [done|]. exists ps. split; [done|].
  apply sort_perm.
Qed.

(** X25. The listing is in ascending order of the lower-cased titles: no
    entry has a later entry whose lower-cased title is smaller. *)
Theorem listing_sorted env header server items :
  playlists env header server = Listed items ->
  StronglySorted (fun a b => str_lt (sort_key b) (sort_key a) = false) items.
Proof.
  intros (_ & _ & ps & _ & ->)%playlists_listed. apply sort_sorted.
Qed.

(** X26. The sort is stable: the entries of the listing whose titles are
    the same up to case are in the order in which the server gave them. *)
Theorem listing_stable env header server items k :
  playlists env header server = Listed items ->
  exists ps,
    server (strip (or_empty env)) (strip (or_empty header)) = Some ps
    /\ List.filter (fun x => bool_decide (sort_key x = k)) items
       = List.filter (fun x => bool_decide (sort_key x = k))
           (entry_of <$> List.filter kept ps).
Proof.
  intros (_ & _ & ps & Hps & ->)%playlists_listed.
  exists ps. split; [done|]. apply sort_filter.
Qed.

(** X27. A playlist without a title fails the whole listing: when a kept
    playlist has no title, the answer is an error, whatever the others
    are. *)
Theorem listing_needs_titles env header server ps p :
  server (strip (or_empty env)) (strip (or_empty header)) = Some ps ->
  p ∈ ps -> kept p = true -> Playlist.title p = None ->
  exists message, playlists env header server = Failed 400 message.
Proof.
  intros Hps Hp Hkept Htitle.
  unfold playlists, plex_client, resolve_request_token. cbv zeta.
  change (or_empty (Some ?x)) with x. rewrite strip_strip.
  destruct (strip (or_empty env)) as [|b baseurl]; [by eexists|].
  destruct (strip (or_empty header)) as [|c token]; [by eexists|].
  rewrite Hps.
  destruct (forallb _ _) eqn:Hall; [|by eexists].
  rewrite forallb_forall in Hall.
  specialize (Hall (entry_of p)).
  rewrite bool_decide_eq_true in Hall. simpl in Hall. rewrite Htitle in Hall.
  destruct Hall as [? [=]].
  apply in_map, filter_In. split; [by apply list_elem_of_In|done].
Qed.

End ListingFacts.

Lemma listing_contents_witness :
  strip (or_empty (Some (py "http://plex:32400"))) <> []
  /\ strip (or_empty (Some (py " token "))) <> []
  /\ exists ps,
       ListingExample.server ListingExample.library
         (strip (or_empty (Some (py "http://plex:32400"))))
         (strip (or_empty (Some (py " token ")))) = Some ps
       /\ ListingExample.listed
          ≡ₚ Listing.entry_of <$> List.filter Listing.kept ps.
Proof.
  apply (listing_contents (U := ucd_latin)). by vm_compute.
Defined.

Lemma listing_sorted_witness :
  StronglySorted
    (fun a b =>
       Listing.str_lt (Listing.sort_key (U := ucd_latin) b)
         (Listing.sort_key (U := ucd_latin) a) = false)
    ListingExample.listed.
Proof.
  apply (listing_sorted (U := ucd_latin) (Some (py "http://plex:32400"))
           (Some (py " token "))
           (ListingExample.server ListingExample.library)).
  by vm_compute.
Defined.

Lemma listing_stable_witness :
  exists ps,
    ListingExample.server ListingExample.library
      (strip (or_empty (Some (py "http://plex:32400"))))
      (strip (or_empty (Some (py " token ")))) = Some ps
    /\ List.filter
         (fun x => bool_decide (Listing.sort_key (U := ucd_latin) x = py "road"))
         ListingExample.listed
       = List.filter
           (fun x => bool_decide (Listing.sort_key (U := ucd_latin) x = py "road"))
           (Listing.entry_of <$> List.filter Listing.kept ps).
Proof.
  apply (listing_stable (U := ucd_latin)). by vm_compute.
Defined.

Lemma listing_needs_titles_witness :
  exists message,
    Listing.playlists (U := ucd_latin) (Some (py "http://plex:32400"))
      (Some (py " token "))
      (ListingExample.server
         (ListingExample.library ++ [ListingExample.untitled]))
    = Listing.Failed 400 message.
Proof.
  apply (listing_needs_titles (U := ucd_latin) _ _ _
           (ListingExample.library ++ [ListingExample.untitled])
           ListingExample.untitled).
  - reflexivity.
  - apply elem_of_app. right. apply list_elem_of_here.
  - reflexivity.
  - reflexivity.
Defined.
